(** * UV-island gradient generator: a shallow embedding of
      [tools/uv_island_gradient.py] and the properties of its resolver,
      axis engine, palette engine and compositor.

    Modelling conventions.
    - Python [int] is [Z]; NumPy [int64]/[int32]/[uint8] cells are [Z] with
      the casts the source performs written out ([to_int32]).
    - Python [float] / NumPy [float64] (and the [float32] copies the source
      takes of UV arrays) are idealised as exact rationals [Q]: every
      arithmetic operation is the exact one, so rounding error, NaN and
      infinities are outside the model.  [%] on floats is the floored
      remainder, [np.round] rounds half to even.  In particular a cast to
      [float32] is the identity, a test [np.isfinite] always holds, and the
      remainder is strictly below its modulus.  A property that floating
      point does not share for every input carries the precondition under
      which it does (coordinates of bounded magnitude, a triangle that is no
      sliver, values a [float32] holds exactly) or is stated up to a
      tolerance; where the code itself leaves the idealisation, module [F64]
      evaluates it in IEEE binary64.
    - A NumPy 2-D array is a list of rows; an (N,2) array is a list of pairs.
    - Raising an exception is the [Err] case of [result].
    - Decoding of image files and JSON is input/output glue: a decoded image
      is given as its array, a JSON object as a record of optional fields. *)

From Stdlib Require Import ZArith QArith Qround Qabs String Ascii DecimalString Bool Lia Lqa.
From Stdlib.Strings Require Import Byte.
From Stdlib Require Floats.PrimFloat Floats.SpecFloat Floats.FloatOps.
From Stdlib Require Import List Sorting.Sorted Permutation.
Import ListNotations.

Local Open Scope Z_scope.

(** * The program *)

(** ** Exceptions as results *)

Inductive error : Type :=
| ValueError (msg : string)
| IndexError
| OverflowError.

Inductive result (A : Type) : Type :=
| Ok (a : A)
| Err (e : error).
Arguments Ok {A} a.
Arguments Err {A} e.

Definition bind {A B : Type} (r : result A) (k : A -> result B) : result B :=
  match r with
  | Ok a => k a
  | Err e => Err e
  end.

Notation "x <- r ;; k" := (bind r (fun x => k))
  (at level 61, r at next level, right associativity).
Notation "' p <- r ;; k" := (bind r (fun p => k))
  (at level 61, p pattern, r at next level, right associativity).

Definition is_ok {A : Type} (r : result A) : bool :=
  match r with Ok _ => true | Err _ => false end.

(** ** BLAKE2b (RFC 7693), the digest behind [hashlib.blake2b] *)

Module Blake2b.

Definition mask64 : Z := 2 ^ 64 - 1.
Definition add64 (a b : Z) : Z := Z.land (a + b) mask64.
Definition rotr64 (x n : Z) : Z :=
  Z.land (Z.lor (Z.shiftr x n) (Z.shiftl x (64 - n))) mask64.

Definition IV : list Z :=
  [ 0x6a09e667f3bcc908; 0xbb67ae8584caa73b; 0x3c6ef372fe94f82b; 0xa54ff53a5f1d36f1;
    0x510e527fade682d1; 0x9b05688c2b3e6c1f; 0x1f83d9abfb41bd6b; 0x5be0cd19137e2179 ].

Definition SIGMA : list (list nat) :=
  [ [ 0; 1; 2; 3; 4; 5; 6; 7; 8; 9; 10; 11; 12; 13; 14; 15 ];
    [ 14; 10; 4; 8; 9; 15; 13; 6; 1; 12; 0; 2; 11; 7; 5; 3 ];
    [ 11; 8; 12; 0; 5; 2; 15; 13; 10; 14; 3; 6; 7; 1; 9; 4 ];
    [ 7; 9; 3; 1; 13; 12; 11; 14; 2; 6; 5; 10; 4; 0; 15; 8 ];
    [ 9; 0; 5; 7; 2; 4; 10; 15; 14; 1; 11; 12; 6; 8; 3; 13 ];
    [ 2; 12; 6; 10; 0; 11; 8; 3; 4; 13; 7; 5; 15; 14; 1; 9 ];
    [ 12; 5; 1; 15; 14; 13; 4; 10; 0; 7; 6; 3; 9; 2; 8; 11 ];
    [ 13; 11; 7; 14; 12; 1; 3; 9; 5; 0; 15; 4; 8; 6; 2; 10 ];
    [ 6; 15; 14; 9; 11; 3; 0; 8; 12; 2; 13; 7; 1; 4; 10; 5 ];
    [ 10; 2; 8; 4; 7; 6; 1; 5; 15; 11; 9; 14; 3; 12; 13; 0 ] ]%nat.

Definition word (v : list Z) (i : nat) : Z := nth i v 0.

Definition store (v : list Z) (i : nat) (x : Z) : list Z :=
  firstn i v ++ x :: skipn (S i) v.

(** The mixing function G on the work vector. *)
Definition G (v : list Z) (a b c d : nat) (x y : Z) : list Z :=
  let v := store v a (add64 (add64 (word v a) (word v b)) x) in
  let v := store v d (rotr64 (Z.lxor (word v d) (word v a)) 32) in
  let v := store v c (add64 (word v c) (word v d)) in
  let v := store v b (rotr64 (Z.lxor (word v b) (word v c)) 24) in
  let v := store v a (add64 (add64 (word v a) (word v b)) y) in
  let v := store v d (rotr64 (Z.lxor (word v d) (word v a)) 16) in
  let v := store v c (add64 (word v c) (word v d)) in
  store v b (rotr64 (Z.lxor (word v b) (word v c)) 63).

Definition round (m : list Z) (v : list Z) (r : nat) : list Z :=
  let s := nth (r mod 10) SIGMA [] in
  let mw (i : nat) := word m (nth i s 0%nat) in
  let v := G v 0 4 8 12 (mw 0%nat) (mw 1%nat) in
  let v := G v 1 5 9 13 (mw 2%nat) (mw 3%nat) in
  let v := G v 2 6 10 14 (mw 4%nat) (mw 5%nat) in
  let v := G v 3 7 11 15 (mw 6%nat) (mw 7%nat) in
  let v := G v 0 5 10 15 (mw 8%nat) (mw 9%nat) in
  let v := G v 1 6 11 12 (mw 10%nat) (mw 11%nat) in
  let v := G v 2 7 8 13 (mw 12%nat) (mw 13%nat) in
  G v 3 4 9 14 (mw 14%nat) (mw 15%nat).

Fixpoint le_combine (bs : list byte) : Z :=
  match bs with
  | [] => 0
  | b :: bs' => Z.lor (Z.of_N (Byte.to_N b)) (Z.shiftl (le_combine bs') 8)
  end.

Definition byte_of_Z (z : Z) : byte :=
  match Byte.of_N (Z.to_N (Z.land z 255)) with
  | Some b => b
  | None => x00
  end.

Fixpoint le_split (n : nat) (w : Z) : list byte :=
  match n with
  | O => []
  | S n' => byte_of_Z w :: le_split n' (Z.shiftr w 8)
  end.

(** A 128-byte block (zero padded on the right) as sixteen little-endian
    64-bit words. *)
Definition block_words (block : list byte) : list Z :=
  map (fun i => le_combine (firstn 8 (skipn (8 * i) block ++ repeat x00 8)))
      (seq 0 16).

(** The compression function F. *)
Definition F (h : list Z) (block : list byte) (t : Z) (last : bool) : list Z :=
  let m := block_words block in
  let v := h ++ IV in
  let v := store v 12 (Z.lxor (word v 12) (Z.land t mask64)) in
  let v := store v 13 (Z.lxor (word v 13) (Z.land (Z.shiftr t 64) mask64)) in
  let v := if last then store v 14 (Z.lxor (word v 14) mask64) else v in
  let v := fold_left (round m) (seq 0 12) v in
  map (fun i => Z.lxor (Z.lxor (word h i) (word v i)) (word v (i + 8))) (seq 0 8).

(** Unkeyed hashing: every block but the last is compressed with the
    running byte count, the last one (possibly empty, zero padded) with the
    total length and the finalisation flag. *)
Fixpoint absorb (fuel : nat) (h : list Z) (data : list byte) (t : Z) : list Z :=
  match fuel with
  | O => h
  | S fuel' =>
      if (length data <=? 128)%nat
      then F h data (t + Z.of_nat (length data)) true
      else absorb fuel' (F h (firstn 128 data) (t + 128) false)
                  (skipn 128 data) (t + 128)
  end.

Definition blake2b (digest_size : nat) (data : list byte) : list byte :=
  let h0 := store IV 0 (Z.lxor (word IV 0)
                          (Z.lxor 0x01010000 (Z.of_nat digest_size))) in
  let h := absorb (S (length data)) h0 data 0 in
  firstn digest_size (flat_map (le_split 8) h).

Definition hex_digit (n : N) : ascii :=
  nth (N.to_nat n) (list_ascii_of_string "0123456789abcdef") "0"%char.

Fixpoint hexdigest (bs : list byte) : string :=
  match bs with
  | [] => EmptyString
  | b :: bs' =>
      String (hex_digit (N.div (Byte.to_N b) 16))
        (String (hex_digit (N.modulo (Byte.to_N b) 16)) (hexdigest bs'))
  end.

End Blake2b.

(** ** Numbers *)

Definition Qltb (a b : Q) : bool := negb (Qle_bool b a).

(** Python's two-argument [min] and [max]: the first argument is kept
    unless the second is strictly smaller (larger). *)
Definition py_min (a b : Q) : Q := if Qltb b a then b else a.
Definition py_max (a b : Q) : Q := if Qltb a b then b else a.
Definition py_min3 (a b c : Q) : Q := py_min (py_min a b) c.
Definition py_max3 (a b c : Q) : Q := py_max (py_max a b) c.

(** [x % m] on floats, for a positive modulus: the floored remainder. *)
Definition py_fmod (x m : Q) : Q := (x - m * inject_Z (Qfloor (x / m)))%Q.

(** [np.round]: to the nearest integer, halves to the even neighbour. *)
Definition np_round (x : Q) : Z :=
  let f := Qfloor x in
  let d := (x - inject_Z f)%Q in
  if Qltb d 0.5 then f
  else if Qltb 0.5 d then f + 1
  else if Z.even f then f else f + 1.

Definition np_clip (x lo hi : Q) : Q :=
  if Qltb x lo then lo else if Qltb hi x then hi else x.

Definition np_clip_Z (x lo hi : Z) : Z :=
  if x <? lo then lo else if hi <? x then hi else x.

(** [np.min] / [np.max] of a 1-D array; an empty array raises. *)
Definition np_min (xs : list Q) : result Q :=
  match xs with
  | [] => Err (ValueError "zero-size array to reduction operation minimum which has no identity")
  | x :: xs' => Ok (fold_left (fun m y => if Qltb y m then y else m) xs' x)
  end.

Definition np_max (xs : list Q) : result Q :=
  match xs with
  | [] => Err (ValueError "zero-size array to reduction operation maximum which has no identity")
  | x :: xs' => Ok (fold_left (fun m y => if Qltb m y then y else m) xs' x)
  end.

Definition Qsum (xs : list Q) : Q := fold_left Qplus xs 0%Q.

(** [astype(np.int32)] of an integer cell: two's-complement wrap-around. *)
Definition to_int32 (z : Z) : Z := (z + 2 ^ 31) mod 2 ^ 32 - 2 ^ 31.

Definition int64_ok (z : Z) : bool := (- 2 ^ 63 <=? z) && (z <? 2 ^ 63).

Definition EPS : Q := 1e-8.

(** ** Data model *)

Inductive island_id_t : Type :=
| IdInt (n : Z)
| IdStr (s : string).

Definition uv : Type := (Q * Q)%type.
Definition pixel : Type := (Z * Z)%type.   (* columns: x, y *)
Definition hsv_t : Type := (Q * Q * Q)%type.
Definition rgb_t : Type := (Z * Z * Z)%type.

Record IslandData : Type := mkIsland {
  island_id : island_id_t;
  pixels : list pixel;
  pixel_uvs : option (list uv);
  uv_points : option (list uv)
}.

(** ** Palette and colour engine *)

Definition PALETTE_LIBRARY : list (hsv_t * hsv_t) :=
  [ ((274.0, 0.58, 0.92), (214.0, 0.56, 0.94));
    ((326.0, 0.64, 0.92), (28.0, 0.64, 0.93));
    ((188.0, 0.69, 0.89), (132.0, 0.62, 0.92));
    ((314.0, 0.67, 0.90), (272.0, 0.66, 0.89)) ]%Q.

(** [str(value)]: decimal for an integer, the text itself for a string
    (kept as its UTF-8 bytes). *)
Definition py_str (value : island_id_t) : string :=
  match value with
  | IdInt n => NilZero.string_of_int (Z.to_int n)
  | IdStr s => s
  end.

(** [int.from_bytes(digest, byteorder="big", signed=False)]. *)
Definition int_from_bytes_big (bs : list byte) : Z :=
  fold_left (fun acc b => acc * 256 + Z.of_N (Byte.to_N b)) bs 0.

Definition stable_hash64 (value : island_id_t) : Z :=
  int_from_bytes_big (Blake2b.blake2b 8 (list_byte_of_string (py_str value))).

Definition clamp (value lo hi : Q) : Q := py_max lo (py_min hi value).

Definition clamp01_array (arr : list Q) : list Q :=
  map (fun x => np_clip x 0 1) arr.

(** The masked field [(seed >> shift) & 0xFFFF] scaled to [0,1]. *)
Definition seed_fraction (seed shift : Z) : Q :=
  (inject_Z (Z.land (Z.shiftr seed shift) 0xFFFF) / 65535.0)%Q.

Definition jitter_stop (base : hsv_t) (hue_offset sat_offset val_offset : Q) : hsv_t :=
  let '(h, s, v) := base in
  (py_fmod (h + hue_offset) 360.0,
   clamp (s + sat_offset) 0.55 0.75,
   clamp (v + val_offset) 0.85 0.95)%Q.

Definition palette_for_island (id : island_id_t) : hsv_t * hsv_t :=
  let seed := stable_hash64 id in
  let '(base_left, base_right) :=
    nth (Z.to_nat (seed mod Z.of_nat (length PALETTE_LIBRARY))) PALETTE_LIBRARY
        ((0, 0, 0), (0, 0, 0))%Q in
  let hue_offset := (seed_fraction seed 8 * 16.0 - 8.0)%Q in
  let sat_offset := (seed_fraction seed 24 * 0.06 - 0.03)%Q in
  let val_offset := (seed_fraction seed 40 * 0.04 - 0.02)%Q in
  (jitter_stop base_left hue_offset sat_offset val_offset,
   jitter_stop base_right hue_offset sat_offset val_offset).

(** The wrapped hue difference [((h1 - h0 + 180) % 360) - 180]. *)
Definition hue_delta (h0 h1 : Q) : Q :=
  (py_fmod (h1 - h0 + 180.0) 360.0 - 180.0)%Q.

Definition lerp_hsv1 (left_hsv right_hsv : hsv_t) (t : Q) : hsv_t :=
  let '(h0, s0, v0) := left_hsv in
  let '(h1, s1, v1) := right_hsv in
  let dh := hue_delta h0 h1 in
  (py_fmod (h0 + dh * t) 360.0,
   s0 + (s1 - s0) * t,
   v0 + (v1 - v0) * t)%Q.

Definition lerp_hsv (left_hsv right_hsv : hsv_t) (t : list Q) : list hsv_t :=
  map (lerp_hsv1 left_hsv right_hsv) t.

Definition Qbetween (lo x hi : Q) : bool := Qle_bool lo x && Qltb x hi.

(** One row of [hsv_to_rgb_np]; the six masks are mutually exclusive, and a
    row none of them selects keeps the zeros it was initialised with. *)
Definition hsv_to_rgb1 (hsv : hsv_t) : rgb_t :=
  let '(h_in, s_in, v_in) := hsv in
  let h := py_fmod h_in 360.0 in
  let s := np_clip s_in 0 1 in
  let v := np_clip v_in 0 1 in
  let c := (v * s)%Q in
  let hp := (h / 60.0)%Q in
  let x := (c * (1.0 - Qabs (py_fmod hp 2.0 - 1.0)))%Q in
  let m := (v - c)%Q in
  let '(r, g, b) :=
    if Qbetween 0 hp 1 then (c, x, 0%Q)
    else if Qbetween 1 hp 2 then (x, c, 0%Q)
    else if Qbetween 2 hp 3 then (0%Q, c, x)
    else if Qbetween 3 hp 4 then (0%Q, x, c)
    else if Qbetween 4 hp 5 then (x, 0%Q, c)
    else if Qbetween 5 hp 6 then (c, 0%Q, x)
    else (0%Q, 0%Q, 0%Q) in
  let channel (q : Q) : Z := np_clip_Z (np_round ((q + m) * 255.0)) 0 255 in
  (channel r, channel g, channel b).

Definition hsv_to_rgb_np (hsv : list hsv_t) : list rgb_t := map hsv_to_rgb1 hsv.

(** ** Axis and local-parameter engine *)

Definition infer_uvs_from_pixels (pixels : list pixel) (width height : Z) : list uv :=
  map (fun p : pixel =>
         let '(x, y) := p in
         ((inject_Z x + 0.5) / inject_Z (Z.max 1 width),
          1.0 - (inject_Z y + 0.5) / inject_Z (Z.max 1 height))%Q)
      pixels.

(** The slice [sample[::step]]. *)
Fixpoint stride_from {A : Type} (step skip : nat) (l : list A) : list A :=
  match l with
  | [] => []
  | x :: l' =>
      match skip with
      | O => x :: stride_from step (step - 1) l'
      | S skip' => stride_from step skip' l'
      end
  end.

Definition mean_uv (pts : list uv) : uv :=
  let n := inject_Z (Z.of_nat (length pts)) in
  (Qsum (map fst pts) / n, Qsum (map snd pts) / n)%Q.

Definition dot (a b : uv) : Q := (fst a * fst b + snd a * snd b)%Q.

Definition uv_sub (a b : uv) : uv := (fst a - fst b, snd a - snd b)%Q.

(** A 2x2 matrix, row-major. *)
Definition mat2 : Type := (Q * Q * (Q * Q))%type.

Definition covariance (sample : list uv) : mat2 :=
  let mu := mean_uv sample in
  let centered := map (fun p => uv_sub p mu) sample in
  let n := inject_Z (Z.max 1 (Z.of_nat (length centered))) in
  let sxx := Qsum (map (fun c => fst c * fst c) centered)%Q in
  let sxy := Qsum (map (fun c => fst c * snd c) centered)%Q in
  let syx := Qsum (map (fun c => snd c * fst c) centered)%Q in
  let syy := Qsum (map (fun c => snd c * snd c) centered)%Q in
  ((sxx / n, sxy / n), (syx / n, syy / n))%Q.

Section AxisEngine.

(** The two calls into LAPACK / libm that are not rational arithmetic are
    parameters of the engine: [eigh cov] is [np.linalg.eigh] (the pair of
    eigenvalues and the matrix whose columns are the eigenvectors, or [None]
    for [LinAlgError]), [vec_norm] is [np.linalg.norm]. *)
Variable eigh : mat2 -> option (Q * Q * mat2).
Variable vec_norm : uv -> Q.

Definition compute_principal_axis (points_uv : list uv) (eps : Q) : option uv :=
  if (length points_uv <? 2)%nat then None
  else
    let sample :=
      if 20000 <? Z.of_nat (length points_uv)
      then
        let step := Z.to_nat (Qceiling (inject_Z (Z.of_nat (length points_uv)) / 20000.0)) in
        stride_from step 0 points_uv
      else points_uv in
    let cov := covariance sample in
    match eigh cov with
    | None => None
    | Some ((w0, w1), ((e00, e01), (e10, e11))) =>
        (* column [argmax eig_vals]; the first maximum wins *)
        let axis := if Qltb w0 w1 then (e01, e11) else (e00, e10) in
        let norm := vec_norm axis in
        if Qltb norm eps then None
        else
          let axis := (fst axis / norm, snd axis / norm)%Q in
          if Qle_bool (Qabs (snd axis)) (Qabs (fst axis))
          then if Qltb (fst axis) 0 then Some (fst axis * -1.0, snd axis * -1.0)%Q
               else Some axis
          else if Qltb (snd axis) 0 then Some (fst axis * -1.0, snd axis * -1.0)%Q
               else Some axis
    end.

Definition normalize_local_uv (uvs : list uv) (eps : Q) : result (list uv * Q * Q) :=
  let u := map fst uvs in
  let v := map snd uvs in
  min_u <- np_min u ;;
  max_u <- np_max u ;;
  min_v <- np_min v ;;
  max_v <- np_max v ;;
  let span_u := (max_u - min_u)%Q in
  let span_v := (max_v - min_v)%Q in
  Ok (map (fun p : uv => ((fst p - min_u) / py_max eps span_u,
                          (snd p - min_v) / py_max eps span_v)%Q) uvs,
      span_u, span_v).

Definition fallback_t_from_bbox (pixel_uvs : list uv) (eps : Q) : result (list Q) :=
  '(local_uv, span_u, span_v) <- normalize_local_uv pixel_uvs eps ;;
  if Qltb span_u eps && Qltb span_v eps
  then Ok (repeat 0.5%Q (length pixel_uvs))
  else if Qle_bool span_v span_u
       then Ok (map fst local_uv)
       else Ok (map snd local_uv).

Definition compute_local_t (pixel_uvs axis_source_uvs : list uv) (eps : Q) : result (list Q) :=
  match compute_principal_axis axis_source_uvs eps with
  | None =>
      t <- fallback_t_from_bbox pixel_uvs eps ;;
      Ok (clamp01_array t)
  | Some axis =>
      let center := mean_uv axis_source_uvs in
      let t_raw := map (fun p => dot (uv_sub p center) axis) pixel_uvs in
      t_min <- np_min t_raw ;;
      t_max <- np_max t_raw ;;
      let span := (t_max - t_min)%Q in
      if Qltb span eps
      then t <- fallback_t_from_bbox pixel_uvs eps ;;
           Ok (clamp01_array t)
      else Ok (clamp01_array (map (fun r => (r - t_min) / span)%Q t_raw))
  end.

(** ** Compositor *)

Definition rgba_t : Type := (Z * Z * Z * Z)%type.

(** NumPy index normalisation along an axis of extent [n]: a negative index
    counts from the end, anything outside [-n, n) raises [IndexError]. *)
Definition norm_index (i n : Z) : result nat :=
  if (0 <=? i) && (i <? n) then Ok (Z.to_nat i)
  else if (- n <=? i) && (i <? 0) then Ok (Z.to_nat (i + n))
  else Err IndexError.

Fixpoint update_nth {A : Type} (i : nat) (f : A -> A) (l : list A) : list A :=
  match l, i with
  | [], _ => []
  | x :: l', O => f x :: l'
  | x :: l', S i' => x :: update_nth i' f l'
  end.

Definition write_cell (out : list (list rgba_t)) (width height : Z)
    (p : pixel) (f : rgba_t -> rgba_t) : result (list (list rgba_t)) :=
  let '(x, y) := p in
  row <- norm_index y height ;;
  col <- norm_index x width ;;
  Ok (update_nth row (update_nth col f) out).

(** [out[y, x, 0:3] = rgb]: one write per index pair, in order. *)
Fixpoint scatter_rgb (out : list (list rgba_t)) (width height : Z)
    (pixels : list pixel) (rgb : list rgb_t) : result (list (list rgba_t)) :=
  match pixels, rgb with
  | p :: pixels', (r, g, b) :: rgb' =>
      out' <- write_cell out width height p (fun c => (r, g, b, snd c)) ;;
      scatter_rgb out' width height pixels' rgb'
  | _, _ => Ok out
  end.

(** [out[y, x, 3] = 255]. *)
Fixpoint scatter_alpha (out : list (list rgba_t)) (width height : Z)
    (pixels : list pixel) : result (list (list rgba_t)) :=
  match pixels with
  | p :: pixels' =>
      out' <- write_cell out width height p (fun c => (fst c, 255)) ;;
      scatter_alpha out' width height pixels'
  | [] => Ok out
  end.

(** The per-pixel UVs the compositor shades an island with. *)
Definition island_pixel_uvs (width height : Z) (island : IslandData) : list uv :=
  match pixel_uvs island with
  | Some uvs =>
      if (length uvs =? length (pixels island))%nat then uvs
      else infer_uvs_from_pixels (pixels island) width height
  | None => infer_uvs_from_pixels (pixels island) width height
  end.

Definition island_axis_source (island : IslandData) (pixel_uvs : list uv) : list uv :=
  match uv_points island with
  | Some (p :: pts) => p :: pts
  | _ => pixel_uvs
  end.

(** The loop body of [render_island_gradients] up to the colours. *)
Definition island_rgb (width height : Z) (island : IslandData) : result (list rgb_t) :=
  let pixel_uvs := island_pixel_uvs width height island in
  let axis_source := island_axis_source island pixel_uvs in
  t <- compute_local_t pixel_uvs axis_source EPS ;;
  let '(left_hsv, right_hsv) := palette_for_island (island_id island) in
  let hsv := lerp_hsv left_hsv right_hsv t in
  Ok (hsv_to_rgb_np hsv).

Fixpoint render_loop (out : list (list rgba_t)) (width height : Z)
    (islands : list IslandData) : result (list (list rgba_t)) :=
  match islands with
  | [] => Ok out
  | island :: rest =>
      match pixels island with
      | [] => render_loop out width height rest
      | _ :: _ =>
          rgb <- island_rgb width height island ;;
          out1 <- scatter_rgb out width height (pixels island) rgb ;;
          out2 <- scatter_alpha out1 width height (pixels island) ;;
          render_loop out2 width height rest
      end
  end.

Definition render_island_gradients (width height : Z) (islands : list IslandData)
    (transparent_background : bool) : result (list (list rgba_t)) :=
  if (width <? 0) || (height <? 0)
  then Err (ValueError "negative dimensions are not allowed")
  else
    let alpha := if transparent_background then 0 else 255 in
    let out := repeat (repeat (0, 0, 0, alpha) (Z.to_nat width)) (Z.to_nat height) in
    render_loop out width height islands.

End AxisEngine.

(** ** Geometry / topology resolver *)

(** *** Arrays *)

(** [arr.shape] of a 2-D array given by its rows: (height, width). *)
Definition shape {A : Type} (arr : list (list A)) : Z * Z :=
  (Z.of_nat (length arr), Z.of_nat (length (hd [] arr))).

Fixpoint enumerate_from {A : Type} (i : Z) (l : list A) : list (Z * A) :=
  match l with
  | [] => []
  | x :: l' => (i, x) :: enumerate_from (i + 1) l'
  end.

(** [np.where(cond)] on a 2-D array, as (x, y) pairs in row-major order,
    followed by [column_stack((xs, ys)).astype(np.int32)]. *)
Definition where_pixels {A : Type} (cond : A -> bool) (arr : list (list A)) : list pixel :=
  flat_map (fun yr : Z * list A =>
              flat_map (fun xc : Z * A =>
                          if cond (snd xc) then [(to_int32 (fst xc), to_int32 (fst yr))] else [])
                       (enumerate_from 0 (snd yr)))
           (enumerate_from 0 arr).

(** Sorted insertion that drops a value already present: the building block
    of [np.unique] and of [sorted] over distinct values. *)
Fixpoint insert_unique {A : Type} (cmp : A -> A -> comparison) (a : A) (l : list A) : list A :=
  match l with
  | [] => [a]
  | b :: l' =>
      match cmp a b with
      | Lt => a :: b :: l'
      | Eq => b :: l'
      | Gt => b :: insert_unique cmp a l'
      end
  end.

Definition np_unique {A : Type} (cmp : A -> A -> comparison) (l : list A) : list A :=
  fold_right (insert_unique cmp) [] l.

(** Python's [sorted] on integers. *)
Fixpoint insert_sorted (a : Z) (l : list Z) : list Z :=
  match l with
  | [] => [a]
  | b :: l' => if a <? b then a :: b :: l' else b :: insert_sorted a l'
  end.

Definition py_sorted (l : list Z) : list Z := fold_right insert_sorted [] l.

(** Lexicographic order on rows [x, y], the order of [np.unique(axis=0)]. *)
Definition pixel_compare (p q : pixel) : comparison :=
  match Z.compare (fst p) (fst q) with
  | Eq => Z.compare (snd p) (snd q)
  | c => c
  end.

(** *** ID-map mode *)

(** A decoded image: a 2-D array (one value per pixel) or a 3-D array with
    [channels] values per pixel. *)
Inductive image_array : Type :=
| Gray (rows : list (list Z))
| Multi (channels : nat) (rows : list (list (list Z))).

Definition channel (px : list Z) (k : nat) : Z := nth k px 0.

Definition pack_rgb (px : list Z) : Z :=
  Z.lor (Z.lor (Z.shiftl (channel px 0) 16) (Z.shiftl (channel px 1) 8)) (channel px 2).

Definition load_id_map (arr : image_array) : result (list (list Z)) :=
  match arr with
  | Gray rows => Ok rows
  | Multi channels rows =>
      if (3 <=? channels)%nat then
        if (4 <=? channels)%nat then
          (* ids[alpha == 0] = 0 *)
          Ok (map (map (fun px => if channel px 3 =? 0 then 0 else pack_rgb px)) rows)
        else Ok (map (map pack_rgb) rows)
      else Err (ValueError "Unsupported ID map shape")
  end.

Definition islands_from_id_map (ids : list (list Z)) (background_id : Z)
    : result (list IslandData * Z * Z) :=
  let '(height, width) := shape ids in
  let unique_ids := np_unique Z.compare (concat ids) in
  let unique_ids := filter (fun v => negb (v =? background_id)) unique_ids in
  let islands :=
    flat_map (fun island_id =>
                match where_pixels (Z.eqb island_id) ids with
                | [] => []
                | pixels => [mkIsland (IdInt island_id) pixels None None]
                end)
             (py_sorted unique_ids) in
  Ok (islands, width, height).

(** *** Explicit mode *)

Definition mask_pixels_from_image (mask : list (list Z)) : list pixel :=
  where_pixels (fun v => 0 <? v) mask.

(** A JSON array of rows read as an (N,2) array: no row at all gives a 1-D
    array, a row that is not a pair gives another width or a ragged array;
    each is rejected. *)
Fixpoint rows_to_pairs {A : Type} (rows : list (list A)) : option (list (A * A)) :=
  match rows with
  | [] => Some []
  | [a; b] :: rows' =>
      match rows_to_pairs rows' with
      | Some ps => Some ((a, b) :: ps)
      | None => None
      end
  | _ :: _ => None
  end.

Definition parse_float_points (points : list (list Q)) (label : string) : result (list uv) :=
  match points, rows_to_pairs points with
  | _ :: _, Some ps => Ok ps
  | _, _ => Err (ValueError (label ++ " must be an (N,2) array."))
  end.

Definition parse_int_points (points : list (list Z)) (label : string) : result (list pixel) :=
  if forallb (forallb int64_ok) points then
    match points, rows_to_pairs points with
    | _ :: _, Some ps => Ok ps
    | _, _ => Err (ValueError (label ++ " must be an (N,2) array."))
    end
  else Err OverflowError.

Definition normalize_pixels (pixels : list pixel) (width height : Z) : list pixel :=
  let p :=
    filter (fun q : pixel =>
              (0 <=? fst q) && (fst q <? width) && (0 <=? snd q) && (snd q <? height))
           pixels in
  match p with
  | [] => []
  | _ :: _ => np_unique pixel_compare (map (fun q : pixel => (to_int32 (fst q), to_int32 (snd q))) p)
  end.

(** One island descriptor of the payload: the keys it carries. *)
Record entry_fields : Type := mkEntry {
  e_id : option island_id_t;
  e_pixels : option (list (list Z));
  e_mask : option (list (list Z));      (* the mask file, decoded to mode L *)
  e_uvs : option (list (list Q));
  e_uv_points : option (list (list Q))
}.

Inductive entry_raw : Type :=
| NotADict
| Entry (e : entry_fields).

Definition explicit_entry (idx : nat) (raw : entry_raw) (width height : Z)
    : result (option IslandData) :=
  match raw with
  | NotADict => Ok None
  | Entry entry =>
      let island_id :=
        match e_id entry with
        | Some id => id
        | None => IdInt (Z.of_nat idx + 1)
        end in
      pixels <-
        match e_pixels entry, e_mask entry with
        | Some px, _ => parse_int_points px "islands[].pixels"
        | None, Some mask => Ok (mask_pixels_from_image mask)
        | None, None => Err (ValueError "islands[idx] needs either 'pixels' or 'mask'.")
        end ;;
      let pixels := normalize_pixels pixels width height in
      match pixels with
      | [] => Ok None
      | _ :: _ =>
          pixel_uvs <-
            match e_uvs entry with
            | Some raw_uvs =>
                uvs <- parse_float_points raw_uvs "islands[].uvs" ;;
                if (length uvs =? length pixels)%nat then Ok (Some uvs) else Ok None
            | None => Ok None
            end ;;
          uv_points <-
            match e_uv_points entry with
            | Some raw_pts =>
                pts <- parse_float_points raw_pts "islands[].uv_points" ;;
                Ok (Some pts)
            | None => Ok None
            end ;;
          Ok (Some (mkIsland island_id pixels pixel_uvs uv_points))
      end
  end.

Fixpoint explicit_loop (idx : nat) (islands_raw : list entry_raw) (width height : Z)
    : result (list IslandData) :=
  match islands_raw with
  | [] => Ok []
  | raw :: rest =>
      r <- explicit_entry idx raw width height ;;
      islands <- explicit_loop (S idx) rest width height ;;
      Ok (match r with Some island => island :: islands | None => islands end)
  end.

Fixpoint first_mask (islands_raw : list entry_raw) : option (list (list Z)) :=
  match islands_raw with
  | [] => None
  | Entry e :: rest =>
      match e_mask e with
      | Some m => Some m
      | None => first_mask rest
      end
  | NotADict :: rest => first_mask rest
  end.

(** The JSON payload: each field is the value of the key when it is present
    with the type the source tests for. *)
Record Payload : Type := mkPayload {
  p_id_map : option image_array;         (* "id_map": the decoded file *)
  p_background_id : option Z;
  p_width : option Z;
  p_height : option Z;
  p_islands : option (list entry_raw);
  p_uv_vertices : option (list (list Q));
  p_faces : option (list (list Z));
  p_triangles : option (list (list (list Q)))
}.

Definition islands_from_explicit_payload (payload : Payload)
    : result (list IslandData * Z * Z) :=
  match p_islands payload with
  | None | Some [] => Err (ValueError "payload.islands must be a non-empty list.")
  | Some islands_raw =>
      let dims :=
        match p_width payload, p_height payload with
        | Some w, Some h => Some (w, h)
        | _, _ =>
            match first_mask islands_raw with
            | Some sample_mask =>
                let '(h, w) := shape sample_mask in Some (w, h)
            | None => None
            end
        end in
      match dims with
      | None =>
          Err (ValueError
                "Explicit islands input requires width and height (or at least one mask to infer them).")
      | Some (width, height) =>
          if (width <=? 0) || (height <=? 0)
          then Err (ValueError "width and height must be > 0.")
          else
            islands <- explicit_loop 0 islands_raw width height ;;
            match islands with
            | [] => Err (ValueError "No valid islands were parsed from explicit payload.")
            | _ :: _ => Ok (islands, width, height)
            end
      end
  end.

(** *** Mesh mode: connected components *)

Definition set_visited (visited : list bool) (i : nat) : list bool :=
  update_nth i (fun _ => true) visited.

(** The two nested [for] loops over the neighbours of a popped triangle.
    The stack is kept with its top at the head. *)
Definition visit_neighbours (nbrs : list nat) (stack : list nat) (visited : list bool)
    : list nat * list bool :=
  fold_left (fun (sv : list nat * list bool) (nbr : nat) =>
               if nth nbr (snd sv) false then sv
               else (nbr :: fst sv, set_visited (snd sv) nbr))
            nbrs (stack, visited).

(** [while stack: ...]; every iteration pops one triangle, and a triangle is
    pushed at most once, so a fuel of the number of triangles is never
    exhausted (see [dfs_component_fuel]). *)
Fixpoint dfs_component (fuel : nat) (adj : nat -> list nat)
    (stack : list nat) (visited : list bool) (comp : list nat) : list nat * list bool :=
  match fuel, stack with
  | S fuel', tri_idx :: stack' =>
      let '(stack'', visited') := visit_neighbours (adj tri_idx) stack' visited in
      dfs_component fuel' adj stack'' visited' (comp ++ [tri_idx])
  | _, _ => (comp, visited)
  end.

Fixpoint components_loop (n : nat) (adj : nat -> list nat)
    (starts : list nat) (visited : list bool) : list (list nat) :=
  match starts with
  | [] => []
  | start :: rest =>
      if nth start visited false then components_loop n adj rest visited
      else
        let '(comp, visited') := dfs_component n adj [start] (set_visited visited start) [] in
        match comp with
        | [] => components_loop n adj rest visited'
        | _ :: _ => comp :: components_loop n adj rest visited'
        end
  end.

Definition connected_components (n : nat) (adj : nat -> list nat) : list (list nat) :=
  components_loop n adj (seq 0 n) (repeat false n).

(** [triangles_by_vertex[key]]: the triangles having [key] among their
    corners, one entry per occurrence, in the order they were appended. *)
Definition triangles_by_key {K : Type} (eqb : K -> K -> bool)
    (corners : list (list K)) (key : K) : list nat :=
  flat_map (fun ic : nat * list K =>
              flat_map (fun k => if eqb k key then [fst ic] else []) (snd ic))
           (combine (seq 0 (length corners)) corners).

Definition adjacency {K : Type} (eqb : K -> K -> bool)
    (corners : list (list K)) (tri_idx : nat) : list nat :=
  flat_map (triangles_by_key eqb corners) (nth tri_idx corners []).

Definition connected_components_from_faces (faces : list (Z * Z * Z)) : list (list nat) :=
  let corners := map (fun f : Z * Z * Z => let '(a, b, c) := f in [a; b; c]) faces in
  connected_components (length faces) (adjacency Z.eqb corners).

Definition triangle : Type := (uv * uv * uv)%type.

Definition quantized_uv_key (u v : Q) : Z * Z :=
  (np_round (u / 1e-6), np_round (v / 1e-6))%Q.

Definition key_eqb (a b : Z * Z) : bool := (fst a =? fst b) && (snd a =? snd b).

Definition connected_components_from_raw_triangles (triangles_uv : list triangle)
    : list (list nat) :=
  let corners :=
    map (fun t : triangle =>
           let '(p0, p1, p2) := t in
           [quantized_uv_key (fst p0) (snd p0);
            quantized_uv_key (fst p1) (snd p1);
            quantized_uv_key (fst p2) (snd p2)]) triangles_uv in
  connected_components (length triangles_uv) (adjacency key_eqb corners).

(** *** Mesh mode: rasterization *)

Definition uv_to_px1 (p : uv) (width height : Z) : uv :=
  (np_clip (fst p) 0 1 * inject_Z (Z.max 1 (width - 1)),
   (1.0 - np_clip (snd p) 0 1) * inject_Z (Z.max 1 (height - 1)))%Q.

Definition uv_to_px (tri : triangle) (width height : Z) : triangle :=
  let '(p0, p1, p2) := tri in
  (uv_to_px1 p0 width height, uv_to_px1 p1 width height, uv_to_px1 p2 width height).

(** The barycentric mask of the triangle at the cell centre (gx, gy). *)
Definition covers (tri_px : triangle) (den : Q) (gx gy : Z) : bool :=
  let '((x0, y0), (x1, y1), (x2, y2)) := tri_px in
  let gx := inject_Z gx in
  let gy := inject_Z gy in
  let w0 := (((y1 - y2) * (gx - x2) + (x2 - x1) * (gy - y2)) / den)%Q in
  let w1 := (((y2 - y0) * (gx - x2) + (x0 - x2) * (gy - y2)) / den)%Q in
  let w2 := (1.0 - w0 - w1)%Q in
  Qle_bool (- 1e-6) w0 && Qle_bool (- 1e-6) w1 && Qle_bool (- 1e-6) w2.

(** [np.arange(lo, hi + 1)]. *)
Definition arange (lo hi : Z) : list Z :=
  map (fun i => lo + Z.of_nat i) (seq 0 (Z.to_nat (hi + 1 - lo))).

(** The masked write into the window [min_y..max_y] x [min_x..max_x]:
    [sub[mask & (sub == background_id)] = island_id]. *)
Definition paint_window (id_map : list (list Z)) (min_x max_x min_y max_y : Z)
    (mask : Z -> Z -> bool) (island_id background_id : Z) : list (list Z) :=
  map (fun yr : Z * list Z =>
         map (fun xc : Z * Z =>
                if (min_y <=? fst yr) && (fst yr <=? max_y)
                   && (min_x <=? fst xc) && (fst xc <=? max_x)
                   && mask (fst xc) (fst yr) && (snd xc =? background_id)
                then island_id else snd xc)
             (enumerate_from 0 (snd yr)))
      (enumerate_from 0 id_map).

Definition rasterize_triangle_into_map (id_map : list (list Z)) (tri_px : triangle)
    (island_id background_id : Z) : list (list Z) :=
  let '((x0, y0), (x1, y1), (x2, y2)) := tri_px in
  let '(rows, cols) := shape id_map in
  let min_x := Z.max 0 (Qfloor (py_min3 x0 x1 x2)) in
  let max_x := Z.min (cols - 1) (Qceiling (py_max3 x0 x1 x2)) in
  let min_y := Z.max 0 (Qfloor (py_min3 y0 y1 y2)) in
  let max_y := Z.min (rows - 1) (Qceiling (py_max3 y0 y1 y2)) in
  if (max_x <? min_x) || (max_y <? min_y) then id_map
  else
    let den := ((y1 - y2) * (x0 - x2) + (x2 - x1) * (y0 - y2))%Q in
    if Qltb (Qabs den) 1e-12 then id_map
    else
      let mask := covers tri_px den in
      if negb (existsb (fun gy => existsb (fun gx => mask gx gy) (arange min_x max_x))
                       (arange min_y max_y))
      then id_map
      else paint_window id_map min_x max_x min_y max_y mask island_id background_id.

(** *** Mesh mode: the resolver *)

Fixpoint rows_to_triples {A : Type} (rows : list (list A)) : option (list (A * A * A)) :=
  match rows with
  | [] => Some []
  | [a; b; c] :: rows' =>
      match rows_to_triples rows' with
      | Some ts => Some ((a, b, c) :: ts)
      | None => None
      end
  | _ :: _ => None
  end.

Definition parse_triangle (t : list (list Q)) : option triangle :=
  match t with
  | [[u0; v0]; [u1; v1]; [u2; v2]] => Some ((u0, v0), (u1, v1), (u2, v2))
  | _ => None
  end.

Fixpoint parse_triangles (ts : list (list (list Q))) : option (list triangle) :=
  match ts with
  | [] => Some []
  | t :: ts' =>
      match parse_triangle t, parse_triangles ts' with
      | Some a, Some b => Some (a :: b)
      | _, _ => None
      end
  end.

(** [while next_island_id == background_id: next_island_id += 1]. *)
Fixpoint skip_background (fuel : nat) (next_island_id background_id : Z) : Z :=
  match fuel with
  | O => next_island_id
  | S fuel' =>
      if next_island_id =? background_id
      then skip_background fuel' (next_island_id + 1) background_id
      else next_island_id
  end.

Record mesh_state : Type := mkMeshState {
  m_id_map : list (list Z);
  m_next_island_id : Z;
  m_islands : list IslandData
}.

(** [triangles_uv[tri_indices]]. *)
Fixpoint take_triangles (triangles_uv : list triangle) (comp : list nat)
    : result (list triangle) :=
  match comp with
  | [] => Ok []
  | i :: comp' =>
      match nth_error triangles_uv i with
      | Some t => ts <- take_triangles triangles_uv comp' ;; Ok (t :: ts)
      | None => Err IndexError
      end
  end.

Definition triangle_corners (t : triangle) : list uv :=
  let '(p0, p1, p2) := t in [p0; p1; p2].

(** The id a component receives, given the counter before it. *)
Definition component_island_id (next_island_id background_id : Z) : Z :=
  skip_background 2 next_island_id background_id.

(** One iteration of the loop over the components. *)
Definition mesh_component (width height background_id : Z) (triangles_uv : list triangle)
    (st : mesh_state) (comp : list nat) : result mesh_state :=
  comp_tris <- take_triangles triangles_uv comp ;;
  let island_id := component_island_id (m_next_island_id st) background_id in
  let next_island_id := island_id + 1 in
  let id_map :=
    fold_left (fun m tri_uv =>
                 rasterize_triangle_into_map m (uv_to_px tri_uv width height)
                                             island_id background_id)
              comp_tris (m_id_map st) in
  match where_pixels (Z.eqb island_id) id_map with
  | [] => Ok (mkMeshState id_map next_island_id (m_islands st))
  | pixels =>
      let uv_points := flat_map triangle_corners comp_tris in
      Ok (mkMeshState id_map next_island_id
            (m_islands st ++ [mkIsland (IdInt island_id) pixels None (Some uv_points)]))
  end.

Fixpoint mesh_loop (width height background_id : Z) (triangles_uv : list triangle)
    (st : mesh_state) (components : list (list nat)) : result mesh_state :=
  match components with
  | [] => Ok st
  | comp :: rest =>
      st' <- mesh_component width height background_id triangles_uv st comp ;;
      mesh_loop width height background_id triangles_uv st' rest
  end.

(** The part of [islands_from_mesh_payload] after validation: the loop over
    the components on a fresh raster, and the final emptiness test. *)
Definition islands_from_components (width height background_id : Z)
    (triangles_uv : list triangle) (components : list (list nat))
    : result (list IslandData * Z * Z) :=
  if int64_ok background_id then
    let id_map := repeat (repeat background_id (Z.to_nat width)) (Z.to_nat height) in
    st <- mesh_loop width height background_id triangles_uv
            (mkMeshState id_map 1 []) components ;;
    match m_islands st with
    | [] => Err (ValueError "No islands were detected/rasterized from mesh payload.")
    | islands => Ok (islands, width, height)
    end
  else Err OverflowError.

Definition opt_default {A : Type} (o : option A) (d : A) : A :=
  match o with Some a => a | None => d end.

Definition islands_from_mesh_payload (payload : Payload)
    : result (list IslandData * Z * Z) :=
  let width := opt_default (p_width payload) 0 in
  let height := opt_default (p_height payload) 0 in
  if (width <=? 0) || (height <=? 0)
  then Err (ValueError "Mesh input requires positive width and height.")
  else
    let background_id := opt_default (p_background_id payload) 0 in
    match p_uv_vertices payload, p_faces payload, p_triangles payload with
    | Some uv_vertices, Some faces, _ =>
        uv_vertices_arr <- parse_float_points uv_vertices "uv_vertices" ;;
        if negb (forallb (forallb int64_ok) faces) then Err OverflowError
        else
          match faces, rows_to_triples faces with
          | _ :: _, Some faces_arr =>
              let n := Z.of_nat (length uv_vertices_arr) in
              let in_range (i : Z) := (0 <=? i) && (i <? n) in
              if forallb (fun f : Z * Z * Z =>
                            let '(a, b, c) := f in in_range a && in_range b && in_range c)
                         faces_arr
              then
                let vertex (i : Z) := nth (Z.to_nat i) uv_vertices_arr (0, 0)%Q in
                let triangles_uv :=
                  map (fun f : Z * Z * Z =>
                         let '(a, b, c) := f in (vertex a, vertex b, vertex c)) faces_arr in
                let components := connected_components_from_faces faces_arr in
                islands_from_components width height background_id triangles_uv components
              else Err (ValueError "faces contain out-of-range UV vertex indices.")
          | _, _ => Err (ValueError "faces must be an (M,3) array.")
          end
    | _, _, Some triangles =>
        match triangles, parse_triangles triangles with
        | _ :: _, Some triangles_uv =>
            let components := connected_components_from_raw_triangles triangles_uv in
            islands_from_components width height background_id triangles_uv components
        | _, _ => Err (ValueError "triangles must be an (M,3,2) array.")
        end
    | _, _, None =>
        Err (ValueError "Mesh payload needs either (uv_vertices + faces) or triangles.")
    end.

(** *** Input-mode dispatch *)

Definition load_islands (payload : Payload) (cli_id_map : option image_array)
    (background_id_override : option Z) : result (list IslandData * Z * Z) :=
  let background_id :=
    match background_id_override with
    | Some b => b
    | None => opt_default (p_background_id payload) 0
    end in
  let id_map_path :=
    match cli_id_map with
    | Some img => Some img
    | None => p_id_map payload
    end in
  match id_map_path with
  | Some img =>
      ids <- load_id_map img ;;
      islands_from_id_map ids background_id
  | None =>
      match p_islands payload with
      | Some _ => islands_from_explicit_payload payload
      | None =>
          match p_uv_vertices payload, p_triangles payload with
          | None, None =>
              Err (ValueError
                    "Could not determine input mode. Provide id_map, islands, or mesh UV data (uv_vertices/faces or triangles).")
          | _, _ => islands_from_mesh_payload payload
          end
      end
  end.

(** ** The pipeline *)

(** The command line, with the files it names already decoded. *)
Record Args : Type := mkArgs {
  a_input : option Payload;
  a_id_map : option image_array;
  a_background_id : option Z;
  a_opaque_bg : bool
}.

Definition empty_payload : Payload :=
  mkPayload None None None None None None None None.

Section Pipeline.

Variable eigh : mat2 -> option (Q * Q * mat2).
Variable vec_norm : uv -> Q.

(** [main], up to the encoding of the raster it hands to the PNG writer. *)
Definition main (args : Args) : result (list (list rgba_t)) :=
  let payload := opt_default (a_input args) empty_payload in
  '(islands, width, height) <-
    load_islands payload (a_id_map args) (a_background_id args) ;;
  render_island_gradients eigh vec_norm width height islands (negb (a_opaque_bg args)).

End Pipeline.

(** ** IEEE binary64 evaluation

    The exact arithmetic above idealises the code's floating point.  Where
    the two part (a remainder that rounds up to its modulus, an overflow to
    infinity) the functions concerned are given again over Rocq's primitive
    binary64 floats, operation for operation, so that the code can be
    evaluated at a concrete input. *)

Module F64.

Import PrimFloat SpecFloat FloatOps.

(** C's [fmod]: the remainder of the division truncated towards zero.  It
    is exact, carries the sign of [x], and is NaN for an infinite [x] or a
    zero [y]. *)
Definition fmod (x y : float) : float :=
  match Prim2SF x, Prim2SF y with
  | S754_nan, _ | _, S754_nan => nan
  | S754_infinity _, _ => nan
  | _, S754_zero _ => nan
  | S754_zero _, _ => x
  | S754_finite _ _ _, S754_infinity _ => x
  | S754_finite sx mx ex, S754_finite _ my ey =>
      let e := Z.min ex ey in
      let X := Z.pos mx * 2 ^ (ex - e) in
      let Y := Z.pos my * 2 ^ (ey - e) in
      match X mod Y with
      | Z.pos r => SF2Prim (S754_finite sx r e)
      | _ => if sx then neg_zero else zero
      end
  end.

(** [a % b] on binary64, for NumPy arrays and scalars as for Python floats:
    [fmod], moved by [b] when its sign differs from that of [b]; the
    addition rounds. *)
Definition np_remainder (a b : float) : float :=
  let m := fmod a b in
  if eqb b zero then m
  else if eqb m zero then (if ltb b zero then neg_zero else zero)
  else if Bool.eqb (ltb b zero) (ltb m zero) then m
  else add m b.

Definition EPS : float := 0x1.5798ee2308c3ap-27.   (* 1e-8 *)

(** Python's [max(a, b)]. *)
Definition py_max (a b : float) : float := if ltb a b then b else a.

(** [np.minimum] and [np.maximum]: a NaN operand is the result. *)
Definition np_minimum (a b : float) : float := if is_nan a || ltb a b then a else b.
Definition np_maximum (a b : float) : float := if is_nan a || ltb b a then a else b.

Definition np_min (xs : list float) : result float :=
  match xs with
  | [] => Err (ValueError "zero-size array to reduction operation minimum which has no identity")
  | x :: xs' => Ok (fold_left np_minimum xs' x)
  end.

Definition np_max (xs : list float) : result float :=
  match xs with
  | [] => Err (ValueError "zero-size array to reduction operation maximum which has no identity")
  | x :: xs' => Ok (fold_left np_maximum xs' x)
  end.

Definition np_clip (x lo hi : float) : float := np_minimum (np_maximum x lo) hi.

Definition clamp01_array (arr : list float) : list float :=
  map (fun x => np_clip x 0 1) arr.

Definition normalize_local_uv (uvs : list (float * float)) (eps : float)
    : result (list (float * float) * float * float) :=
  let u := map fst uvs in
  let v := map snd uvs in
  min_u <- np_min u ;;
  max_u <- np_max u ;;
  min_v <- np_min v ;;
  max_v <- np_max v ;;
  let span_u := sub max_u min_u in
  let span_v := sub max_v min_v in
  Ok (map (fun p : float * float =>
             (div (sub (fst p) min_u) (py_max eps span_u),
              div (sub (snd p) min_v) (py_max eps span_v))) uvs,
      span_u, span_v).

Definition fallback_t_from_bbox (pixel_uvs : list (float * float)) (eps : float)
    : result (list float) :=
  '(local_uv, span_u, span_v) <- normalize_local_uv pixel_uvs eps ;;
  if ltb span_u eps && ltb span_v eps
  then Ok (repeat 0.5%float (length pixel_uvs))
  else if leb span_v span_u
       then Ok (map fst local_uv)
       else Ok (map snd local_uv).


(** One row of [lerp_hsv]. *)
Definition lerp_hsv1 (left_hsv right_hsv : float * float * float) (t : float)
    : float * float * float :=
  let '(h0, s0, v0) := left_hsv in
  let '(h1, s1, v1) := right_hsv in
  let dh := sub (np_remainder (add (sub h1 h0) 180) 360) 180 in
  (np_remainder (add h0 (mul dh t)) 360,
   add s0 (mul (sub s1 s0) t),
   add v0 (mul (sub v1 v0) t)).

End F64.

(** * Specification vocabulary *)

(** A parameter value in [0,1]. *)
Definition in_unit_interval (t : Q) : Prop := (0 <= t)%Q /\ (t <= 1)%Q.



(** [r] is [x] clamped into [lo, hi]. *)
Definition clamped_to (lo hi x r : Q) : Prop :=
  ((x < lo)%Q /\ (r == lo)%Q) \/
  ((lo <= x)%Q /\ (x <= hi)%Q /\ (r == x)%Q) \/
  ((hi < x)%Q /\ (r == hi)%Q).

(** [stop] is the base stop moved by the three offsets: the hue shifted,
    the saturation and the value shifted and clamped into the gamut. *)
Definition jittered (base : hsv_t) (hue_offset sat_offset val_offset : Q) (stop : hsv_t)
    : Prop :=
  let '(h, s, v) := base in
  let '(h', s', v') := stop in
  (h' == h + hue_offset)%Q /\
  clamped_to 0.55 0.75 (s + sat_offset) s' /\
  clamped_to 0.85 0.95 (v + val_offset) v'.




(** A palette stop: hue in [0,360), saturation in [0.55,0.75], value in
    [0.85,0.95]. *)
Definition stop_in_gamut (c : hsv_t) : Prop :=
  let '(h, s, v) := c in
  (0 <= h)%Q /\ (h < 360)%Q /\ (0.55 <= s)%Q /\ (s <= 0.75)%Q /\ (0.85 <= v)%Q /\ (v <= 0.95)%Q.

(** The strict order of a three-way comparison. *)
Definition cmp_lt {A : Type} (cmp : A -> A -> comparison) (a b : A) : Prop :=
  cmp a b = Lt.

(** A cell of a 2-D array, [None] outside it. *)
Definition cell_at {A : Type} (arr : list (list A)) (x y : nat) : option A :=
  match nth_error arr y with
  | Some row => nth_error row x
  | None => None
  end.

(** Every row has the length of the first one, as in a NumPy array. *)
Definition rectangular {A : Type} (arr : list (list A)) : Prop :=
  forall row, In row arr -> length row = length (hd [] arr).

(** A pixel within [0,width) x [0,height). *)
Definition in_canvas (width height : Z) (p : pixel) : Prop :=
  0 <= fst p < width /\ 0 <= snd p < height.

(** Unique pixel coordinates, all on the canvas. *)
Definition island_wf (width height : Z) (island : IslandData) : Prop :=
  NoDup (pixels island) /\ Forall (in_canvas width height) (pixels island).

(** Two islands without a common pixel. *)
Definition disjoint_islands (a b : IslandData) : Prop :=
  forall p, In p (pixels a) -> ~ In p (pixels b).

(** No pixel belongs to two islands of the list. *)
Definition pairwise_disjoint (islands : list IslandData) : Prop :=
  ForallOrdPairs disjoint_islands islands.

(** The pixel coordinates a descriptor supplies, before normalisation. *)
Definition entry_source (entry : entry_fields) : result (list pixel) :=
  match e_pixels entry, e_mask entry with
  | Some px, _ => parse_int_points px "islands[].pixels"
  | None, Some mask => Ok (mask_pixels_from_image mask)
  | None, None => Err (ValueError "islands[idx] needs either 'pixels' or 'mask'.")
  end.

(** The same as a plain list: nothing for an entry that is skipped or
    rejected. *)
Definition entry_source_pixels (raw : entry_raw) : list pixel :=
  match raw with
  | NotADict => []
  | Entry entry =>
      match entry_source entry with
      | Ok px => px
      | Err _ => []
      end
  end.

(** Two descriptors that name no common canvas pixel. *)
Definition disjoint_sources (width height : Z) (a b : entry_raw) : Prop :=
  forall p, in_canvas width height p ->
            In p (entry_source_pixels a) -> ~ In p (entry_source_pixels b).

(** A [rows] x [cols] array. *)
Definition has_shape {A : Type} (arr : list (list A)) (rows cols : nat) : Prop :=
  length arr = rows /\ Forall (fun row => length row = cols) arr.

(** The inner loop of [mesh_component]: every triangle of a component
    rasterized in turn. *)
Definition rasterize_all (width height island_id background_id : Z)
    (comp_tris : list triangle) (id_map : list (list Z)) : list (list Z) :=
  fold_left (fun m tri_uv =>
               rasterize_triangle_into_map m (uv_to_px tri_uv width height)
                                           island_id background_id)
            comp_tris id_map.

(** The id of the component at 0-based position [k]. *)
Definition expected_island_id (background_id k : Z) : Z :=
  if (1 <=? background_id) && (background_id <=? k + 1) then k + 2 else k + 1.

(** The counter after [k] components. *)
Definition expected_next (background_id k : Z) : Z :=
  if (1 <=? background_id) && (background_id <=? k) then k + 2 else k + 1.

(** An island recorded by the mesh loop owns the cells that hold its id. *)
Definition owns_cells (background_id : Z) (st : mesh_state) (island : IslandData) : Prop :=
  exists id : Z,
    island_id island = IdInt id /\ id <> background_id /\ id < m_next_island_id st /\
    forall p, In p (pixels island) ->
              exists x y : nat,
                p = (to_int32 (Z.of_nat x), to_int32 (Z.of_nat y)) /\
                cell_at (m_id_map st) x y = Some id.

(** The invariant of the loop over the components. *)
Definition mesh_inv (rows cols : nat) (background_id : Z) (st : mesh_state) : Prop :=
  has_shape (m_id_map st) rows cols /\
  Forall (island_wf (Z.of_nat cols) (Z.of_nat rows)) (m_islands st) /\
  pairwise_disjoint (m_islands st) /\
  Forall (owns_cells background_id st) (m_islands st).

(** What a successful mesh resolution amounts to: the loop over some
    component list on a canvas of the returned, positive, size. *)
Definition mesh_resolved (islands : list IslandData) (width height : Z) : Prop :=
  0 < width /\ 0 < height /\
  exists background_id triangles_uv components,
    islands_from_components width height background_id triangles_uv components
    = Ok (islands, width, height).

(** Two triangles without a common corner, hence two components, that both
    cover the cell (1, 1) of a 3x3 canvas. *)
Definition overlapping_mesh : Payload :=
  mkPayload None None (Some 3) (Some 3) None None None
            (Some [ [[0; 0]; [1; 0]; [0; 1]]; [[1; 1]; [0.9; 0]; [0; 0.9]] ]%Q).

(** What the resolver makes of them: the first component keeps (1, 1). *)
Definition overlapping_mesh_islands : list IslandData :=
  [ mkIsland (IdInt 1) [(0, 0); (0, 1); (1, 1); (0, 2); (1, 2); (2, 2)] None
             (Some [(0, 0); (1, 0); (0, 1)]%Q);
    mkIsland (IdInt 2) [(2, 0)] None (Some [(1, 1); (0.9, 0); (0, 0.9)]%Q) ].

(** A decoded image is a rectangular array. *)
Definition image_rectangular (img : image_array) : Prop :=
  match img with
  | Gray rows => rectangular rows
  | Multi _ rows => rectangular rows
  end.

(** The ID map [load_islands] reads, if any: the command-line one first. *)
Definition selected_id_map (payload : Payload) (cli_id_map : option image_array)
    : option image_array :=
  match cli_id_map with
  | Some img => Some img
  | None => p_id_map payload
  end.

(** Two descriptors that both list the pixel (0, 0). *)
Definition overlapping_descriptors : Payload :=
  mkPayload None None (Some 1) (Some 1)
            (Some [ Entry (mkEntry (Some (IdStr "a")) (Some [[0; 0]]) None None None);
                    Entry (mkEntry (Some (IdStr "b")) (Some [[0; 0]]) None None None) ])
            None None None.

(** The axis-fitting points of a descriptor, parsed. *)
Definition entry_uv_points (entry : entry_fields) : result (option (list uv)) :=
  match e_uv_points entry with
  | Some raw_pts =>
      pts <- parse_float_points raw_pts "islands[].uv_points" ;;
      Ok (Some pts)
  | None => Ok None
  end.

(** The number of triangles not yet visited. *)
Definition unvisited (visited : list bool) : nat := length (filter negb visited).

(** ** Vocabulary of the further properties *)

(** Whether the cell (x, y) is among the pixels of a scatter write. *)
Definition pixel_mem (x y : nat) (pixels : list pixel) : bool :=
  existsb (fun q : pixel => (fst q =? Z.of_nat x) && (snd q =? Z.of_nat y)) pixels.

(** The colour a scatter write of [rgb] at [pixels] leaves in the cell
    (x, y): that of the last index pair naming the cell, if any. *)
Fixpoint last_rgb (x y : nat) (pixels : list pixel) (rgb : list rgb_t) : option rgb_t :=
  match pixels, rgb with
  | q :: pixels', c :: rgb' =>
      match last_rgb x y pixels' rgb' with
      | Some c' => Some c'
      | None => if (fst q =? Z.of_nat x) && (snd q =? Z.of_nat y) then Some c else None
      end
  | _, _ => None
  end.

(** The raster the compositor starts from. *)
Definition blank_raster (width height : Z) (transparent_background : bool)
    : list (list rgba_t) :=
  repeat (repeat (0, 0, 0, if transparent_background then 0 else 255) (Z.to_nat width))
         (Z.to_nat height).

(** Every pixel of every island lies on the canvas. *)
Definition islands_in_canvas (width height : Z) (islands : list IslandData) : Prop :=
  Forall (fun island => Forall (in_canvas width height) (pixels island)) islands.

(** Whether some island of the list names the cell (x, y). *)
Definition covered (x y : nat) (islands : list IslandData) : bool :=
  existsb (fun island => pixel_mem x y (pixels island)) islands.

(** [b] can be reached from [a] along the adjacency lists. *)
Inductive reach (adj : nat -> list nat) (a : nat) : nat -> Prop :=
| reach_refl : reach adj a a
| reach_step (b c : nat) : reach adj a b -> In c (adj b) -> reach adj a c.

(** The visited flag of a triangle. *)
Definition is_visited (visited : list bool) (i : nat) : Prop := nth i visited false = true.

(** The invariant of the [while] loop of the traversal started at [start]
    with the flags [visited0]: stack and component hold distinct triangles,
    none flagged before, all reachable from the start; the flags are those
    of before plus stack and component; the neighbours of a triangle of the
    component are flagged. *)
Definition dfs_inv (adj : nat -> list nat) (start : nat) (visited0 : list bool)
    (stack : list nat) (visited : list bool) (comp : list nat) : Prop :=
  length visited = length visited0 /\
  NoDup (stack ++ comp) /\
  (forall i, is_visited visited i <-> is_visited visited0 i \/ In i stack \/ In i comp) /\
  (forall i, In i (stack ++ comp) -> ~ is_visited visited0 i) /\
  (forall a b, In a comp -> In b (adj a) -> is_visited visited b) /\
  (forall i, In i (stack ++ comp) -> reach adj start i).

(** The flagged triangles are closed under adjacency. *)
Definition closed_flags (adj : nat -> list nat) (visited : list bool) : Prop :=
  forall a b, is_visited visited a -> In b (adj a) -> is_visited visited b.

(** What the traversal promises of one component. *)
Definition component_ok (adj : nat -> list nat) (comp : list nat) : Prop :=
  comp <> [] /\
  (forall a b, In a comp -> In b (adj a) -> In b comp) /\
  (forall b, In b comp -> reach adj (hd 0%nat comp) b).

(** A chain of [R]-steps from [a]. *)
Inductive chain (R : nat -> nat -> Prop) (a : nat) : nat -> Prop :=
| chain_refl : chain R a a
| chain_step (b c : nat) : chain R a b -> R b c -> chain R a c.

(** The vertex indices of the face at position [i] (none outside the list). *)
Definition face_vertices (faces : list (Z * Z * Z)) (i : nat) : list Z :=
  nth i (map (fun f : Z * Z * Z => let '(a, b, c) := f in [a; b; c]) faces) [].

(** Two faces of the list with a common vertex index. *)
Definition share_vertex (faces : list (Z * Z * Z)) (a b : nat) : Prop :=
  (a < length faces)%nat /\ (b < length faces)%nat /\
  exists v, In v (face_vertices faces a) /\ In v (face_vertices faces b).

(** The quantized corners of the raw triangle at position [i]. *)
Definition triangle_keys (triangles_uv : list triangle) (i : nat) : list (Z * Z) :=
  nth i (map (fun t : triangle =>
                let '(p0, p1, p2) := t in
                [quantized_uv_key (fst p0) (snd p0);
                 quantized_uv_key (fst p1) (snd p1);
                 quantized_uv_key (fst p2) (snd p2)]) triangles_uv) [].

(** Two raw triangles with a corner of the same quantized key. *)
Definition share_corner (triangles_uv : list triangle) (a b : nat) : Prop :=
  (a < length triangles_uv)%nat /\ (b < length triangles_uv)%nat /\
  exists k, In k (triangle_keys triangles_uv a) /\ In k (triangle_keys triangles_uv b).

(** Two positions in one component of the list. *)
Definition same_component (comps : list (list nat)) (a b : nat) : Prop :=
  exists c, In c comps /\ In a c /\ In b c.


(** The id of the descriptor at 0-based position [k]: its [id] key, or the
    1-based position. *)
Definition descriptor_id (k : nat) (entry : entry_fields) : island_id_t :=
  match e_id entry with
  | Some id => id
  | None => IdInt (Z.of_nat k + 1)
  end.

(** The island a descriptor at position [k] contributes. *)
Definition island_of_descriptor (islands_raw : list entry_raw) (width height : Z)
    (k : nat) (island : IslandData) : Prop :=
  exists entry,
    nth_error islands_raw k = Some (Entry entry) /\
    island_id island = descriptor_id k entry /\
    pixels island = normalize_pixels (entry_source_pixels (Entry entry)) width height /\
    pixels island <> [].

(** Component lists that index into [n] triangles, none of them empty. *)
Definition components_in_range (n : nat) (comps : list (list nat)) : Prop :=
  Forall (fun c => c <> [] /\ Forall (fun i => (i < n)%nat) c) comps.
















(** * Properties *)

(** ** The digest *)

(** The RFC 7693 test vector (appendix A) and the short and multi-block
    digests the palette engine relies on. *)
Example blake2b_512_abc :
  Blake2b.hexdigest (Blake2b.blake2b 64 (list_byte_of_string "abc")) =
  ("ba80a53f981c4d0d6a2797b69f12f6e94c212f14685ac4b74b12bb6fdbffa2d1" ++
   "7d87c5392aab792dc252d5de4533cc9518d38aa8dbf1925ab92386edd4009923")%string.
Proof. vm_compute. reflexivity. Qed.

Example blake2b_8_digit5 :
  Blake2b.hexdigest (Blake2b.blake2b 8 (list_byte_of_string "5")) = "8b54089fee8d99a0"%string.
Proof. vm_compute. reflexivity. Qed.

Example blake2b_8_three_blocks :
  Blake2b.hexdigest (Blake2b.blake2b 8 (repeat "a"%byte 300)) = "8b397aa4c75429a2"%string.
Proof. vm_compute. reflexivity. Qed.

Example blake2b_8_full_block :
  Blake2b.hexdigest (Blake2b.blake2b 8 (repeat "a"%byte 128)) = "f06643fe9c7e18da"%string.
Proof. vm_compute. reflexivity. Qed.


(** ** Comparisons and remainders on rationals *)

Lemma Qltb_true (a b : Q) : Qltb a b = true <-> (a < b)%Q.
Proof.
  unfold Qltb. rewrite negb_true_iff. split; intro H.
  - apply Qnot_le_lt. intro Hle. apply Qle_bool_iff in Hle. congruence.
  - destruct (Qle_bool b a) eqn:E; [|reflexivity].
    apply Qle_bool_iff in E. exfalso. apply (Qlt_not_le _ _ H E).
Qed.

Lemma Qltb_false (a b : Q) : Qltb a b = false <-> (b <= a)%Q.
Proof.
  unfold Qltb. rewrite negb_false_iff. apply Qle_bool_iff.
Qed.

Lemma Qle_bool_false (a b : Q) : Qle_bool a b = false <-> (b < a)%Q.
Proof.
  split; intro H.
  - apply Qnot_le_lt. intro Hle. apply Qle_bool_iff in Hle. congruence.
  - destruct (Qle_bool a b) eqn:E; [|reflexivity].
    apply Qle_bool_iff in E. exfalso. apply (Qlt_not_le _ _ H E).
Qed.

Ltac qbool :=
  repeat match goal with
    | H : Qltb _ _ = true |- _ => apply Qltb_true in H
    | H : Qltb _ _ = false |- _ => apply Qltb_false in H
    | H : Qle_bool _ _ = true |- _ => apply Qle_bool_iff in H
    | H : Qle_bool _ _ = false |- _ => apply Qle_bool_false in H
    end.

Lemma Qfloor_unique (q : Q) (k : Z) :
  (inject_Z k <= q)%Q -> (q < inject_Z (k + 1))%Q -> Qfloor q = k.
Proof.
  intros Hlo Hhi.
  pose proof (Qfloor_le q) as Hf.
  pose proof (Qlt_floor q) as Hc.
  assert (H1 : (inject_Z (Qfloor q) < inject_Z (k + 1))%Q) by (eapply Qle_lt_trans; eauto).
  assert (H2 : (inject_Z k < inject_Z (Qfloor q + 1))%Q) by (eapply Qle_lt_trans; eauto).
  rewrite <- Zlt_Qlt in H1, H2. lia.
Qed.

Lemma py_fmod_eq (x m : Q) (k : Z) :
  (0 < m)%Q -> (0 <= x - m * inject_Z k)%Q -> (x - m * inject_Z k < m)%Q ->
  (py_fmod x m == x - m * inject_Z k)%Q.
Proof.
  intros Hm Hlo Hhi. unfold py_fmod.
  assert (Hk : Qfloor (x / m) = k).
  { apply Qfloor_unique.
    - apply Qle_shift_div_l; [exact Hm|]. lra.
    - apply Qlt_shift_div_r; [exact Hm|]. rewrite inject_Z_plus. 
      change (inject_Z 1) with 1%Q. lra. }
  rewrite Hk. reflexivity.
Qed.

Lemma py_fmod_range (x m : Q) :
  (0 < m)%Q -> (0 <= py_fmod x m)%Q /\ (py_fmod x m < m)%Q.
Proof.
  intro Hm. unfold py_fmod.
  pose proof (Qfloor_le (x / m)) as Hf.
  pose proof (Qlt_floor (x / m)) as Hc.
  rewrite inject_Z_plus in Hc. change (inject_Z 1) with 1%Q in Hc.
  set (k := inject_Z (Qfloor (x / m))) in *.
  assert (Hx : (x == (x / m) * m)%Q) by (field; lra).
  assert (H1 : (k * m <= (x / m) * m)%Q) by (apply Qmult_le_compat_r; lra).
  assert (H2 : ((x / m) * m < (k + 1) * m)%Q) by (apply Qmult_lt_compat_r; lra).
  split; lra.
Qed.


Lemma np_clip_range (x lo hi : Q) :
  (lo <= hi)%Q -> (lo <= np_clip x lo hi)%Q /\ (np_clip x lo hi <= hi)%Q.
Proof.
  intro H. unfold np_clip.
  destruct (Qltb x lo) eqn:E1; [qbool; split; lra|].
  destruct (Qltb hi x) eqn:E2; qbool; split; lra.
Qed.


Lemma clamp_range (value lo hi : Q) :
  (lo <= hi)%Q -> (lo <= clamp value lo hi)%Q /\ (clamp value lo hi <= hi)%Q.
Proof.
  intro H. unfold clamp, py_max, py_min.
  destruct (Qltb value hi) eqn:E1;
    [destruct (Qltb lo value) eqn:E2 | destruct (Qltb lo hi) eqn:E2];
    qbool; split; lra.
Qed.

(** ** Hue interpolation *)








Section HueInBinary64.

Import PrimFloat.


End HueInBinary64.

(** ** Palette derivation *)

Lemma absorb_length (fuel : nat) (h : list Z) (data : list byte) (t : Z) :
  length h = 8%nat -> length (Blake2b.absorb fuel h data t) = 8%nat.
Proof.
  revert h data t. induction fuel as [|fuel IH]; intros h data t Hh; cbn [Blake2b.absorb].
  - exact Hh.
  - destruct (length data <=? 128)%nat.
    + unfold Blake2b.F. rewrite length_map, length_seq. reflexivity.
    + apply IH. unfold Blake2b.F. rewrite length_map, length_seq. reflexivity.
Qed.

Lemma le_split_length (n : nat) (w : Z) : length (Blake2b.le_split n w) = n.
Proof. revert w. induction n as [|n IH]; intro w; cbn; [reflexivity | now rewrite IH]. Qed.

Lemma flat_map_le_split_length (h : list Z) :
  length (flat_map (Blake2b.le_split 8) h) = (8 * length h)%nat.
Proof.
  induction h as [|w h IH]; [reflexivity|].
  cbn [flat_map]. rewrite length_app, le_split_length, IH. cbn [length]. lia.
Qed.

Lemma blake2b_length (digest_size : nat) (data : list byte) :
  (digest_size <= 64)%nat -> length (Blake2b.blake2b digest_size data) = digest_size.
Proof.
  intro H. unfold Blake2b.blake2b.
  rewrite length_firstn, flat_map_le_split_length, absorb_length; [lia | reflexivity].
Qed.

Lemma byte_to_N_lt (b : byte) : 0 <= Z.of_N (Byte.to_N b) < 256.
Proof.
  pose proof (Byte.to_N_bounded b). lia.
Qed.

Lemma int_from_bytes_big_acc (bs : list byte) (acc : Z) :
  0 <= acc ->
  acc * 256 ^ Z.of_nat (length bs)
  <= fold_left (fun a b => a * 256 + Z.of_N (Byte.to_N b)) bs acc
  < (acc + 1) * 256 ^ Z.of_nat (length bs).
Proof.
  revert acc. induction bs as [|b bs IH]; intros acc Hacc.
  - cbn. lia.
  - cbn [fold_left length]. rewrite Nat2Z.inj_succ, Z.pow_succ_r by lia.
    pose proof (byte_to_N_lt b) as Hb.
    specialize (IH (acc * 256 + Z.of_N (Byte.to_N b)) ltac:(lia)).
    assert (Hp : 0 < 256 ^ Z.of_nat (length bs)) by (apply Z.pow_pos_nonneg; lia).
    nia.
Qed.

Lemma stable_hash64_range (id : island_id_t) : 0 <= stable_hash64 id < 2 ^ 64.
Proof.
  unfold stable_hash64, int_from_bytes_big.
  pose proof (int_from_bytes_big_acc
                (Blake2b.blake2b 8 (list_byte_of_string (py_str id))) 0 ltac:(lia)) as H.
  rewrite blake2b_length in H by lia.
  change (256 ^ Z.of_nat 8) with (2 ^ 64) in H. lia.
Qed.

Lemma seed_fraction_range (seed shift : Z) :
  (0 <= seed_fraction seed shift)%Q /\ (seed_fraction seed shift <= 1)%Q.
Proof.
  unfold seed_fraction.
  change 0xFFFF with (Z.ones 16). rewrite Z.land_ones by lia.
  pose proof (Z.mod_pos_bound (Z.shiftr seed shift) (2 ^ 16) ltac:(lia)) as H.
  set (k := Z.shiftr seed shift mod 2 ^ 16) in *.
  assert (H0 : (0 <= inject_Z k)%Q) by (unfold Qle; simpl; lia).
  assert (H1 : (inject_Z k <= 65535)%Q) by (unfold Qle; simpl; lia).
  split.
  - apply Qle_shift_div_l; [reflexivity | lra].
  - apply Qle_shift_div_r; [reflexivity | lra].
Qed.

Lemma jitter_stop_in_gamut (base : hsv_t) (ho so vo : Q) :
  stop_in_gamut (jitter_stop base ho so vo).
Proof.
  destruct base as [[h s] v]. cbn [jitter_stop stop_in_gamut].
  destruct (py_fmod_range (h + ho) 360.0) as [H1 H2]; [reflexivity|].
  destruct (clamp_range (s + so) 0.55 0.75) as [H3 H4]; [unfold Qle; simpl; lia|].
  destruct (clamp_range (v + vo) 0.85 0.95) as [H5 H6]; [unfold Qle; simpl; lia|].
  repeat split; lra.
Qed.

Lemma clamp_clamped_to (value lo hi : Q) :
  (lo <= hi)%Q -> clamped_to lo hi value (clamp value lo hi).
Proof.
  intro H. unfold clamped_to, clamp, py_max, py_min.
  destruct (Qltb value hi) eqn:E1;
    [destruct (Qltb lo value) eqn:E2 | destruct (Qltb lo hi) eqn:E2];
    qbool;
    (destruct (Qlt_le_dec value lo); [left; split; lra|]);
    (destruct (Qlt_le_dec hi value); [right; right; split; lra | right; left; repeat split; lra]).
Qed.

Lemma jitter_stop_jittered (base : hsv_t) (ho so vo : Q) :
  (0 <= fst (fst base) + ho)%Q -> (fst (fst base) + ho < 360)%Q ->
  jittered base ho so vo (jitter_stop base ho so vo).
Proof.
  destruct base as [[h s] v]. cbn [fst jitter_stop jittered]. intros H0 H1.
  split; [|split].
  - assert (E : (py_fmod (h + ho) 360.0 == h + ho - 360.0 * inject_Z 0)%Q)
      by (apply py_fmod_eq; [reflexivity| |]; change (inject_Z 0) with 0%Q; lra).
    rewrite E. change (inject_Z 0) with 0%Q. lra.
  - apply clamp_clamped_to. unfold Qle; simpl; lia.
  - apply clamp_clamped_to. unfold Qle; simpl; lia.
Qed.

Lemma palette_library_hues (base_left base_right : hsv_t) :
  In (base_left, base_right) PALETTE_LIBRARY ->
  (8 <= fst (fst base_left))%Q /\ (fst (fst base_left) < 352)%Q /\
  (8 <= fst (fst base_right))%Q /\ (fst (fst base_right) < 352)%Q.
Proof.
  unfold PALETTE_LIBRARY.
  intros [E | [E | [E | [E | []]]]]; injection E as <- <-; cbn [fst];
    repeat split; unfold Qle, Qlt; simpl; lia.
Qed.

Lemma seed_fraction_field (seed shift : Z) :
  0 <= shift ->
  (seed_fraction seed shift == inject_Z ((seed / 2 ^ shift) mod 2 ^ 16) / 65535)%Q.
Proof.
  intro H. unfold seed_fraction. change 0xFFFF with (Z.ones 16).
  rewrite Z.land_ones by lia. rewrite Z.shiftr_div_pow2 by lia.
  assert (E : (65535.0 == 65535)%Q) by reflexivity.
  rewrite E. reflexivity.
Qed.

(** C3. The palette of an island is a function of its id alone: the id's
    string form is hashed by an 8-byte BLAKE2b digest, whose big-endian
    value is the unsigned 64-bit seed; [seed mod 4] selects one of the four
    base palettes; one hue, one saturation and one value offset, each read
    from its own 16-bit field of the seed (bits 8, 24 and 40 upwards) and
    bounded by 8 degrees, 0.03 and 0.02, are applied to both stops alike:
    the hue is the base hue plus the offset, the saturation and the value
    are base plus offset clamped into [0.55,0.75] and [0.85,0.95].  The
    compositor takes the stops of an island from its id only, whatever its
    pixels and the canvas.  The four base palettes and the seeds of the ids
    5, "5" and "a" are as listed. *)
Theorem palette_is_function_of_id :
  (forall id : island_id_t,
    let digest := Blake2b.blake2b 8 (list_byte_of_string (py_str id)) in
    let seed := stable_hash64 id in
    length digest = 8%nat /\
    seed = fold_left (fun acc b => acc * 256 + Z.of_N (Byte.to_N b)) digest 0 /\
    0 <= seed < 2 ^ 64 /\
    exists (base_left base_right : hsv_t) (hue_offset sat_offset val_offset : Q),
      nth_error PALETTE_LIBRARY (Z.to_nat (seed mod 4)) = Some (base_left, base_right) /\
      hue_offset = (seed_fraction seed 8 * 16.0 - 8.0)%Q /\
      sat_offset = (seed_fraction seed 24 * 0.06 - 0.03)%Q /\
      val_offset = (seed_fraction seed 40 * 0.04 - 0.02)%Q /\
      (hue_offset == inject_Z ((seed / 2 ^ 8) mod 2 ^ 16) / 65535 * 16 - 8)%Q /\
      (sat_offset == inject_Z ((seed / 2 ^ 24) mod 2 ^ 16) / 65535 * 0.06 - 0.03)%Q /\
      (val_offset == inject_Z ((seed / 2 ^ 40) mod 2 ^ 16) / 65535 * 0.04 - 0.02)%Q /\
      (-8 <= hue_offset <= 8)%Q /\
      (-0.03 <= sat_offset <= 0.03)%Q /\
      (-0.02 <= val_offset <= 0.02)%Q /\
      palette_for_island id =
        (jitter_stop base_left hue_offset sat_offset val_offset,
         jitter_stop base_right hue_offset sat_offset val_offset) /\
      jittered base_left hue_offset sat_offset val_offset (fst (palette_for_island id)) /\
      jittered base_right hue_offset sat_offset val_offset (snd (palette_for_island id)) /\
      stop_in_gamut (fst (palette_for_island id)) /\
      stop_in_gamut (snd (palette_for_island id)) /\
      forall eigh vec_norm (width height : Z) (px : list pixel) (uvs pts : option (list uv)),
        let island := mkIsland id px uvs pts in
        island_rgb eigh vec_norm width height island =
          (t <- compute_local_t eigh vec_norm
                  (island_pixel_uvs width height island)
                  (island_axis_source island (island_pixel_uvs width height island)) EPS ;;
           Ok (hsv_to_rgb_np
                 (lerp_hsv (fst (palette_for_island id)) (snd (palette_for_island id)) t)))) /\
  PALETTE_LIBRARY =
    [ ((274.0, 0.58, 0.92), (214.0, 0.56, 0.94));
      ((326.0, 0.64, 0.92), (28.0, 0.64, 0.93));
      ((188.0, 0.69, 0.89), (132.0, 0.62, 0.92));
      ((314.0, 0.67, 0.90), (272.0, 0.66, 0.89)) ]%Q /\
  stable_hash64 (IdInt 5) = 10039658952310757792 /\
  stable_hash64 (IdStr "5") = 10039658952310757792 /\
  stable_hash64 (IdStr "a") = 4681665781835383343.
Proof.
  split; [|split; [reflexivity|]; split; [vm_compute; reflexivity|];
           split; vm_compute; reflexivity].
  intros id digest seed.
  split; [apply blake2b_length; lia|].
  split; [reflexivity|].
  split; [apply stable_hash64_range|].
  assert (Hpal : exists bl br,
             nth_error PALETTE_LIBRARY (Z.to_nat (seed mod 4)) = Some (bl, br) /\
             nth (Z.to_nat (seed mod Z.of_nat (length PALETTE_LIBRARY))) PALETTE_LIBRARY
                 ((0, 0, 0), (0, 0, 0))%Q = (bl, br)).
  { change (Z.of_nat (length PALETTE_LIBRARY)) with 4.
    pose proof (Z.mod_pos_bound seed 4 ltac:(lia)) as Hm.
    assert (Hc : seed mod 4 = 0 \/ seed mod 4 = 1 \/ seed mod 4 = 2 \/ seed mod 4 = 3) by lia.
    destruct Hc as [-> | [-> | [-> | ->]]]; do 2 eexists; split; reflexivity. }
  destruct Hpal as (bl & br & Hnth & Hsel).
  destruct (palette_library_hues bl br (nth_error_In _ _ Hnth)) as (L1 & L2 & R1 & R2).
  assert (Heq : palette_for_island id =
                (jitter_stop bl (seed_fraction seed 8 * 16.0 - 8.0)
                                (seed_fraction seed 24 * 0.06 - 0.03)
                                (seed_fraction seed 40 * 0.04 - 0.02),
                 jitter_stop br (seed_fraction seed 8 * 16.0 - 8.0)
                                (seed_fraction seed 24 * 0.06 - 0.03)
                                (seed_fraction seed 40 * 0.04 - 0.02))%Q).
  { unfold palette_for_island. fold seed. rewrite Hsel. reflexivity. }
  exists bl, br, (seed_fraction seed 8 * 16.0 - 8.0)%Q,
         (seed_fraction seed 24 * 0.06 - 0.03)%Q, (seed_fraction seed 40 * 0.04 - 0.02)%Q.
  pose proof (seed_fraction_range seed 8) as [A1 A2].
  pose proof (seed_fraction_range seed 24) as [B1 B2].
  pose proof (seed_fraction_range seed 40) as [C1 C2].
  split; [exact Hnth|]. do 3 (split; [reflexivity|]).
  split.
  { rewrite (seed_fraction_field seed 8) by lia.
    assert (E2 : (16.0 == 16)%Q) by reflexivity.
    assert (E3 : (8.0 == 8)%Q) by reflexivity.
    rewrite E2, E3. reflexivity. }
  split; [rewrite (seed_fraction_field seed 24) by lia; reflexivity|].
  split; [rewrite (seed_fraction_field seed 40) by lia; reflexivity|].
  split; [split; lra|]. split; [split; lra|]. split; [split; lra|].
  split; [exact Heq|].
  rewrite Heq. cbn [fst snd].
  split; [apply jitter_stop_jittered; lra|].
  split; [apply jitter_stop_jittered; lra|].
  split; [apply jitter_stop_in_gamut|]. split; [apply jitter_stop_in_gamut|].
  intros eigh vec_norm width height px uvs pts.
  unfold island_rgb. cbn [island_id]. rewrite Heq. reflexivity.
Qed.

(** ** The local parameter t *)

Lemma fold_min_spec (xs : list Q) (a : Q) :
  let m := fold_left (fun m y => if Qltb y m then y else m) xs a in
  (m = a \/ In m xs) /\ (m <= a)%Q /\ Forall (fun x => (m <= x)%Q) xs.
Proof.
  revert a. induction xs as [|x xs IH]; intro a; cbn [fold_left].
  - split; [now left|]. split; [lra | constructor].
  - destruct (IH (if Qltb x a then x else a)) as (Hin & Hle & Hall).
    destruct (Qltb x a) eqn:E; qbool.
    + split; [destruct Hin as [-> | Hin]; [right; now left | right; now right]|].
      split; [lra|]. constructor; [lra | exact Hall].
    + split; [destruct Hin as [-> | Hin]; [now left | right; now right]|].
      split; [lra|]. constructor; [lra | exact Hall].
Qed.

Lemma fold_max_spec (xs : list Q) (a : Q) :
  let m := fold_left (fun m y => if Qltb m y then y else m) xs a in
  (m = a \/ In m xs) /\ (a <= m)%Q /\ Forall (fun x => (x <= m)%Q) xs.
Proof.
  revert a. induction xs as [|x xs IH]; intro a; cbn [fold_left].
  - split; [now left|]. split; [lra | constructor].
  - destruct (IH (if Qltb a x then x else a)) as (Hin & Hle & Hall).
    destruct (Qltb a x) eqn:E; qbool.
    + split; [destruct Hin as [-> | Hin]; [right; now left | right; now right]|].
      split; [lra|]. constructor; [lra | exact Hall].
    + split; [destruct Hin as [-> | Hin]; [now left | right; now right]|].
      split; [lra|]. constructor; [lra | exact Hall].
Qed.

Lemma np_min_spec (xs : list Q) :
  xs <> [] ->
  exists m, np_min xs = Ok m /\ In m xs /\ Forall (fun x => (m <= x)%Q) xs.
Proof.
  destruct xs as [|x xs]; [congruence|]. intros _. cbn [np_min].
  destruct (fold_min_spec xs x) as (Hin & Hle & Hall).
  eexists. split; [reflexivity|]. split.
  - destruct Hin as [-> | Hin]; [now left | now right].
  - constructor; assumption.
Qed.

Lemma np_max_spec (xs : list Q) :
  xs <> [] ->
  exists m, np_max xs = Ok m /\ In m xs /\ Forall (fun x => (x <= m)%Q) xs.
Proof.
  destruct xs as [|x xs]; [congruence|]. intros _. cbn [np_max].
  destruct (fold_max_spec xs x) as (Hin & Hle & Hall).
  eexists. split; [reflexivity|]. split.
  - destruct Hin as [-> | Hin]; [now left | now right].
  - constructor; assumption.
Qed.

Lemma map_nonempty {A B : Type} (f : A -> B) (l : list A) : l <> [] -> map f l <> [].
Proof. destruct l; [congruence | discriminate]. Qed.

Lemma clamp01_array_range (arr : list Q) : Forall in_unit_interval (clamp01_array arr).
Proof.
  unfold clamp01_array. apply Forall_map, Forall_forall. intros x _.
  apply np_clip_range. lra.
Qed.

Lemma clamp01_array_length (arr : list Q) : length (clamp01_array arr) = length arr.
Proof. apply length_map. Qed.

Lemma fallback_t_from_bbox_ok (pixel_uvs : list uv) (eps : Q) :
  pixel_uvs <> [] ->
  exists ts, fallback_t_from_bbox pixel_uvs eps = Ok ts /\ length ts = length pixel_uvs.
Proof.
  intro Hne. unfold fallback_t_from_bbox, normalize_local_uv.
  destruct (np_min_spec (map fst pixel_uvs) (map_nonempty _ _ Hne)) as (mu & -> & _).
  destruct (np_max_spec (map fst pixel_uvs) (map_nonempty _ _ Hne)) as (Mu & -> & _).
  destruct (np_min_spec (map snd pixel_uvs) (map_nonempty _ _ Hne)) as (mv & -> & _).
  destruct (np_max_spec (map snd pixel_uvs) (map_nonempty _ _ Hne)) as (Mv & -> & _).
  cbn [bind].
  destruct (Qltb (Mu - mu) eps && Qltb (Mv - mv) eps).
  - eexists. split; [reflexivity|]. apply repeat_length.
  - destruct (Qle_bool (Mv - mv) (Mu - mu));
      (eexists; split; [reflexivity|]; now rewrite !length_map).
Qed.

Lemma fallback_path_ok (pixel_uvs : list uv) (eps : Q) :
  pixel_uvs <> [] ->
  exists ts,
    (t <- fallback_t_from_bbox pixel_uvs eps ;; Ok (clamp01_array t)) = Ok ts /\
    length ts = length pixel_uvs /\ Forall in_unit_interval ts.
Proof.
  intro Hne. destruct (fallback_t_from_bbox_ok pixel_uvs eps Hne) as (ts & -> & Hlen).
  cbn [bind]. eexists. split; [reflexivity|]. split.
  - now rewrite clamp01_array_length.
  - apply clamp01_array_range.
Qed.



Section LocalT.

Variable eigh : mat2 -> option (Q * Q * mat2).
Variable vec_norm : uv -> Q.


End LocalT.



Section LocalTInBinary64.

Import PrimFloat.


End LocalTInBinary64.

(** ** Scenarios evaluated on the pipeline *)

Section Scenarios.

Variable eigh : mat2 -> option (Q * Q * mat2).
Variable vec_norm : uv -> Q.

(** C9. A 1x1 ID map holding the value 5, with background id 0, renders to
    a 1x1 RGBA raster whose only pixel is opaque and carries the HSV->RGB
    conversion of the palette of id 5 interpolated at t = 0.5: a single UV
    gives no principal axis, and the bounding-box fallback, both spans
    being degenerate, assigns 0.5.  (The colour is (110, 99, 235).) *)
Theorem single_pixel_id_map_renders_palette_midpoint :
  forall opaque_bg : bool,
    let pixel_uvs := infer_uvs_from_pixels [(0, 0)] 1 1 in
    let '(left_hsv, right_hsv) := palette_for_island (IdInt 5) in
    let '(r, g, b) := hsv_to_rgb1 (lerp_hsv1 left_hsv right_hsv 0.5%Q) in
    load_islands empty_payload (Some (Gray [[5]])) (Some 0)
      = Ok ([mkIsland (IdInt 5) [(0, 0)] None None], 1, 1) /\
    compute_principal_axis eigh vec_norm pixel_uvs EPS = None /\
    compute_local_t eigh vec_norm pixel_uvs pixel_uvs EPS = Ok [0.5%Q] /\
    main eigh vec_norm (mkArgs None (Some (Gray [[5]])) (Some 0) opaque_bg)
      = Ok [[(r, g, b, 255)]] /\
    main eigh vec_norm (mkArgs None (Some (Gray [[5]])) None opaque_bg)
      = Ok [[(r, g, b, 255)]] /\
    main eigh vec_norm
         (mkArgs (Some (mkPayload (Some (Gray [[5]])) (Some 0) None None None None None None))
                 None None opaque_bg)
      = Ok [[(r, g, b, 255)]] /\
    (r, g, b) = (110, 99, 235).
Proof.
  intros [|]; vm_compute; repeat split; reflexivity.
Qed.

(** C1, on the code: an ID map that holds nothing but the background id is
    not rejected.  The resolver returns an empty island list and the
    pipeline goes on to write a raster with no island in it. *)
Theorem id_map_background_only_is_rendered :
  load_islands empty_payload (Some (Gray [[0]])) None = Ok ([], 1, 1) /\
  main eigh vec_norm (mkArgs None (Some (Gray [[0]])) None false) = Ok [[(0, 0, 0, 0)]] /\
  main eigh vec_norm (mkArgs None (Some (Gray [[0]])) None true) = Ok [[(0, 0, 0, 255)]].
Proof.
  vm_compute. repeat split; reflexivity.
Qed.

End Scenarios.

(** C6, on the code: with background id 7 configured, a fully transparent
    RGBA pixel is given the id 0, not 7, and so becomes the island 0. *)
Theorem transparent_pixel_becomes_island_zero :
  load_id_map (Multi 4 [[[10; 20; 30; 0]]]) = Ok [[0]] /\
  load_islands empty_payload (Some (Multi 4 [[[10; 20; 30; 0]]])) (Some 7)
    = Ok ([mkIsland (IdInt 0) [(0, 0)] None None], 1, 1).
Proof.
  vm_compute. split; reflexivity.
Qed.

(** ** Sorted, duplicate-free arrays *)

Section Unique.

Context {A : Type}.
Variable cmp : A -> A -> comparison.
Hypothesis cmp_eq : forall a b, cmp a b = Eq -> a = b.
Hypothesis cmp_refl : forall a, cmp a a = Eq.
Hypothesis cmp_gt : forall a b, cmp a b = Gt -> cmp b a = Lt.
Hypothesis cmp_trans : forall a b c, cmp a b = Lt -> cmp b c = Lt -> cmp a c = Lt.

Lemma insert_unique_In (a x : A) (l : list A) :
  In x (insert_unique cmp a l) <-> x = a \/ In x l.
Proof.
  induction l as [|b l IH]; cbn [insert_unique].
  - cbn. intuition.
  - destruct (cmp a b) eqn:E.
    + apply cmp_eq in E. subst b. cbn. intuition.
    + cbn. intuition.
    + cbn [In]. rewrite IH. intuition.
Qed.

Lemma np_unique_In (x : A) (l : list A) : In x (np_unique cmp l) <-> In x l.
Proof.
  induction l as [|a l IH]; [reflexivity|].
  unfold np_unique in *. cbn [fold_right]. rewrite insert_unique_In, IH.
  cbn. intuition.
Qed.

Lemma insert_unique_sorted (a : A) (l : list A) :
  StronglySorted (cmp_lt cmp) l -> StronglySorted (cmp_lt cmp) (insert_unique cmp a l).
Proof.
  induction 1 as [|b l Hs IH Hb]; cbn [insert_unique].
  - repeat constructor.
  - destruct (cmp a b) eqn:E.
    + constructor; assumption.
    + constructor; [constructor; assumption|].
      constructor; [exact E|].
      eapply Forall_impl; [|exact Hb]. intros c Hc. eapply cmp_trans; eauto.
    + constructor; [exact IH|].
      apply Forall_forall. intros c Hc. apply insert_unique_In in Hc.
      destruct Hc as [-> | Hc]; [apply cmp_gt; exact E|].
      rewrite Forall_forall in Hb. now apply Hb.
Qed.

Lemma np_unique_sorted (l : list A) : StronglySorted (cmp_lt cmp) (np_unique cmp l).
Proof.
  induction l as [|a l IH]; [constructor|].
  unfold np_unique in *. cbn [fold_right]. now apply insert_unique_sorted.
Qed.

Lemma sorted_NoDup (l : list A) : StronglySorted (cmp_lt cmp) l -> NoDup l.
Proof.
  induction 1 as [|b l Hs IH Hb]; constructor; [|exact IH].
  intro Hin. rewrite Forall_forall in Hb. specialize (Hb b Hin).
  unfold cmp_lt in Hb. rewrite cmp_refl in Hb. discriminate.
Qed.

Lemma np_unique_NoDup (l : list A) : NoDup (np_unique cmp l).
Proof. apply sorted_NoDup, np_unique_sorted. Qed.

End Unique.

Lemma pixel_compare_eq (p q : pixel) : pixel_compare p q = Eq -> p = q.
Proof.
  destruct p as [px py], q as [qx qy]. unfold pixel_compare. cbn [fst snd].
  destruct (Z.compare_spec px qx); try discriminate.
  destruct (Z.compare_spec py qy); try discriminate. congruence.
Qed.

Lemma pixel_compare_refl (p : pixel) : pixel_compare p p = Eq.
Proof. unfold pixel_compare. now rewrite !Z.compare_refl. Qed.

Lemma pixel_compare_lt (p q : pixel) :
  pixel_compare p q = Lt <-> fst p < fst q \/ (fst p = fst q /\ snd p < snd q).
Proof.
  unfold pixel_compare.
  destruct (Z.compare_spec (fst p) (fst q)); destruct (Z.compare_spec (snd p) (snd q));
    split; intro; try discriminate; try reflexivity; lia.
Qed.

Lemma pixel_compare_gt (p q : pixel) : pixel_compare p q = Gt -> pixel_compare q p = Lt.
Proof.
  intro H. apply pixel_compare_lt. unfold pixel_compare in H.
  destruct (Z.compare_spec (fst p) (fst q)); destruct (Z.compare_spec (snd p) (snd q));
    try discriminate; lia.
Qed.

Lemma pixel_compare_trans (p q r : pixel) :
  pixel_compare p q = Lt -> pixel_compare q r = Lt -> pixel_compare p r = Lt.
Proof. rewrite !pixel_compare_lt. lia. Qed.

Lemma Z_compare_gt (a b : Z) : (a ?= b) = Gt -> (b ?= a) = Lt.
Proof. rewrite Z.compare_gt_iff, Z.compare_lt_iff. lia. Qed.

Lemma Z_compare_trans (a b c : Z) : (a ?= b) = Lt -> (b ?= c) = Lt -> (a ?= c) = Lt.
Proof. rewrite !Z.compare_lt_iff. lia. Qed.

Lemma insert_sorted_In (a x : Z) (l : list Z) :
  In x (insert_sorted a l) <-> x = a \/ In x l.
Proof.
  induction l as [|b l IH]; cbn [insert_sorted].
  - cbn. intuition.
  - destruct (a <? b); cbn [In]; [|rewrite IH]; intuition.
Qed.

Lemma insert_sorted_perm (a : Z) (l : list Z) : Permutation (a :: l) (insert_sorted a l).
Proof.
  induction l as [|b l IH]; cbn [insert_sorted]; [reflexivity|].
  destruct (a <? b); [reflexivity|].
  rewrite perm_swap. now constructor.
Qed.

Lemma py_sorted_perm (l : list Z) : Permutation l (py_sorted l).
Proof.
  induction l as [|a l IH]; [constructor|].
  unfold py_sorted in *. cbn [fold_right].
  rewrite <- insert_sorted_perm. now constructor.
Qed.

Lemma py_sorted_In (x : Z) (l : list Z) : In x (py_sorted l) <-> In x l.
Proof.
  split; apply Permutation_in; [symmetry|]; apply py_sorted_perm.
Qed.

Lemma py_sorted_NoDup (l : list Z) : NoDup l -> NoDup (py_sorted l).
Proof. apply Permutation_NoDup, py_sorted_perm. Qed.

(** ** Coordinates read back from a raster *)

Lemma to_int32_small (z : Z) : 0 <= z < 2 ^ 31 -> to_int32 z = z.
Proof.
  intro H. unfold to_int32. rewrite Z.mod_small; lia.
Qed.

Lemma nth_error_enumerate_from {A : Type} (l : list A) (s : Z) (n : nat) :
  nth_error (enumerate_from s l) n =
  option_map (fun a => (s + Z.of_nat n, a)) (nth_error l n).
Proof.
  revert s n. induction l as [|a l IH]; intros s n; cbn [enumerate_from].
  - now destruct n.
  - destruct n as [|n]; cbn [nth_error option_map].
    + do 2 f_equal. lia.
    + rewrite IH. destruct (nth_error l n); cbn; [do 2 f_equal; lia | reflexivity].
Qed.

Lemma In_enumerate_from {A : Type} (l : list A) (s i : Z) (a : A) :
  In (i, a) (enumerate_from s l) <->
  exists n : nat, i = s + Z.of_nat n /\ nth_error l n = Some a.
Proof.
  split.
  - intro H. apply In_nth_error in H. destruct H as [n Hn].
    rewrite nth_error_enumerate_from in Hn.
    destruct (nth_error l n) eqn:E; cbn in Hn; [|discriminate].
    injection Hn as <- <-. eauto.
  - intros (n & -> & Hn). apply (nth_error_In _ n).
    rewrite nth_error_enumerate_from, Hn. reflexivity.
Qed.

Lemma length_enumerate_from {A : Type} (l : list A) (s : Z) :
  length (enumerate_from s l) = length l.
Proof. revert s. induction l; intro s; cbn; auto. Qed.

Lemma In_where_pixels {A : Type} (cond : A -> bool) (arr : list (list A)) (p : pixel) :
  In p (where_pixels cond arr) <->
  exists (x y : nat) (c : A),
    cell_at arr x y = Some c /\ cond c = true /\
    p = (to_int32 (Z.of_nat x), to_int32 (Z.of_nat y)).
Proof.
  unfold where_pixels, cell_at. rewrite in_flat_map. split.
  - intros ([i row] & Hrow & Hin). cbn [fst snd] in Hin.
    apply In_enumerate_from in Hrow. destruct Hrow as (y & -> & Hy).
    rewrite in_flat_map in Hin. destruct Hin as ([j c] & Hc & Hp). cbn [fst snd] in Hp.
    apply In_enumerate_from in Hc. destruct Hc as (x & -> & Hx).
    destruct (cond c) eqn:E; [|contradiction].
    destruct Hp as [<- | []].
    exists x, y, c. rewrite Hy. repeat split; assumption.
  - intros (x & y & c & Hc & Hcond & ->).
    destruct (nth_error arr y) as [row|] eqn:Hy; [|discriminate].
    exists (Z.of_nat y, row). split.
    + apply In_enumerate_from. exists y. split; [lia | assumption].
    + cbn [fst snd]. rewrite in_flat_map. exists (Z.of_nat x, c). split.
      * apply In_enumerate_from. exists x. split; [lia | assumption].
      * cbn [fst snd]. rewrite Hcond. now left.
Qed.

Lemma NoDup_flat_map_keyed {A B K : Type} (f : A -> list B) (key : B -> K) (g : A -> K)
    (l : list A) :
  (forall a x, In a l -> In x (f a) -> key x = g a) ->
  NoDup (map g l) ->
  (forall a, In a l -> NoDup (f a)) ->
  NoDup (flat_map f l).
Proof.
  induction l as [|a l IH]; intros Hkey Hg Hf; cbn [flat_map]; [constructor|].
  cbn [map] in Hg. apply NoDup_cons_iff in Hg. destruct Hg as [Hnotin Hg].
  apply NoDup_app.
  - apply Hf. now left.
  - apply IH; [|exact Hg|]; intros; [apply Hkey | apply Hf]; try (now right); assumption.
  - intros x Hx Hx'. apply in_flat_map in Hx'. destruct Hx' as (b & Hb & Hxb).
    apply Hnotin. apply in_map_iff. exists b. split; [|exact Hb].
    rewrite <- (Hkey a x) by (try (now left); assumption).
    symmetry. apply Hkey; [now right | assumption].
Qed.

Lemma NoDup_enumerate_int32 {A : Type} (l : list A) :
  Z.of_nat (length l) <= 2 ^ 31 ->
  NoDup (map (fun ia : Z * A => to_int32 (fst ia)) (enumerate_from 0 l)).
Proof.
  intro Hlen. apply NoDup_nth_error. intros i j Hi Hij.
  rewrite length_map, length_enumerate_from in Hi.
  rewrite !nth_error_map, !nth_error_enumerate_from in Hij.
  destruct (nth_error l i) eqn:Ei; [|apply nth_error_None in Ei; lia].
  destruct (nth_error l j) eqn:Ej; [|discriminate].
  assert (Hj : (j < length l)%nat) by (apply nth_error_Some; congruence).
  cbn in Hij. injection Hij as Hij.
  rewrite !to_int32_small in Hij by lia. lia.
Qed.

Lemma where_pixels_NoDup {A : Type} (cond : A -> bool) (arr : list (list A)) :
  Z.of_nat (length arr) <= 2 ^ 31 ->
  (forall row, In row arr -> Z.of_nat (length row) <= 2 ^ 31) ->
  NoDup (where_pixels cond arr).
Proof.
  intros Hh Hw. unfold where_pixels.
  apply (NoDup_flat_map_keyed _ snd (fun yr : Z * list A => to_int32 (fst yr))).
  - intros [i row] p _ Hp. cbn [fst snd] in *.
    apply in_flat_map in Hp. destruct Hp as ([j c] & _ & Hp). cbn [fst snd] in Hp.
    destruct (cond c); [|contradiction]. destruct Hp as [<- | []]. reflexivity.
  - now apply NoDup_enumerate_int32.
  - intros [i row] Hrow. cbn [fst snd].
    apply In_enumerate_from in Hrow. destruct Hrow as (y & _ & Hy).
    apply nth_error_In in Hy.
    apply (NoDup_flat_map_keyed _ fst (fun xc : Z * A => to_int32 (fst xc))).
    + intros [j c] p _ Hp. cbn [fst snd] in *.
      destruct (cond c); [|contradiction]. destruct Hp as [<- | []]. reflexivity.
    + apply NoDup_enumerate_int32. now apply Hw.
    + intros [j c] _. cbn [fst snd]. destruct (cond c); repeat constructor. intros [].
Qed.

(** ** Well-formed islands *)

Lemma rectangular_cell {A : Type} (arr : list (list A)) (x y : nat) (c : A) :
  rectangular arr -> cell_at arr x y = Some c ->
  Z.of_nat x < snd (shape arr) /\ Z.of_nat y < fst (shape arr).
Proof.
  intros Hrect Hc. unfold cell_at in Hc.
  destruct (nth_error arr y) as [row|] eqn:Hy; [|discriminate].
  assert (Hylt : (y < length arr)%nat) by (apply nth_error_Some; congruence).
  assert (Hxlt : (x < length row)%nat) by (apply nth_error_Some; congruence).
  rewrite (Hrect row (nth_error_In _ _ Hy)) in Hxlt.
  unfold shape. cbn [fst snd]. lia.
Qed.

Lemma rectangular_rows {A : Type} (arr : list (list A)) (row : list A) :
  rectangular arr -> In row arr -> Z.of_nat (length row) = snd (shape arr).
Proof. intros Hrect Hin. unfold shape. cbn [snd]. now rewrite (Hrect row Hin). Qed.

Lemma where_pixels_wf {A : Type} (cond : A -> bool) (arr : list (list A))
    (id : island_id_t) (uvs pts : option (list uv)) :
  rectangular arr ->
  fst (shape arr) <= 2 ^ 31 -> snd (shape arr) <= 2 ^ 31 ->
  island_wf (snd (shape arr)) (fst (shape arr))
            (mkIsland id (where_pixels cond arr) uvs pts).
Proof.
  intros Hrect Hh Hw. split; cbn [pixels].
  - apply where_pixels_NoDup; [exact Hh|].
    intros row Hrow. now rewrite (rectangular_rows arr row Hrect Hrow).
  - apply Forall_forall. intros p Hp. apply In_where_pixels in Hp.
    destruct Hp as (x & y & c & Hc & _ & ->).
    destruct (rectangular_cell arr x y c Hrect Hc) as [Hx Hy].
    unfold in_canvas. cbn [fst snd]. rewrite !to_int32_small by lia. lia.
Qed.

(** A coordinate pair read back from a raster names one cell only. *)
Lemma where_pixels_cell {A : Type} (arr : list (list A)) (x y x' y' : nat) (c c' : A) :
  rectangular arr ->
  fst (shape arr) <= 2 ^ 31 -> snd (shape arr) <= 2 ^ 31 ->
  cell_at arr x y = Some c -> cell_at arr x' y' = Some c' ->
  (to_int32 (Z.of_nat x), to_int32 (Z.of_nat y))
  = (to_int32 (Z.of_nat x'), to_int32 (Z.of_nat y')) ->
  x = x' /\ y = y'.
Proof.
  intros Hrect Hh Hw Hc Hc' Heq.
  destruct (rectangular_cell arr x y c Hrect Hc) as [Hx Hy].
  destruct (rectangular_cell arr x' y' c' Hrect Hc') as [Hx' Hy'].
  injection Heq as E1 E2. rewrite !to_int32_small in E1, E2 by lia. lia.
Qed.

(** ** ID-map mode *)

Lemma islands_from_id_map_shape (ids : list (list Z)) (background_id : Z)
    (islands : list IslandData) (width height : Z) :
  islands_from_id_map ids background_id = Ok (islands, width, height) ->
  width = snd (shape ids) /\ height = fst (shape ids) /\
  islands =
    flat_map (fun island_id =>
                match where_pixels (Z.eqb island_id) ids with
                | [] => []
                | pixels => [mkIsland (IdInt island_id) pixels None None]
                end)
             (py_sorted (filter (fun v => negb (v =? background_id))
                                (np_unique Z.compare (concat ids)))).
Proof.
  unfold islands_from_id_map, shape. intro H. injection H as <- <- <-.
  cbn [fst snd]. repeat split; reflexivity.
Qed.

Lemma id_map_island_In (ids : list (list Z)) (idl : list Z) (island : IslandData) :
  In island
     (flat_map (fun island_id =>
                  match where_pixels (Z.eqb island_id) ids with
                  | [] => []
                  | pixels => [mkIsland (IdInt island_id) pixels None None]
                  end) idl) ->
  exists island_id,
    In island_id idl /\
    island = mkIsland (IdInt island_id) (where_pixels (Z.eqb island_id) ids) None None.
Proof.
  intro H. apply in_flat_map in H. destruct H as (island_id & Hid & Hin).
  exists island_id. split; [exact Hid|].
  destruct (where_pixels (Z.eqb island_id) ids); [contradiction|].
  destruct Hin as [<- | []]. reflexivity.
Qed.

Lemma id_map_islands_disjoint (ids : list (list Z)) (idl : list Z) :
  rectangular ids ->
  fst (shape ids) <= 2 ^ 31 -> snd (shape ids) <= 2 ^ 31 ->
  NoDup idl ->
  pairwise_disjoint
    (flat_map (fun island_id =>
                 match where_pixels (Z.eqb island_id) ids with
                 | [] => []
                 | pixels => [mkIsland (IdInt island_id) pixels None None]
                 end) idl).
Proof.
  intros Hrect Hh Hw. induction 1 as [|a l Hnotin Hnd IH]; cbn [flat_map]; [constructor|].
  assert (Hhead :
            Forall (disjoint_islands (mkIsland (IdInt a) (where_pixels (Z.eqb a) ids) None None))
                   (flat_map (fun island_id =>
                                match where_pixels (Z.eqb island_id) ids with
                                | [] => []
                                | pixels => [mkIsland (IdInt island_id) pixels None None]
                                end) l)).
  { apply Forall_forall. intros isl Hisl.
    apply id_map_island_In in Hisl. destruct Hisl as (b & Hb & ->).
    intros p Hpa Hpb. cbn [pixels] in Hpa, Hpb.
    apply In_where_pixels in Hpa, Hpb.
    destruct Hpa as (x & y & c & Hc & Ec & ->).
    destruct Hpb as (x' & y' & c' & Hc' & Ec' & Heq).
    destruct (where_pixels_cell ids x y x' y' c c' Hrect Hh Hw Hc Hc' Heq) as [-> ->].
    apply Z.eqb_eq in Ec, Ec'. apply Hnotin. congruence. }
  destruct (where_pixels (Z.eqb a) ids) eqn:E; [exact IH|].
  cbn [app]. constructor; [exact Hhead | exact IH].
Qed.

Lemma islands_from_id_map_wf (ids : list (list Z)) (background_id : Z)
    (islands : list IslandData) (width height : Z) :
  islands_from_id_map ids background_id = Ok (islands, width, height) ->
  rectangular ids -> width <= 2 ^ 31 -> height <= 2 ^ 31 ->
  Forall (island_wf width height) islands /\ pairwise_disjoint islands.
Proof.
  intros H Hrect Hw Hh.
  apply islands_from_id_map_shape in H. destruct H as (-> & -> & ->).
  split.
  - apply Forall_forall. intros isl Hisl.
    apply id_map_island_In in Hisl. destruct Hisl as (a & _ & ->).
    now apply where_pixels_wf.
  - apply id_map_islands_disjoint; try assumption.
    apply py_sorted_NoDup, NoDup_filter.
    apply (np_unique_NoDup Z.compare).
    + intros a b. apply Z.compare_eq.
    + apply Z.compare_refl.
    + apply Z_compare_gt.
    + apply Z_compare_trans.
Qed.

(** ** Explicit mode *)

Lemma normalize_pixels_eq (px : list pixel) (width height : Z) :
  normalize_pixels px width height =
  np_unique pixel_compare
    (map (fun q : pixel => (to_int32 (fst q), to_int32 (snd q)))
         (filter (fun q : pixel =>
                    (0 <=? fst q) && (fst q <? width) && (0 <=? snd q) && (snd q <? height))
                 px)).
Proof.
  unfold normalize_pixels. now destruct (filter _ px).
Qed.

Lemma normalize_pixels_NoDup (px : list pixel) (width height : Z) :
  NoDup (normalize_pixels px width height).
Proof.
  rewrite normalize_pixels_eq. apply np_unique_NoDup.
  - apply pixel_compare_eq.
  - apply pixel_compare_refl.
  - apply pixel_compare_gt.
  - apply pixel_compare_trans.
Qed.

Lemma normalize_pixels_In (px : list pixel) (width height : Z) (p : pixel) :
  width <= 2 ^ 31 -> height <= 2 ^ 31 ->
  (In p (normalize_pixels px width height) <-> In p px /\ in_canvas width height p).
Proof.
  intros Hw Hh. rewrite normalize_pixels_eq.
  rewrite (np_unique_In pixel_compare pixel_compare_eq), in_map_iff.
  unfold in_canvas. split.
  - intros ([qx qy] & <- & Hq). apply filter_In in Hq. destruct Hq as [Hq Hb].
    cbn [fst snd] in *. rewrite !to_int32_small by lia. split; [exact Hq | lia].
  - intros [Hin Hb]. exists p. split.
    + destruct p as [x y]. cbn [fst snd] in *. rewrite !to_int32_small by lia. reflexivity.
    + apply filter_In. split; [exact Hin | lia].
Qed.

Lemma normalize_pixels_wf (px : list pixel) (width height : Z)
    (id : island_id_t) (uvs pts : option (list uv)) :
  width <= 2 ^ 31 -> height <= 2 ^ 31 ->
  island_wf width height (mkIsland id (normalize_pixels px width height) uvs pts).
Proof.
  intros Hw Hh. split; cbn [pixels].
  - apply normalize_pixels_NoDup.
  - apply Forall_forall. intros p Hp.
    now apply (normalize_pixels_In px width height p Hw Hh) in Hp.
Qed.

Lemma explicit_entry_pixels (idx : nat) (raw : entry_raw) (width height : Z)
    (island : IslandData) :
  explicit_entry idx raw width height = Ok (Some island) ->
  pixels island = normalize_pixels (entry_source_pixels raw) width height.
Proof.
  destruct raw as [|entry]; cbn [explicit_entry]; [discriminate|].
  unfold entry_source_pixels. fold (entry_source entry).
  destruct (entry_source entry) as [px|e]; cbn [bind]; [|discriminate].
  destruct (normalize_pixels px width height) as [|p ps] eqn:Hn; [discriminate|].
  destruct (e_uvs entry) as [raw_uvs|]; cbn [bind].
  - destruct (parse_float_points raw_uvs "islands[].uvs") as [uvs|]; cbn [bind]; [|discriminate].
    destruct (length uvs =? length (p :: ps))%nat; cbn [bind];
      (destruct (e_uv_points entry) as [raw_pts|]; cbn [bind];
       [destruct (parse_float_points raw_pts "islands[].uv_points"); cbn [bind];
        [|discriminate]|]);
      intro H; injection H as <-; reflexivity.
  - destruct (e_uv_points entry) as [raw_pts|]; cbn [bind];
      [destruct (parse_float_points raw_pts "islands[].uv_points"); cbn [bind];
       [|discriminate]|];
      intro H; injection H as <-; reflexivity.
Qed.

Lemma explicit_loop_In (idx : nat) (islands_raw : list entry_raw) (width height : Z)
    (islands : list IslandData) (island : IslandData) :
  explicit_loop idx islands_raw width height = Ok islands ->
  In island islands ->
  exists raw, In raw islands_raw /\
              pixels island = normalize_pixels (entry_source_pixels raw) width height.
Proof.
  revert idx islands. induction islands_raw as [|raw rest IH]; intros idx islands;
    cbn [explicit_loop].
  - intro H. injection H as <-. intros [].
  - destruct (explicit_entry idx raw width height) as [r|] eqn:Hr; cbn [bind]; [|discriminate].
    destruct (explicit_loop (S idx) rest width height) as [islands'|] eqn:Hl; cbn [bind];
      [|discriminate].
    intro H. injection H as <-. intro Hin.
    assert (Hrest : In island islands' ->
                    exists raw0, In raw0 (raw :: rest) /\
                                 pixels island
                                 = normalize_pixels (entry_source_pixels raw0) width height).
    { intro Hi. destruct (IH _ _ Hl Hi) as (raw0 & Hraw0 & Hpx).
      exists raw0. split; [now right | exact Hpx]. }
    destruct r as [isl|]; [|now apply Hrest].
    destruct Hin as [<- | Hin]; [|now apply Hrest].
    exists raw. split; [now left|]. eapply explicit_entry_pixels; eauto.
Qed.

Lemma explicit_loop_wf (idx : nat) (islands_raw : list entry_raw) (width height : Z)
    (islands : list IslandData) :
  width <= 2 ^ 31 -> height <= 2 ^ 31 ->
  explicit_loop idx islands_raw width height = Ok islands ->
  Forall (island_wf width height) islands.
Proof.
  intros Hw Hh Hl. apply Forall_forall. intros island Hin.
  destruct (explicit_loop_In _ _ _ _ _ island Hl Hin) as (raw & _ & Hpx).
  destruct island as [id px uvs pts]. cbn [pixels] in Hpx. subst px.
  now apply normalize_pixels_wf.
Qed.

Lemma explicit_loop_disjoint (idx : nat) (islands_raw : list entry_raw) (width height : Z)
    (islands : list IslandData) :
  width <= 2 ^ 31 -> height <= 2 ^ 31 ->
  ForallOrdPairs (disjoint_sources width height) islands_raw ->
  explicit_loop idx islands_raw width height = Ok islands ->
  pairwise_disjoint islands.
Proof.
  intros Hw Hh Hsrc. revert idx islands.
  induction Hsrc as [|raw rest Hhead Hrest IH]; intros idx islands; cbn [explicit_loop].
  - intro H. injection H as <-. constructor.
  - destruct (explicit_entry idx raw width height) as [r|] eqn:Hr; cbn [bind]; [|discriminate].
    destruct (explicit_loop (S idx) rest width height) as [islands'|] eqn:Hl; cbn [bind];
      [|discriminate].
    intro H. injection H as <-.
    specialize (IH _ _ Hl).
    destruct r as [isl|]; [|exact IH].
    constructor; [|exact IH].
    apply Forall_forall. intros isl' Hin' p Hp Hp'.
    destruct (explicit_loop_In _ _ _ _ _ isl' Hl Hin') as (raw' & Hraw' & Hpx').
    rewrite (explicit_entry_pixels _ _ _ _ _ Hr) in Hp. rewrite Hpx' in Hp'.
    apply (normalize_pixels_In _ _ _ _ Hw Hh) in Hp, Hp'.
    rewrite Forall_forall in Hhead.
    exact (Hhead raw' Hraw' p (proj2 Hp) (proj1 Hp) (proj1 Hp')).
Qed.

Lemma islands_from_explicit_payload_inv (payload : Payload)
    (islands : list IslandData) (width height : Z) :
  islands_from_explicit_payload payload = Ok (islands, width, height) ->
  exists islands_raw,
    p_islands payload = Some islands_raw /\
    0 < width /\ 0 < height /\ islands <> [] /\
    explicit_loop 0 islands_raw width height = Ok islands.
Proof.
  unfold islands_from_explicit_payload.
  destruct (p_islands payload) as [[|raw rest]|]; try discriminate.
  set (dims := match p_width payload, p_height payload with
               | Some w, Some h => Some (w, h)
               | _, _ => match first_mask (raw :: rest) with
                         | Some sample_mask => let '(h, w) := shape sample_mask in Some (w, h)
                         | None => None
                         end
               end).
  destruct dims as [[w h]|]; [|discriminate].
  destruct ((w <=? 0) || (h <=? 0)) eqn:Hpos; [discriminate|].
  destruct (explicit_loop 0 (raw :: rest) w h) as [[|isl islands']|] eqn:Hl; cbn [bind];
    try discriminate.
  intro H. injection H as <- <- <-.
  exists (raw :: rest). repeat split; try assumption; try lia; discriminate.
Qed.

(** ** Mesh mode: rasterization *)

Lemma has_shape_cell {A : Type} (arr : list (list A)) (rows cols x y : nat) (c : A) :
  has_shape arr rows cols -> cell_at arr x y = Some c -> (x < cols)%nat /\ (y < rows)%nat.
Proof.
  intros [Hlen Hrows] Hc. unfold cell_at in Hc.
  destruct (nth_error arr y) as [row|] eqn:Hy; [|discriminate].
  rewrite Forall_forall in Hrows. specialize (Hrows row (nth_error_In _ _ Hy)).
  split.
  - rewrite <- Hrows. apply nth_error_Some. congruence.
  - rewrite <- Hlen. apply nth_error_Some. congruence.
Qed.

Lemma has_shape_repeat {A : Type} (a : A) (rows cols : nat) :
  has_shape (repeat (repeat a cols) rows) rows cols.
Proof.
  split; [apply repeat_length|].
  apply Forall_forall. intros row Hrow. apply repeat_spec in Hrow. subst row.
  apply repeat_length.
Qed.

Lemma cell_at_paint_window (id_map : list (list Z)) (min_x max_x min_y max_y : Z)
    (mask : Z -> Z -> bool) (island_id background_id : Z) (x y : nat) :
  cell_at (paint_window id_map min_x max_x min_y max_y mask island_id background_id) x y =
  option_map
    (fun c =>
       if (min_y <=? Z.of_nat y) && (Z.of_nat y <=? max_y)
          && (min_x <=? Z.of_nat x) && (Z.of_nat x <=? max_x)
          && mask (Z.of_nat x) (Z.of_nat y) && (c =? background_id)
       then island_id else c)
    (cell_at id_map x y).
Proof.
  unfold cell_at, paint_window.
  rewrite nth_error_map, nth_error_enumerate_from.
  destruct (nth_error id_map y) as [row|]; cbn [option_map]; [|reflexivity].
  rewrite nth_error_map, nth_error_enumerate_from. cbn [fst snd].
  destruct (nth_error row x); reflexivity.
Qed.

Lemma has_shape_paint_window (id_map : list (list Z)) (min_x max_x min_y max_y : Z)
    (mask : Z -> Z -> bool) (island_id background_id : Z) (rows cols : nat) :
  has_shape id_map rows cols ->
  has_shape (paint_window id_map min_x max_x min_y max_y mask island_id background_id)
            rows cols.
Proof.
  intros [Hlen Hrows]. unfold paint_window. split.
  - now rewrite length_map, length_enumerate_from.
  - apply Forall_map, Forall_forall. intros [i row] Hin.
    apply In_enumerate_from in Hin. destruct Hin as (n & _ & Hn).
    cbn [snd]. rewrite length_map, length_enumerate_from.
    rewrite Forall_forall in Hrows. apply Hrows. eapply nth_error_In; eauto.
Qed.

(** What one call of the rasterizer may do to a cell: leave it, or turn a
    background cell into the island's id. *)
Lemma rasterize_cell (id_map : list (list Z)) (tri_px : triangle)
    (island_id background_id : Z) (x y : nat) :
  exists painted : bool,
    cell_at (rasterize_triangle_into_map id_map tri_px island_id background_id) x y =
    option_map (fun c => if painted && (c =? background_id) then island_id else c)
               (cell_at id_map x y).
Proof.
  assert (Hkeep : exists painted : bool,
             cell_at id_map x y =
             option_map (fun c => if painted && (c =? background_id) then island_id else c)
                        (cell_at id_map x y)).
  { exists false. now destruct (cell_at id_map x y). }
  unfold rasterize_triangle_into_map.
  destruct tri_px as [[[x0 y0] [x1 y1]] [x2 y2]].
  destruct (shape id_map) as [rows cols].
  destruct (_ || _); [exact Hkeep|].
  destruct (Qltb _ _); [exact Hkeep|].
  destruct (negb _); [exact Hkeep|].
  eexists. rewrite cell_at_paint_window. reflexivity.
Qed.

Lemma has_shape_rasterize (id_map : list (list Z)) (tri_px : triangle)
    (island_id background_id : Z) (rows cols : nat) :
  has_shape id_map rows cols ->
  has_shape (rasterize_triangle_into_map id_map tri_px island_id background_id) rows cols.
Proof.
  intro H. unfold rasterize_triangle_into_map.
  destruct tri_px as [[[x0 y0] [x1 y1]] [x2 y2]].
  destruct (shape id_map) as [r c].
  destruct (_ || _); [exact H|].
  destruct (Qltb _ _); [exact H|].
  destruct (negb _); [exact H|].
  now apply has_shape_paint_window.
Qed.

(** First writer wins, for one triangle. *)
Lemma rasterize_first_writer (id_map : list (list Z)) (tri_px : triangle)
    (island_id background_id : Z) (x y : nat) (c : Z) :
  cell_at id_map x y = Some c ->
  let c' := cell_at (rasterize_triangle_into_map id_map tri_px island_id background_id) x y in
  (c <> background_id -> c' = Some c) /\
  (c' = Some c \/ (c = background_id /\ c' = Some island_id)).
Proof.
  intros Hc c'. subst c'.
  destruct (rasterize_cell id_map tri_px island_id background_id x y) as [painted ->].
  rewrite Hc. cbn [option_map].
  destruct painted; cbn [andb].
  - destruct (Z.eqb_spec c background_id) as [-> | Hne].
    + split; [congruence | right; split; reflexivity].
    + split; [reflexivity | now left].
  - split; [reflexivity | now left].
Qed.

Lemma rasterize_all_first_writer (width height island_id background_id : Z)
    (comp_tris : list triangle) (id_map : list (list Z)) (x y : nat) (c : Z) :
  cell_at id_map x y = Some c ->
  let c' := cell_at (rasterize_all width height island_id background_id comp_tris id_map) x y in
  (c <> background_id -> c' = Some c) /\
  (c' = Some c \/ (c = background_id /\ c' = Some island_id)).
Proof.
  revert id_map c. unfold rasterize_all.
  induction comp_tris as [|tri rest IH]; intros id_map c Hc; cbn [fold_left].
  - split; [intros _; exact Hc | left; exact Hc].
  - destruct (rasterize_first_writer id_map (uv_to_px tri width height)
                island_id background_id x y c Hc) as [Hkeep Hcase].
    destruct Hcase as [Hsame | [-> Hpaint]].
    + exact (IH _ c Hsame).
    + destruct (IH _ island_id Hpaint) as [Hkeep' Hcase'].
      split; [congruence|].
      destruct (Z.eq_dec island_id background_id) as [E | Hne].
      * rewrite E in *. exact Hcase'.
      * right. split; [reflexivity|]. now apply Hkeep'.
Qed.

Lemma has_shape_rasterize_all (width height island_id background_id : Z)
    (comp_tris : list triangle) (id_map : list (list Z)) (rows cols : nat) :
  has_shape id_map rows cols ->
  has_shape (rasterize_all width height island_id background_id comp_tris id_map) rows cols.
Proof.
  revert id_map. unfold rasterize_all.
  induction comp_tris as [|tri rest IH]; intros id_map H; cbn [fold_left]; [exact H|].
  apply IH. now apply has_shape_rasterize.
Qed.

(** ** Mesh mode: synthetic ids *)

Lemma skip_background_2 (next_island_id background_id : Z) :
  skip_background 2 next_island_id background_id =
  if next_island_id =? background_id then next_island_id + 1 else next_island_id.
Proof.
  cbn [skip_background].
  destruct (Z.eqb_spec next_island_id background_id) as [E | E]; [|reflexivity].
  destruct (Z.eqb_spec (next_island_id + 1) background_id); [lia | reflexivity].
Qed.

(** The [while] loop has left by its second test: more fuel changes nothing. *)
Lemma skip_background_fuel (fuel : nat) (next_island_id background_id : Z) :
  (2 <= fuel)%nat ->
  skip_background fuel next_island_id background_id =
  skip_background 2 next_island_id background_id.
Proof.
  intro H. destruct fuel as [|[|fuel]]; try lia.
  rewrite skip_background_2. cbn [skip_background].
  destruct (Z.eqb_spec next_island_id background_id) as [E | E]; [|reflexivity].
  destruct (Z.eqb_spec (next_island_id + 1) background_id); [lia | reflexivity].
Qed.

Lemma component_island_id_spec (next_island_id background_id : Z) :
  let id := component_island_id next_island_id background_id in
  id <> background_id /\ next_island_id <= id <= next_island_id + 1.
Proof.
  unfold component_island_id. rewrite skip_background_2.
  destruct (Z.eqb_spec next_island_id background_id); lia.
Qed.

Lemma expected_step (background_id k : Z) :
  0 <= k ->
  component_island_id (expected_next background_id k) background_id
  = expected_island_id background_id k /\
  expected_island_id background_id k + 1 = expected_next background_id (k + 1).
Proof.
  intro Hk. unfold component_island_id, expected_island_id, expected_next.
  rewrite skip_background_2.
  destruct (Z.leb_spec 1 background_id); destruct (Z.leb_spec background_id k);
    destruct (Z.leb_spec background_id (k + 1)); cbn [andb];
    match goal with |- context [?a =? ?b] => destruct (Z.eqb_spec a b) end; lia.
Qed.

Lemma mesh_component_inv (width height background_id : Z) (triangles_uv : list triangle)
    (st st' : mesh_state) (comp : list nat) :
  mesh_component width height background_id triangles_uv st comp = Ok st' ->
  exists comp_tris,
    take_triangles triangles_uv comp = Ok comp_tris /\
    let id := component_island_id (m_next_island_id st) background_id in
    let id_map := rasterize_all width height id background_id comp_tris (m_id_map st) in
    m_id_map st' = id_map /\
    m_next_island_id st' = id + 1 /\
    ((where_pixels (Z.eqb id) id_map = [] /\ m_islands st' = m_islands st) \/
     (where_pixels (Z.eqb id) id_map <> [] /\
      m_islands st' =
        m_islands st ++ [mkIsland (IdInt id) (where_pixels (Z.eqb id) id_map) None
                                  (Some (flat_map triangle_corners comp_tris))])).
Proof.
  unfold mesh_component.
  destruct (take_triangles triangles_uv comp) as [comp_tris|]; cbn [bind]; [|discriminate].
  fold (rasterize_all width height
          (component_island_id (m_next_island_id st) background_id) background_id
          comp_tris (m_id_map st)).
  intro H. exists comp_tris. split; [reflexivity|]. cbv zeta.
  destruct (where_pixels _ _) eqn:E; injection H as <-; cbn [m_id_map m_next_island_id m_islands].
  - repeat split. now left.
  - repeat split. right. split; [discriminate | reflexivity].
Qed.

(** ** Mesh mode: the loop over the components *)

Lemma mesh_loop_app (width height background_id : Z) (triangles_uv : list triangle)
    (st : mesh_state) (pre post : list (list nat)) :
  mesh_loop width height background_id triangles_uv st (pre ++ post) =
  (st' <- mesh_loop width height background_id triangles_uv st pre ;;
   mesh_loop width height background_id triangles_uv st' post).
Proof.
  revert st. induction pre as [|comp pre IH]; intro st; cbn [app mesh_loop bind]; [reflexivity|].
  destruct (mesh_component width height background_id triangles_uv st comp); cbn [bind];
    [apply IH | reflexivity].
Qed.

Lemma mesh_loop_next (width height background_id : Z) (triangles_uv : list triangle)
    (components : list (list nat)) (st st' : mesh_state) (k : Z) :
  0 <= k ->
  m_next_island_id st = expected_next background_id k ->
  mesh_loop width height background_id triangles_uv st components = Ok st' ->
  m_next_island_id st' = expected_next background_id (k + Z.of_nat (length components)).
Proof.
  revert st k. induction components as [|comp rest IH]; intros st k Hk Hnext; cbn [mesh_loop].
  - intro H. injection H as <-. cbn [length]. now rewrite Z.add_0_r.
  - destruct (mesh_component width height background_id triangles_uv st comp) as [st1|] eqn:Hc;
      cbn [bind]; [|discriminate].
    intro Hl. apply mesh_component_inv in Hc. destruct Hc as (tris & _ & _ & Hn & _).
    rewrite Hnext in Hn. destruct (expected_step background_id k Hk) as [E1 E2].
    rewrite E1, E2 in Hn.
    rewrite (IH st1 (k + 1) ltac:(lia) Hn Hl). f_equal. cbn [length]. lia.
Qed.

(** C7. In mesh mode the component at (0-based) position [k] of the
    discovery order receives the id [k + 1], or [k + 2] once the background
    id has been stepped over: ids start at 1, grow by one per component and
    never equal the background id.  With background id 1 the first id is 2.
    The island the component yields, if any, carries that id. *)
Theorem mesh_ids_skip_background :
  forall (width height background_id : Z) (triangles_uv : list triangle)
         (id_map : list (list Z)) (pre : list (list nat)) (comp : list nat)
         (st st' : mesh_state),
    mesh_loop width height background_id triangles_uv (mkMeshState id_map 1 []) pre = Ok st ->
    mesh_component width height background_id triangles_uv st comp = Ok st' ->
    let k := Z.of_nat (length pre) in
    let id := component_island_id (m_next_island_id st) background_id in
    id = (if (1 <=? background_id) && (background_id <=? k + 1) then k + 2 else k + 1) /\
    id <> background_id /\
    (forall fuel, (2 <= fuel)%nat -> skip_background fuel (m_next_island_id st) background_id = id) /\
    m_next_island_id st' = id + 1 /\
    (m_islands st' = m_islands st \/
     exists px pts, m_islands st' = m_islands st ++ [mkIsland (IdInt id) px None pts]) /\
    component_island_id 1 1 = 2.
Proof.
  intros width height background_id triangles_uv id_map pre comp st st' Hpre Hcomp k id.
  assert (Hnext : m_next_island_id st = expected_next background_id k).
  { assert (H0 : expected_next background_id 0 = 1).
    { unfold expected_next.
      destruct (Z.leb_spec 1 background_id); destruct (Z.leb_spec background_id 0);
        cbn [andb]; lia. }
    apply (mesh_loop_next _ _ _ _ _ _ _ 0 ltac:(lia)) in Hpre; [exact Hpre|].
    cbn [m_next_island_id]. now rewrite H0. }
  destruct (expected_step background_id k ltac:(lia)) as [E1 _].
  apply mesh_component_inv in Hcomp. destruct Hcomp as (tris & _ & _ & Hn & Hisl).
  split; [subst id; rewrite Hnext; exact E1|].
  split; [apply component_island_id_spec|].
  split; [intros fuel Hfuel; now apply skip_background_fuel|].
  split; [exact Hn|].
  split; [|reflexivity].
  destruct Hisl as [[_ H] | [_ H]]; [now left | right; eauto].
Qed.

Lemma mesh_ids_skip_background_witness :
  component_island_id 1 1 = 2 /\ component_island_id 3 1 = 3.
Proof.
  pose (tris := [((0, 0), (1, 0), (0, 1))%Q]).
  pose (st0 := mkMeshState (repeat (repeat 1 2%nat) 2%nat) 1 []).
  pose (st1 := match mesh_component 2 2 1 tris st0 [0%nat] with Ok s => s | Err _ => st0 end).
  pose (st2 := match mesh_component 2 2 1 tris st1 [0%nat] with Ok s => s | Err _ => st1 end).
  split.
  - exact (proj1 (mesh_ids_skip_background 2 2 1 tris (repeat (repeat 1 2%nat) 2%nat)
                    [] [0%nat] st0 st1 eq_refl eq_refl)).
  - exact (proj1 (mesh_ids_skip_background 2 2 1 tris (repeat (repeat 1 2%nat) 2%nat)
                    [[0%nat]] [0%nat] st1 st2 eq_refl eq_refl)).
Defined.

Lemma mesh_component_first_writer (width height background_id : Z)
    (triangles_uv : list triangle) (st st' : mesh_state) (comp : list nat)
    (x y : nat) (c : Z) :
  mesh_component width height background_id triangles_uv st comp = Ok st' ->
  cell_at (m_id_map st) x y = Some c ->
  (c <> background_id -> cell_at (m_id_map st') x y = Some c) /\
  (cell_at (m_id_map st') x y = Some c \/
   (c = background_id /\
    cell_at (m_id_map st') x y
    = Some (component_island_id (m_next_island_id st) background_id))).
Proof.
  intros Hcomp Hc. apply mesh_component_inv in Hcomp.
  destruct Hcomp as (tris & _ & Hmap & _). rewrite Hmap.
  now apply rasterize_all_first_writer.
Qed.

Lemma mesh_loop_first_writer (width height background_id : Z)
    (triangles_uv : list triangle) (components : list (list nat))
    (st st' : mesh_state) (x y : nat) (c : Z) :
  mesh_loop width height background_id triangles_uv st components = Ok st' ->
  cell_at (m_id_map st) x y = Some c -> c <> background_id ->
  cell_at (m_id_map st') x y = Some c.
Proof.
  revert st. induction components as [|comp rest IH]; intros st; cbn [mesh_loop].
  - intro H. injection H as <-. auto.
  - destruct (mesh_component width height background_id triangles_uv st comp) as [st1|] eqn:Hc;
      cbn [bind]; [|discriminate].
    intros Hl Hcell Hne. apply (IH st1 Hl); [|exact Hne].
    now apply (mesh_component_first_writer _ _ _ _ _ _ _ _ _ _ Hc Hcell).
Qed.

Lemma ForallOrdPairs_snoc {A : Type} (R : A -> A -> Prop) (l : list A) (x : A) :
  ForallOrdPairs R l -> Forall (fun a => R a x) l -> ForallOrdPairs R (l ++ [x]).
Proof.
  induction 1 as [|a l Ha Hl IH]; intro Hx; cbn [app].
  - repeat constructor.
  - inversion Hx as [|? ? Hax Hlx]; subst. constructor.
    + apply Forall_app. split; [exact Ha | now constructor].
    + now apply IH.
Qed.

Lemma where_pixels_wf_shape {A : Type} (cond : A -> bool) (arr : list (list A))
    (rows cols : nat) (id : island_id_t) (uvs pts : option (list uv)) :
  has_shape arr rows cols ->
  Z.of_nat rows <= 2 ^ 31 -> Z.of_nat cols <= 2 ^ 31 ->
  island_wf (Z.of_nat cols) (Z.of_nat rows) (mkIsland id (where_pixels cond arr) uvs pts).
Proof.
  intros Hs Hh Hw. split; cbn [pixels].
  - destruct Hs as [Hlen Hrows]. apply where_pixels_NoDup; [lia|].
    intros row Hrow. rewrite Forall_forall in Hrows. rewrite (Hrows row Hrow). exact Hw.
  - apply Forall_forall. intros p Hp. apply In_where_pixels in Hp.
    destruct Hp as (x & y & c & Hc & _ & ->).
    destruct (has_shape_cell arr rows cols x y c Hs Hc) as [Hx Hy].
    unfold in_canvas. cbn [fst snd]. rewrite !to_int32_small by lia. lia.
Qed.

Section MeshInvariant.

Variables (width height background_id : Z) (triangles_uv : list triangle).
Variables rows cols : nat.
Hypothesis rows_small : Z.of_nat rows <= 2 ^ 31.
Hypothesis cols_small : Z.of_nat cols <= 2 ^ 31.

Lemma mesh_component_preserves_inv (st st' : mesh_state) (comp : list nat) :
  mesh_inv rows cols background_id st ->
  mesh_component width height background_id triangles_uv st comp = Ok st' ->
  mesh_inv rows cols background_id st'.
Proof.
  intros (Hshape & Hwf & Hdisj & Hown) Hcomp.
  pose proof (mesh_component_inv _ _ _ _ _ _ _ Hcomp) as (tris & _ & Hmap & Hnext & Hisl).
  cbv zeta in Hmap, Hnext, Hisl.
  set (id := component_island_id (m_next_island_id st) background_id) in *.
  destruct (component_island_id_spec (m_next_island_id st) background_id) as [Hbg Hid].
  fold id in Hbg, Hid.
  assert (Hshape' : has_shape (m_id_map st') rows cols)
    by (rewrite Hmap; now apply has_shape_rasterize_all).
  assert (Hold : Forall (owns_cells background_id st') (m_islands st)).
  { eapply Forall_impl; [|exact Hown].
    intros isl (i & Ei & Hne & Hlt & Hpx). exists i.
    split; [exact Ei|]. split; [exact Hne|]. split; [lia|].
    intros p Hp. destruct (Hpx p Hp) as (x & y & -> & Hc). exists x, y.
    split; [reflexivity|]. rewrite Hmap.
    now apply (rasterize_all_first_writer width height id background_id tris _ x y i Hc). }
  unfold mesh_inv. destruct Hisl as [[_ ->] | [_ ->]].
  - split; [exact Hshape'|]. split; [exact Hwf|]. split; [exact Hdisj | exact Hold].
  - set (new := mkIsland (IdInt id) (where_pixels (Z.eqb id) (m_id_map st')) None
                         (Some (flat_map triangle_corners tris))).
    rewrite <- Hmap. fold new.
    assert (Hnew : owns_cells background_id st' new).
    { exists id. split; [reflexivity|]. split; [exact Hbg|]. split; [lia|].
      intros p Hp. cbn [pixels new] in Hp. apply In_where_pixels in Hp.
      destruct Hp as (x & y & c & Hc & Ec & ->). apply Z.eqb_eq in Ec. subst c.
      exists x, y. split; [reflexivity | exact Hc]. }
    split; [exact Hshape'|]. split; [|split].
    + apply Forall_app. split; [exact Hwf|]. constructor; [|constructor].
      now apply where_pixels_wf_shape.
    + apply ForallOrdPairs_snoc; [exact Hdisj|].
      rewrite Forall_forall in Hold, Hown. apply Forall_forall. intros isl Hin p Hp Hp'.
      destruct (Hown isl Hin) as (i & Ei & _ & Hlt & _).
      destruct (Hold isl Hin) as (i' & Ei' & _ & _ & Hpx).
      assert (i' = i) by congruence. subst i'.
      destruct (Hpx p Hp) as (x & y & Ep & Hc).
      cbn [pixels new] in Hp'. apply In_where_pixels in Hp'.
      destruct Hp' as (x' & y' & c' & Hc' & Ec' & Heq). apply Z.eqb_eq in Ec'. subst c'.
      destruct (has_shape_cell _ _ _ _ _ _ Hshape' Hc) as [Hx Hy].
      destruct (has_shape_cell _ _ _ _ _ _ Hshape' Hc') as [Hx' Hy'].
      rewrite Ep in Heq. injection Heq as E1 E2.
      rewrite !to_int32_small in E1, E2 by lia.
      assert (x = x') by lia. assert (y = y') by lia. subst x' y'.
      assert (i = id) by congruence. lia.
    + apply Forall_app. split; [exact Hold | now constructor].
Qed.

Lemma mesh_loop_preserves_inv (components : list (list nat)) (st st' : mesh_state) :
  mesh_inv rows cols background_id st ->
  mesh_loop width height background_id triangles_uv st components = Ok st' ->
  mesh_inv rows cols background_id st'.
Proof.
  revert st. induction components as [|comp rest IH]; intros st Hinv; cbn [mesh_loop].
  - intro H. now injection H as <-.
  - destruct (mesh_component width height background_id triangles_uv st comp) as [st1|] eqn:Hc;
      cbn [bind]; [|discriminate].
    apply IH. eapply mesh_component_preserves_inv; eauto.
Qed.

End MeshInvariant.

Lemma islands_from_components_wf (width height background_id : Z)
    (triangles_uv : list triangle) (components : list (list nat))
    (islands : list IslandData) (w h : Z) :
  0 <= width <= 2 ^ 31 -> 0 <= height <= 2 ^ 31 ->
  islands_from_components width height background_id triangles_uv components
    = Ok (islands, w, h) ->
  w = width /\ h = height /\ islands <> [] /\
  Forall (island_wf width height) islands /\ pairwise_disjoint islands.
Proof.
  intros Hw Hh. unfold islands_from_components.
  destruct (int64_ok background_id); [|discriminate].
  destruct (mesh_loop _ _ _ _ _ _) as [st|] eqn:Hl; cbn [bind]; [|discriminate].
  pose proof (mesh_loop_preserves_inv width height background_id triangles_uv
                (Z.to_nat height) (Z.to_nat width) ltac:(lia) ltac:(lia) components
                (mkMeshState (repeat (repeat background_id (Z.to_nat width)) (Z.to_nat height))
                             1 [])
                st)
    as Hinv.
  destruct Hinv as (_ & Hwf & Hdisj & _); [|exact Hl|].
  { split; [apply has_shape_repeat|]. cbn [m_islands]. repeat split; constructor. }
  rewrite !Z2Nat.id in Hwf by lia.
  destruct (m_islands st) as [|isl rest] eqn:E; [discriminate|].
  intro H. injection H as <- <- <-.
  repeat split; try assumption. discriminate.
Qed.

Lemma islands_from_components_dims (width height background_id : Z)
    (triangles_uv : list triangle) (components : list (list nat))
    (islands : list IslandData) (w h : Z) :
  islands_from_components width height background_id triangles_uv components
    = Ok (islands, w, h) ->
  w = width /\ h = height.
Proof.
  unfold islands_from_components.
  destruct (int64_ok background_id); [|discriminate].
  destruct (mesh_loop _ _ _ _ _ _); cbn [bind]; [|discriminate].
  destruct (m_islands _); [discriminate|].
  intro H. injection H as _ <- <-. split; reflexivity.
Qed.

Lemma islands_from_mesh_payload_inv (payload : Payload)
    (islands : list IslandData) (width height : Z) :
  islands_from_mesh_payload payload = Ok (islands, width, height) ->
  mesh_resolved islands width height.
Proof.
  unfold islands_from_mesh_payload.
  destruct ((opt_default (p_width payload) 0 <=? 0) || (opt_default (p_height payload) 0 <=? 0))
    eqn:Hpos; [discriminate|].
  apply orb_false_iff in Hpos. destruct Hpos as [Hw Hh].
  apply Z.leb_gt in Hw, Hh.
  assert (Hgen : forall background_id triangles_uv components,
             islands_from_components (opt_default (p_width payload) 0)
               (opt_default (p_height payload) 0) background_id triangles_uv components
             = Ok (islands, width, height) ->
             mesh_resolved islands width height).
  { intros bg tris comps H.
    destruct (islands_from_components_dims _ _ _ _ _ _ _ _ H) as [Ew Eh].
    rewrite <- Ew in Hw. rewrite <- Eh in Hh. rewrite <- Ew, <- Eh in H.
    split; [exact Hw|]. split; [exact Hh|]. exists bg, tris, comps. exact H. }
  assert (Htri : forall triangles,
             match triangles, parse_triangles triangles with
             | _ :: _, Some triangles_uv =>
                 islands_from_components (opt_default (p_width payload) 0)
                   (opt_default (p_height payload) 0)
                   (opt_default (p_background_id payload) 0) triangles_uv
                   (connected_components_from_raw_triangles triangles_uv)
             | _, _ => Err (ValueError "triangles must be an (M,3,2) array.")
             end = Ok (islands, width, height) ->
             mesh_resolved islands width height).
  { intros [|t ts]; [discriminate|].
    destruct (parse_triangles (t :: ts)); [apply Hgen | discriminate]. }
  assert (Hfaces : forall uv_vertices faces,
             (uv_vertices_arr <- parse_float_points uv_vertices "uv_vertices" ;;
              if negb (forallb (forallb int64_ok) faces) then Err OverflowError
              else
                match faces, rows_to_triples faces with
                | _ :: _, Some faces_arr =>
                    let n := Z.of_nat (length uv_vertices_arr) in
                    let in_range (i : Z) := (0 <=? i) && (i <? n) in
                    if forallb (fun f : Z * Z * Z =>
                                  let '(a, b, c) := f in
                                  in_range a && in_range b && in_range c) faces_arr
                    then
                      let vertex (i : Z) := nth (Z.to_nat i) uv_vertices_arr (0, 0)%Q in
                      let triangles_uv :=
                        map (fun f : Z * Z * Z =>
                               let '(a, b, c) := f in (vertex a, vertex b, vertex c))
                            faces_arr in
                      let components := connected_components_from_faces faces_arr in
                      islands_from_components (opt_default (p_width payload) 0)
                        (opt_default (p_height payload) 0)
                        (opt_default (p_background_id payload) 0) triangles_uv components
                    else Err (ValueError "faces contain out-of-range UV vertex indices.")
                | _, _ => Err (ValueError "faces must be an (M,3) array.")
                end) = Ok (islands, width, height) ->
             mesh_resolved islands width height).
  { intros uv_vertices faces.
    destruct (parse_float_points uv_vertices "uv_vertices") as [arr|]; cbn [bind];
      [|discriminate].
    destruct (negb (forallb (forallb int64_ok) faces)); [discriminate|].
    destruct faces as [|f fs]; [discriminate|].
    destruct (rows_to_triples (f :: fs)) as [faces_arr|]; [|discriminate].
    cbv zeta. destruct (forallb _ faces_arr); [apply Hgen | discriminate]. }
  destruct (p_uv_vertices payload) as [uv_vertices|];
    destruct (p_faces payload) as [faces|];
    destruct (p_triangles payload) as [triangles|];
    try discriminate; try apply Hfaces; apply Htri.
Qed.

Lemma mesh_resolved_wf (islands : list IslandData) (width height : Z) :
  mesh_resolved islands width height ->
  width <= 2 ^ 31 -> height <= 2 ^ 31 ->
  islands <> [] /\ Forall (island_wf width height) islands /\ pairwise_disjoint islands.
Proof.
  intros (Hw & Hh & bg & tris & comps & H) Hw' Hh'.
  assert (Bw : 0 <= width <= 2 ^ 31) by lia.
  assert (Bh : 0 <= height <= 2 ^ 31) by lia.
  destruct (islands_from_components_wf _ _ _ _ _ _ _ _ Bw Bh H)
    as (_ & _ & Hne & Hwf & Hdisj).
  repeat split; assumption.
Qed.

(** C8. During mesh-mode rasterization a cell is painted only while it
    holds the background id: one triangle leaves every cell as it was or
    turns a background cell into its island's id; a cell that holds another
    id is not changed by any later triangle or component; and in what the
    resolver returns no pixel belongs to two islands. *)
Theorem mesh_rasterization_first_writer_wins :
  (forall (id_map : list (list Z)) (tri_px : triangle) (island_id background_id : Z)
          (x y : nat) (c : Z),
      cell_at id_map x y = Some c ->
      let c' := cell_at (rasterize_triangle_into_map id_map tri_px island_id background_id) x y in
      (c <> background_id -> c' = Some c) /\
      (c' = Some c \/ (c = background_id /\ c' = Some island_id))) /\
  (forall (width height background_id : Z) (triangles_uv : list triangle)
          (components : list (list nat)) (st st' : mesh_state) (x y : nat) (c : Z),
      mesh_loop width height background_id triangles_uv st components = Ok st' ->
      cell_at (m_id_map st) x y = Some c -> c <> background_id ->
      cell_at (m_id_map st') x y = Some c) /\
  (forall (payload : Payload) (islands : list IslandData) (width height : Z),
      islands_from_mesh_payload payload = Ok (islands, width, height) ->
      width <= 2 ^ 31 -> height <= 2 ^ 31 ->
      pairwise_disjoint islands).
Proof.
  split; [exact rasterize_first_writer|].
  split; [exact mesh_loop_first_writer|].
  intros payload islands width height H Hw Hh.
  apply islands_from_mesh_payload_inv in H.
  now destruct (mesh_resolved_wf islands width height H Hw Hh) as (_ & _ & Hd).
Qed.

Lemma mesh_rasterization_first_writer_wins_witness :
  islands_from_mesh_payload overlapping_mesh = Ok (overlapping_mesh_islands, 3, 3) /\
  pairwise_disjoint overlapping_mesh_islands.
Proof.
  split; [vm_compute; reflexivity|].
  apply (proj2 (proj2 mesh_rasterization_first_writer_wins) overlapping_mesh _ 3 3).
  - vm_compute. reflexivity.
  - lia.
  - lia.
Defined.

(** ** The resolver, over its three modes *)

Lemma rectangular_map_map {A B : Type} (f : A -> B) (rows : list (list A)) :
  rectangular rows -> rectangular (map (map f) rows).
Proof.
  intros Hrect row Hrow. apply in_map_iff in Hrow. destruct Hrow as (row0 & <- & Hin).
  rewrite length_map, (Hrect row0 Hin).
  destruct rows as [|r rs]; [contradiction|]. cbn [map hd]. now rewrite length_map.
Qed.

Lemma load_id_map_rectangular (img : image_array) (ids : list (list Z)) :
  load_id_map img = Ok ids -> image_rectangular img -> rectangular ids.
Proof.
  destruct img as [rows | channels rows]; cbn [load_id_map image_rectangular].
  - intro H. now injection H as <-.
  - destruct (3 <=? channels)%nat; [|discriminate].
    destruct (4 <=? channels)%nat; intro H; injection H as <-; apply rectangular_map_map.
Qed.

(** C2, as the code has it.  Every island the resolver returns, in any of
    the three modes and on a canvas of at most 2^31 by 2^31 pixels, has
    unique pixel coordinates, all within [0,width) x [0,height).  The pixel
    sets are pairwise disjoint in ID-map mode and in mesh mode; in explicit
    mode they are pairwise disjoint when no two descriptors name a common
    canvas pixel. *)
Theorem resolved_islands_well_formed :
  forall (payload : Payload) (cli_id_map : option image_array)
         (background_id_override : option Z)
         (islands : list IslandData) (width height : Z),
    load_islands payload cli_id_map background_id_override = Ok (islands, width, height) ->
    width <= 2 ^ 31 -> height <= 2 ^ 31 ->
    (forall img, selected_id_map payload cli_id_map = Some img -> image_rectangular img) ->
    Forall (island_wf width height) islands /\
    (selected_id_map payload cli_id_map <> None \/ p_islands payload = None ->
     pairwise_disjoint islands) /\
    (forall islands_raw,
        p_islands payload = Some islands_raw ->
        ForallOrdPairs (disjoint_sources width height) islands_raw ->
        pairwise_disjoint islands).
Proof.
  intros payload cli_id_map bgo islands width height Hload Hw Hh Himg.
  unfold load_islands in Hload. fold (selected_id_map payload cli_id_map) in Hload.
  destruct (selected_id_map payload cli_id_map) as [img|] eqn:Esel.
  - (* ID-map mode *)
    destruct (load_id_map img) as [ids|] eqn:Eids; cbn [bind] in Hload; [|discriminate].
    pose proof (load_id_map_rectangular img ids Eids (Himg img eq_refl)) as Hrect.
    destruct (islands_from_id_map_wf _ _ _ _ _ Hload Hrect Hw Hh) as [Hwf Hdisj].
    split; [exact Hwf|]. split; intros; exact Hdisj.
  - destruct (p_islands payload) as [raws|] eqn:Eraw.
    + (* explicit mode *)
      apply islands_from_explicit_payload_inv in Hload.
      destruct Hload as (raws' & Eraw' & _ & _ & _ & Hloop).
      rewrite Eraw in Eraw'. injection Eraw' as <-.
      split; [now apply (explicit_loop_wf 0 raws)|].
      split.
      * intros [Hc | Hc]; congruence.
      * intros raws' E Hsrc. injection E as <-.
        now apply (explicit_loop_disjoint 0 raws width height).
    + (* mesh mode *)
      assert (Hmesh : islands_from_mesh_payload payload = Ok (islands, width, height)).
      { destruct (p_uv_vertices payload), (p_triangles payload);
          try exact Hload; discriminate. }
      apply islands_from_mesh_payload_inv in Hmesh.
      destruct (mesh_resolved_wf islands width height Hmesh Hw Hh) as (_ & Hwf & Hdisj).
      split; [exact Hwf|]. split; [intros _; exact Hdisj | discriminate].
Qed.

(** C2 as stated fails in explicit mode: both descriptors above are
    resolved, to two islands that share their pixel. *)
Lemma explicit_islands_may_overlap :
  exists a b : IslandData,
    load_islands overlapping_descriptors None None = Ok ([a; b], 1, 1) /\
    In (0, 0) (pixels a) /\ In (0, 0) (pixels b) /\
    ~ pairwise_disjoint [a; b].
Proof.
  exists (mkIsland (IdStr "a") [(0, 0)] None None), (mkIsland (IdStr "b") [(0, 0)] None None).
  split; [vm_compute; reflexivity|].
  split; [now left|]. split; [now left|].
  intro H. inversion H as [|? ? Hhead _]; subst.
  inversion Hhead as [|? ? Hab _]; subst.
  apply (Hab (0, 0)); now left.
Qed.

Lemma resolved_islands_well_formed_witness :
  Forall (island_wf 3 3) overlapping_mesh_islands /\
  pairwise_disjoint overlapping_mesh_islands.
Proof.
  assert (Hload : load_islands overlapping_mesh None None
                  = Ok (overlapping_mesh_islands, 3, 3)) by (vm_compute; reflexivity).
  destruct (resolved_islands_well_formed overlapping_mesh None None
              overlapping_mesh_islands 3 3 Hload ltac:(lia) ltac:(lia)
              ltac:(discriminate)) as (Hwf & Hdisj & _).
  split; [exact Hwf|]. apply Hdisj. now right.
Defined.

(** ** Explicit mode: per-pixel UVs of the wrong length *)

(** C10. When the [uvs] of a descriptor parse as an (N,2) array whose row
    count differs from the number of pixels left after clipping and
    deduplication, no error is raised: the island is built without per-pixel
    UVs, and the compositor shades it with UVs inferred from the pixel
    positions, u = (x + 0.5) / width and v = 1 - (y + 0.5) / height. *)
Theorem mismatched_uvs_are_ignored :
  forall (idx : nat) (entry : entry_fields) (width height : Z)
         (src : list pixel) (p : pixel) (ps : list pixel)
         (raw_uvs : list (list Q)) (uvs : list uv) (pts : option (list uv)),
    entry_source entry = Ok src ->
    normalize_pixels src width height = p :: ps ->
    e_uvs entry = Some raw_uvs ->
    parse_float_points raw_uvs "islands[].uvs" = Ok uvs ->
    length uvs <> length (p :: ps) ->
    entry_uv_points entry = Ok pts ->
    0 < width -> 0 < height ->
    let island :=
      mkIsland (opt_default (e_id entry) (IdInt (Z.of_nat idx + 1))) (p :: ps) None pts in
    explicit_entry idx (Entry entry) width height = Ok (Some island) /\
    island_pixel_uvs width height island = infer_uvs_from_pixels (p :: ps) width height /\
    island_pixel_uvs width height island =
      map (fun q : pixel =>
             ((inject_Z (fst q) + 0.5) / inject_Z width,
              1.0 - (inject_Z (snd q) + 0.5) / inject_Z height)%Q) (p :: ps).
Proof.
  intros idx entry width height src p ps raw_uvs uvs pts Hsrc Hnorm Huvs Hparse Hlen Hpts
         Hw Hh. cbv zeta.
  split; [|split].
  - cbn [explicit_entry]. fold (entry_source entry). rewrite Hsrc. cbn [bind].
    rewrite Hnorm, Huvs, Hparse. cbn [bind].
    apply Nat.eqb_neq in Hlen. rewrite Hlen. cbn [bind].
    fold (entry_uv_points entry). rewrite Hpts. cbn [bind].
    unfold opt_default. now destruct (e_id entry).
  - reflexivity.
  - unfold island_pixel_uvs, infer_uvs_from_pixels. cbn [pixel_uvs pixels].
    apply map_ext. intros [x y]. cbn [fst snd].
    now rewrite !Z.max_r by lia.
Qed.

Lemma mismatched_uvs_are_ignored_witness :
  let entry := mkEntry None (Some [[0; 0]; [1; 1]]) None (Some [[0; 0]]%Q) None in
  explicit_entry 0 (Entry entry) 2 2
  = Ok (Some (mkIsland (IdInt 1) [(0, 0); (1, 1)] None None)) /\
  island_pixel_uvs 2 2 (mkIsland (IdInt 1) [(0, 0); (1, 1)] None None)
  = infer_uvs_from_pixels [(0, 0); (1, 1)] 2 2.
Proof.
  intro entry.
  destruct (mismatched_uvs_are_ignored 0 entry 2 2 [(0, 0); (1, 1)] (0, 0) [(1, 1)]
              [[0; 0]]%Q [(0, 0)]%Q None
              eq_refl eq_refl eq_refl eq_refl ltac:(discriminate) eq_refl
              ltac:(lia) ltac:(lia)) as (H1 & H2 & _).
  split; [exact H1 | exact H2].
Defined.

(** ** Empty results *)

(** Explicit mode and mesh mode refuse an input that yields no island. *)
Lemma explicit_mode_rejects_empty (payload : Payload) (width height : Z) :
  islands_from_explicit_payload payload <> Ok ([], width, height).
Proof.
  intro H. apply islands_from_explicit_payload_inv in H.
  destruct H as (_ & _ & _ & _ & Hne & _). now apply Hne.
Qed.

Lemma mesh_mode_rejects_empty (payload : Payload) (width height : Z) :
  islands_from_mesh_payload payload <> Ok ([], width, height).
Proof.
  intro H. apply islands_from_mesh_payload_inv in H.
  destruct H as (_ & _ & bg & tris & comps & H).
  unfold islands_from_components in H.
  destruct (int64_ok bg); [|discriminate].
  destruct (mesh_loop _ _ _ _ _ _); cbn [bind] in H; [|discriminate].
  destruct (m_islands _); discriminate.
Qed.

(** A resolver error ends the pipeline: no raster is built. *)
Lemma main_stops_on_resolver_error (eigh : mat2 -> option (Q * Q * mat2))
    (vec_norm : uv -> Q) (args : Args) (e : error) :
  load_islands (opt_default (a_input args) empty_payload) (a_id_map args)
               (a_background_id args) = Err e ->
  main eigh vec_norm args = Err e.
Proof.
  intro H. unfold main. now rewrite H.
Qed.


Lemma id_map_background_only (ids : list (list Z)) (background_id : Z) :
  Forall (Forall (eq background_id)) ids ->
  islands_from_id_map ids background_id = Ok ([], snd (shape ids), fst (shape ids)).
Proof.
  intro Hall. unfold islands_from_id_map, shape. cbn [fst snd].
  assert (Hnone : filter (fun v => negb (v =? background_id))
                         (np_unique Z.compare (concat ids)) = []).
  { destruct (filter _ _) as [|v vs] eqn:E; [reflexivity|]. exfalso.
    assert (Hv : In v (v :: vs)) by now left.
    rewrite <- E in Hv. apply filter_In in Hv. destruct Hv as [Hin Hne].
    rewrite (np_unique_In Z.compare Z.compare_eq) in Hin.
    apply in_concat in Hin. destruct Hin as (row & Hrow & Hin).
    rewrite Forall_forall in Hall. specialize (Hall row Hrow).
    rewrite Forall_forall in Hall. rewrite <- (Hall v Hin) in Hne.
    now rewrite Z.eqb_refl in Hne. }
  rewrite Hnone. reflexivity.
Qed.

(** ** Packed ids and transparent pixels *)

Lemma pack_rgb_24_bit (r g b : Z) (rest : list Z) :
  0 <= r < 256 -> 0 <= g < 256 -> 0 <= b < 256 ->
  pack_rgb (r :: g :: b :: rest) = r * 65536 + g * 256 + b /\
  0 <= pack_rgb (r :: g :: b :: rest) < 2 ^ 24.
Proof.
  intros Hr Hg Hb. unfold pack_rgb, channel. cbn [nth].
  assert (E : Z.lor (Z.lor (Z.shiftl r 16) (Z.shiftl g 8)) b = r * 65536 + g * 256 + b).
  { rewrite !Z.shiftl_mul_pow2 by lia.
    change (2 ^ 16) with 65536. change (2 ^ 8) with 256.
    assert (E1 : Z.lor (r * 65536) (g * 256) = r * 65536 + g * 256).
    { rewrite <- Z.lxor_lor, <- Z.add_nocarry_lxor; [reflexivity| |];
        apply Z.bits_inj'; intros n Hn; rewrite Z.land_spec, Z.bits_0;
        destruct (Z.lt_ge_cases n 16) as [Hlt | Hge].
      - replace (r * 65536) with (r * 2 ^ 16) by reflexivity.
        rewrite Z.mul_pow2_bits_low by lia. reflexivity.
      - replace (g * 256) with (g * 2 ^ 8) by reflexivity.
        rewrite (Z.mul_pow2_bits _ 8) by lia.
        rewrite (Z.bits_above_log2 g (n - 8)); [apply andb_false_r | lia |].
        destruct (Z.eq_dec g 0) as [-> | Hg0]; [cbn; lia|].
        assert (Z.log2 g < 8) by (apply Z.log2_lt_pow2; lia). lia.
      - replace (r * 65536) with (r * 2 ^ 16) by reflexivity.
        rewrite Z.mul_pow2_bits_low by lia. reflexivity.
      - replace (g * 256) with (g * 2 ^ 8) by reflexivity.
        rewrite (Z.mul_pow2_bits _ 8) by lia.
        rewrite (Z.bits_above_log2 g (n - 8)); [apply andb_false_r | lia |].
        destruct (Z.eq_dec g 0) as [-> | Hg0]; [cbn; lia|].
        assert (Z.log2 g < 8) by (apply Z.log2_lt_pow2; lia). lia. }
    rewrite E1.
    rewrite <- Z.lxor_lor, <- Z.add_nocarry_lxor; [reflexivity| |];
      apply Z.bits_inj'; intros n Hn; rewrite Z.land_spec, Z.bits_0;
      destruct (Z.lt_ge_cases n 8) as [Hlt | Hge].
    - replace (r * 65536 + g * 256) with ((r * 256 + g) * 2 ^ 8) by (change (2 ^ 8) with 256; lia).
      rewrite Z.mul_pow2_bits_low by lia. reflexivity.
    - rewrite (Z.bits_above_log2 b n); [apply andb_false_r | lia |].
      destruct (Z.eq_dec b 0) as [-> | Hb0]; [cbn; lia|].
      assert (Z.log2 b < 8) by (apply Z.log2_lt_pow2; lia). lia.
    - replace (r * 65536 + g * 256) with ((r * 256 + g) * 2 ^ 8) by (change (2 ^ 8) with 256; lia).
      rewrite Z.mul_pow2_bits_low by lia. reflexivity.
    - rewrite (Z.bits_above_log2 b n); [apply andb_false_r | lia |].
      destruct (Z.eq_dec b 0) as [-> | Hb0]; [cbn; lia|].
      assert (Z.log2 b < 8) by (apply Z.log2_lt_pow2; lia). lia. }
  rewrite E. split; [reflexivity|]. change (2 ^ 24) with 16777216. lia.
Qed.

(** With four channels, a cell of the ID map is 0 where alpha is 0 and the
    packed colour elsewhere. *)
Lemma load_id_map_rgba_cell (channels : nat) (rows : list (list (list Z)))
    (ids : list (list Z)) (x y : nat) :
  (4 <= channels)%nat ->
  load_id_map (Multi channels rows) = Ok ids ->
  cell_at ids x y =
  option_map (fun px => if channel px 3 =? 0 then 0 else pack_rgb px) (cell_at rows x y).
Proof.
  intros Hch. cbn [load_id_map].
  replace (3 <=? channels)%nat with true by (symmetry; apply Nat.leb_le; lia).
  replace (4 <=? channels)%nat with true by (symmetry; apply Nat.leb_le; lia).
  intro H. injection H as <-. unfold cell_at.
  rewrite nth_error_map. destruct (nth_error rows y) as [row|]; cbn [option_map]; [|reflexivity].
  now rewrite nth_error_map.
Qed.

(** With the default background id 0, a fully transparent pixel belongs to
    no island. *)
Lemma transparent_pixels_default_background (channels : nat)
    (rows : list (list (list Z))) (ids : list (list Z))
    (islands : list IslandData) (width height : Z) (x y : nat) (px : list Z) :
  (4 <= channels)%nat ->
  load_id_map (Multi channels rows) = Ok ids ->
  islands_from_id_map ids 0 = Ok (islands, width, height) ->
  rectangular rows -> width <= 2 ^ 31 -> height <= 2 ^ 31 ->
  cell_at rows x y = Some px -> channel px 3 = 0 ->
  forall island, In island islands ->
                 ~ In (Z.of_nat x, Z.of_nat y) (pixels island).
Proof.
  intros Hch Hload Hres Hrect Hw Hh Hcell Halpha island Hin Hp.
  assert (Hrect' : rectangular ids)
    by (eapply load_id_map_rectangular; [exact Hload | exact Hrect]).
  pose proof (load_id_map_rgba_cell channels rows ids x y Hch Hload) as Hid.
  rewrite Hcell in Hid. cbn [option_map] in Hid. rewrite Halpha in Hid. cbn in Hid.
  apply islands_from_id_map_shape in Hres. destruct Hres as (-> & -> & ->).
  apply id_map_island_In in Hin. destruct Hin as (a & Ha & ->).
  apply py_sorted_In, filter_In in Ha. destruct Ha as [_ Ha].
  cbn [pixels] in Hp. apply In_where_pixels in Hp.
  destruct Hp as (x' & y' & c & Hc & Ec & Heq). apply Z.eqb_eq in Ec. subst c.
  destruct (rectangular_cell ids x y 0 Hrect' Hid) as [Bx By].
  rewrite <- (to_int32_small (Z.of_nat x)), <- (to_int32_small (Z.of_nat y)) in Heq by lia.
  destruct (where_pixels_cell ids x y x' y' 0 a Hrect' Hh Hw Hid Hc Heq) as [-> ->].
  assert (a = 0) by congruence. subst a. discriminate.
Qed.

(** ** Component discovery terminates within its fuel *)

Lemma update_nth_length {A : Type} (i : nat) (f : A -> A) (l : list A) :
  length (update_nth i f l) = length l.
Proof.
  revert i. induction l as [|a l IH]; intros [|i]; cbn [update_nth length]; auto.
Qed.

Lemma set_visited_unvisited (visited : list bool) (i : nat) :
  (i < length visited)%nat -> nth i visited false = false ->
  S (unvisited (set_visited visited i)) = unvisited visited.
Proof.
  unfold unvisited, set_visited. revert i.
  induction visited as [|b visited IH]; intros [|i] Hlt Hnth; cbn [length] in Hlt; try lia.
  - cbn [nth] in Hnth. subst b. reflexivity.
  - cbn [nth] in Hnth. cbn [update_nth filter].
    specialize (IH i ltac:(lia) Hnth).
    destruct b; cbn [negb length]; lia.
Qed.

Lemma visit_neighbours_measure (nbrs stack : list nat) (visited : list bool)
    (stack' : list nat) (visited' : list bool) :
  (forall k, In k nbrs -> (k < length visited)%nat) ->
  visit_neighbours nbrs stack visited = (stack', visited') ->
  length visited' = length visited /\
  (unvisited visited' + length stack' = unvisited visited + length stack)%nat.
Proof.
  unfold visit_neighbours. revert stack visited.
  induction nbrs as [|k nbrs IH]; intros stack visited Hrange; cbn [fold_left].
  - intro H. injection H as <- <-. split; reflexivity.
  - cbn [fst snd].
    assert (Hk : (k < length visited)%nat) by (apply Hrange; now left).
    destruct (nth k visited false) eqn:E; intro H.
    + apply IH in H; [exact H | intros; apply Hrange; now right].
    + apply IH in H.
      * destruct H as [Hlen Hm]. unfold set_visited in Hlen. rewrite update_nth_length in Hlen.
        split; [exact Hlen|].
        pose proof (set_visited_unvisited visited k Hk E). cbn [length] in Hm. lia.
      * intros j Hj. unfold set_visited. rewrite update_nth_length. apply Hrange. now right.
Qed.

Lemma dfs_component_fuel (fuel extra : nat) (adj : nat -> list nat)
    (stack : list nat) (visited : list bool) (comp : list nat) :
  (forall t k, In k (adj t) -> (k < length visited)%nat) ->
  (unvisited visited + length stack <= fuel)%nat ->
  dfs_component (fuel + extra) adj stack visited comp
  = dfs_component fuel adj stack visited comp.
Proof.
  revert stack visited comp.
  induction fuel as [|fuel IH]; intros stack visited comp Hrange Hm.
  - destruct stack; cbn [length] in Hm; [|lia]. now destruct extra.
  - destruct stack as [|t stack]; [reflexivity|]. cbn [Nat.add dfs_component].
    destruct (visit_neighbours (adj t) stack visited) as [stack' visited'] eqn:E.
    destruct (visit_neighbours_measure _ _ _ _ _ (Hrange t) E) as [Hlen Hm'].
    apply IH.
    + intros t' k Hk. rewrite Hlen. eapply Hrange; eauto.
    + cbn [length] in Hm. lia.
Qed.

Lemma dfs_component_length (fuel : nat) (adj : nat -> list nat)
    (stack : list nat) (visited : list bool) (comp : list nat) :
  (forall t k, In k (adj t) -> (k < length visited)%nat) ->
  length (snd (dfs_component fuel adj stack visited comp)) = length visited.
Proof.
  revert stack visited comp.
  induction fuel as [|fuel IH]; intros stack visited comp Hrange; [reflexivity|].
  destruct stack as [|t stack]; [reflexivity|]. cbn [dfs_component].
  destruct (visit_neighbours (adj t) stack visited) as [stack' visited'] eqn:E.
  destruct (visit_neighbours_measure _ _ _ _ _ (Hrange t) E) as [Hlen _].
  rewrite IH; [exact Hlen|]. intros t' k Hk. rewrite Hlen. eapply Hrange; eauto.
Qed.

Lemma unvisited_le_length (visited : list bool) : (unvisited visited <= length visited)%nat.
Proof. apply filter_length_le. Qed.

Lemma components_loop_fuel (n extra : nat) (adj : nat -> list nat)
    (starts : list nat) (visited : list bool) :
  length visited = n ->
  (forall t k, In k (adj t) -> (k < n)%nat) ->
  (forall s, In s starts -> (s < n)%nat) ->
  components_loop (n + extra) adj starts visited = components_loop n adj starts visited.
Proof.
  intros Hlen Hadj. revert visited Hlen.
  induction starts as [|start rest IH]; intros visited Hlen Hstarts; [reflexivity|].
  cbn [components_loop].
  destruct (nth start visited false) eqn:E.
  - apply IH; [exact Hlen | intros; apply Hstarts; now right].
  - assert (Hs : (start < length visited)%nat) by (rewrite Hlen; apply Hstarts; now left).
    assert (Hlen' : length (set_visited visited start) = n)
      by (unfold set_visited; now rewrite update_nth_length).
    assert (Hrange : forall t k, In k (adj t) -> (k < length (set_visited visited start))%nat)
      by (intros; rewrite Hlen'; eauto).
    rewrite dfs_component_fuel; [|exact Hrange|].
    2:{ pose proof (set_visited_unvisited visited start Hs E).
        pose proof (unvisited_le_length visited). cbn [length]. lia. }
    pose proof (dfs_component_length n adj [start] (set_visited visited start) [] Hrange) as Hl.
    destruct (dfs_component n adj [start] (set_visited visited start) []) as [comp visited'].
    cbn [snd] in Hl.
    rewrite IH; [reflexivity | congruence | intros; apply Hstarts; now right].
Qed.

Lemma adjacency_in_range {K : Type} (eqb : K -> K -> bool) (corners : list (list K))
    (t k : nat) :
  In k (adjacency eqb corners t) -> (k < length corners)%nat.
Proof.
  unfold adjacency, triangles_by_key. intro H.
  apply in_flat_map in H. destruct H as (key & _ & H).
  apply in_flat_map in H. destruct H as ([i c] & Hic & H). cbn [fst snd] in H.
  apply in_flat_map in H. destruct H as (c0 & _ & H).
  destruct (eqb c0 key); [|contradiction]. destruct H as [<- | []].
  apply in_combine_l, in_seq in Hic. lia.
Qed.

(** The components of a face list do not depend on the fuel of the
    traversal once it is the number of faces: the [while] loop has emptied
    its stack by then. *)
Lemma connected_components_from_faces_fuel (faces : list (Z * Z * Z)) (extra : nat) :
  let corners := map (fun f : Z * Z * Z => let '(a, b, c) := f in [a; b; c]) faces in
  components_loop (length faces + extra) (adjacency Z.eqb corners)
                  (seq 0 (length faces)) (repeat false (length faces))
  = connected_components_from_faces faces.
Proof.
  intro corners. unfold connected_components_from_faces, connected_components.
  apply components_loop_fuel.
  - apply repeat_length.
  - intros t k Hk. apply adjacency_in_range in Hk. unfold corners in Hk.
    now rewrite length_map in Hk.
  - intros s Hs. apply in_seq in Hs. lia.
Qed.

Lemma connected_components_from_raw_triangles_fuel (triangles_uv : list triangle)
    (extra : nat) :
  let corners :=
    map (fun t : triangle =>
           let '(p0, p1, p2) := t in
           [quantized_uv_key (fst p0) (snd p0);
            quantized_uv_key (fst p1) (snd p1);
            quantized_uv_key (fst p2) (snd p2)]) triangles_uv in
  components_loop (length triangles_uv + extra) (adjacency key_eqb corners)
                  (seq 0 (length triangles_uv)) (repeat false (length triangles_uv))
  = connected_components_from_raw_triangles triangles_uv.
Proof.
  intro corners. unfold connected_components_from_raw_triangles, connected_components.
  apply components_loop_fuel.
  - apply repeat_length.
  - intros t k Hk. apply adjacency_in_range in Hk. unfold corners in Hk.
    now rewrite length_map in Hk.
  - intros s Hs. apply in_seq in Hs. lia.
Qed.

(** * Further properties of the code *)

(** ** Pixel normalisation *)

Lemma np_unique_sorted_id {A : Type} (cmp : A -> A -> comparison) (l : list A) :
  StronglySorted (cmp_lt cmp) l -> np_unique cmp l = l.
Proof.
  induction 1 as [|a l Hs IH Ha]; [reflexivity|].
  unfold np_unique in *. cbn [fold_right]. rewrite IH.
  destruct l as [|b l']; [reflexivity|]. cbn [insert_unique].
  inversion Ha as [|? ? Hab _]; subst. unfold cmp_lt in Hab. now rewrite Hab.
Qed.

Lemma filter_all {A : Type} (f : A -> bool) (l : list A) :
  Forall (fun a => f a = true) l -> filter f l = l.
Proof.
  induction 1 as [|a l Ha _ IH]; [reflexivity|]. cbn [filter]. now rewrite Ha, IH.
Qed.

Lemma map_id_on {A : Type} (f : A -> A) (l : list A) :
  Forall (fun a => f a = a) l -> map f l = l.
Proof.
  induction 1 as [|a l Ha _ IH]; [reflexivity|]. cbn [map]. now rewrite Ha, IH.
Qed.

(** X1. [normalize_pixels] returns the pixels of its argument that lie on
    the canvas, each once, in lexicographic order of (x, y); normalising a
    second time changes nothing. *)
Theorem normalize_pixels_sorted_exact :
  forall (px : list pixel) (width height : Z),
    width <= 2 ^ 31 -> height <= 2 ^ 31 ->
    let out := normalize_pixels px width height in
    StronglySorted
      (fun p q : pixel => fst p < fst q \/ (fst p = fst q /\ snd p < snd q)) out /\
    NoDup out /\
    (forall p, In p out <-> In p px /\ in_canvas width height p) /\
    normalize_pixels out width height = out.
Proof.
  intros px width height Hw Hh out.
  assert (Hsorted : StronglySorted (cmp_lt pixel_compare) out).
  { subst out. rewrite normalize_pixels_eq.
    apply np_unique_sorted; [apply pixel_compare_eq | apply pixel_compare_gt
                            | apply pixel_compare_trans]. }
  assert (Hin : forall p, In p out <-> In p px /\ in_canvas width height p)
    by (intro p; now apply normalize_pixels_In).
  split; [|split; [|split]].
  - clear Hin. induction Hsorted as [|a l Hs IH Ha]; constructor; [exact IH|].
    eapply Forall_impl; [|exact Ha]. intros q Hq. now apply pixel_compare_lt.
  - apply normalize_pixels_NoDup.
  - exact Hin.
  - rewrite normalize_pixels_eq.
    assert (Hcanvas : Forall (in_canvas width height) out)
      by (apply Forall_forall; intros p Hp; now apply Hin).
    rewrite filter_all.
    + rewrite map_id_on; [now apply np_unique_sorted_id|].
      eapply Forall_impl; [|exact Hcanvas]. intros [x y] [Hx Hy]. cbn [fst snd] in *.
      now rewrite !to_int32_small by lia.
    + eapply Forall_impl; [|exact Hcanvas]. intros [x y] [Hx Hy]. cbn [fst snd] in *.
      apply andb_true_iff; split; [apply andb_true_iff; split;
        [apply andb_true_iff; split|]|]; lia.
Qed.

Lemma normalize_pixels_sorted_exact_witness :
  normalize_pixels [(1, 1); (0, 5); (1, 0); (1, 1); (-1, 0)] 2 2 = [(1, 0); (1, 1)] /\
  normalize_pixels [(1, 0); (1, 1)] 2 2 = [(1, 0); (1, 1)].
Proof.
  split; [reflexivity|].
  exact (proj2 (proj2 (proj2
           (normalize_pixels_sorted_exact [(1, 1); (0, 5); (1, 0); (1, 1); (-1, 0)] 2 2
              ltac:(lia) ltac:(lia))))).
Defined.

(** ** ID-map mode: the islands partition the foreground *)

Lemma py_sorted_sorted_id (l : list Z) : StronglySorted Z.lt l -> py_sorted l = l.
Proof.
  induction 1 as [|a l Hs IH Ha]; [reflexivity|].
  unfold py_sorted in *. cbn [fold_right]. rewrite IH.
  destruct l as [|b l']; [reflexivity|]. cbn [insert_sorted].
  inversion Ha as [|? ? Hab _]; subst. apply Z.ltb_lt in Hab. now rewrite Hab.
Qed.

Lemma StronglySorted_filter {A : Type} (R : A -> A -> Prop) (f : A -> bool) (l : list A) :
  StronglySorted R l -> StronglySorted R (filter f l).
Proof.
  induction 1 as [|a l Hs IH Ha]; [constructor|]. cbn [filter].
  destruct (f a); [|exact IH]. constructor; [exact IH|].
  apply Forall_forall. intros b Hb. apply filter_In in Hb.
  rewrite Forall_forall in Ha. now apply Ha.
Qed.

Lemma unique_ids_sorted (ids : list (list Z)) (background_id : Z) :
  StronglySorted Z.lt
    (filter (fun v => negb (v =? background_id)) (np_unique Z.compare (concat ids))).
Proof.
  apply StronglySorted_filter.
  pose proof (np_unique_sorted Z.compare Z.compare_eq Z_compare_gt Z_compare_trans
                (concat ids)) as H.
  induction H as [|a l Hs IH Ha]; constructor; [exact IH|].
  eapply Forall_impl; [|exact Ha]. intros b Hb. now apply Z.compare_lt_iff.
Qed.

Lemma cell_in_concat {A : Type} (arr : list (list A)) (x y : nat) (c : A) :
  cell_at arr x y = Some c -> In c (concat arr).
Proof.
  unfold cell_at. destruct (nth_error arr y) as [row|] eqn:E; [|discriminate].
  intro H. apply in_concat. exists row. split; eapply nth_error_In; eauto.
Qed.

(** The island list of ID-map mode, one island per foreground value. *)
Lemma islands_from_id_map_map (ids : list (list Z)) (background_id : Z)
    (islands : list IslandData) (width height : Z) :
  islands_from_id_map ids background_id = Ok (islands, width, height) ->
  let vs := filter (fun v => negb (v =? background_id)) (np_unique Z.compare (concat ids)) in
  islands = map (fun v => mkIsland (IdInt v) (where_pixels (Z.eqb v) ids) None None) vs /\
  Forall (fun v => where_pixels (Z.eqb v) ids <> []) vs.
Proof.
  intros H vs. apply islands_from_id_map_shape in H. destruct H as (_ & _ & ->).
  fold vs. rewrite (py_sorted_sorted_id vs) by apply unique_ids_sorted.
  assert (Hne : Forall (fun v => where_pixels (Z.eqb v) ids <> []) vs).
  { apply Forall_forall. intros v Hv. apply filter_In in Hv. destruct Hv as [Hv _].
    rewrite (np_unique_In Z.compare Z.compare_eq) in Hv.
    apply in_concat in Hv. destruct Hv as (row & Hrow & Hv).
    apply In_nth_error in Hrow, Hv. destruct Hrow as [y Hy], Hv as [x Hx].
    intro E.
    assert (Hin : In (to_int32 (Z.of_nat x), to_int32 (Z.of_nat y))
                     (where_pixels (Z.eqb v) ids)).
    { apply In_where_pixels. exists x, y, v. unfold cell_at. rewrite Hy.
      repeat split; [exact Hx | apply Z.eqb_refl]. }
    rewrite E in Hin. contradiction. }
  split; [|exact Hne].
  clear -Hne. induction Hne as [|v vs Hv _ IH]; [reflexivity|].
  cbn [flat_map map]. rewrite IH.
  destruct (where_pixels (Z.eqb v) ids); [congruence | reflexivity].
Qed.

(** X2. In ID-map mode the islands are exactly the foreground values of the
    raster, in strictly ascending order and never the background id; no
    island is empty or carries UV data; a foreground cell belongs to the
    island of its value, and an island holds only cells of its value. *)
Theorem id_map_islands_partition_foreground :
  forall (ids : list (list Z)) (background_id : Z)
         (islands : list IslandData) (width height : Z),
    islands_from_id_map ids background_id = Ok (islands, width, height) ->
    rectangular ids -> width <= 2 ^ 31 -> height <= 2 ^ 31 ->
    (exists vs : list Z,
        map island_id islands = map IdInt vs /\
        StronglySorted Z.lt vs /\ ~ In background_id vs) /\
    Forall (fun island => pixels island <> [] /\ pixel_uvs island = None /\
                          uv_points island = None) islands /\
    (forall (x y : nat) (v : Z),
        cell_at ids x y = Some v -> v <> background_id ->
        exists island, In island islands /\ island_id island = IdInt v /\
                       In (Z.of_nat x, Z.of_nat y) (pixels island)) /\
    (forall island p,
        In island islands -> In p (pixels island) ->
        exists (x y : nat) (v : Z),
          p = (Z.of_nat x, Z.of_nat y) /\ cell_at ids x y = Some v /\
          island_id island = IdInt v).
Proof.
  intros ids bg islands width height H Hrect Hw Hh.
  pose proof (islands_from_id_map_shape _ _ _ _ _ H) as (Ew & Eh & _).
  destruct (islands_from_id_map_map _ _ _ _ _ H) as [-> Hne].
  set (vs := filter (fun v => negb (v =? bg)) (np_unique Z.compare (concat ids))) in *.
  assert (Hsmall : forall x y c, cell_at ids x y = Some c ->
                    to_int32 (Z.of_nat x) = Z.of_nat x /\ to_int32 (Z.of_nat y) = Z.of_nat y).
  { intros x y c Hc. destruct (rectangular_cell ids x y c Hrect Hc) as [Hx Hy].
    rewrite <- Ew in Hx. rewrite <- Eh in Hy. split; apply to_int32_small; lia. }
  split; [|split; [|split]].
  - exists vs. split; [now rewrite map_map|]. split; [apply unique_ids_sorted|].
    intro Hin. apply filter_In in Hin. destruct Hin as [_ Hin].
    now rewrite Z.eqb_refl in Hin.
  - apply Forall_map. eapply Forall_impl; [|exact Hne]. cbn. intros v Hv. auto.
  - intros x y v Hc Hv.
    exists (mkIsland (IdInt v) (where_pixels (Z.eqb v) ids) None None).
    split; [|split; [reflexivity|]].
    + apply in_map_iff. exists v. split; [reflexivity|]. apply filter_In. split.
      * rewrite (np_unique_In Z.compare Z.compare_eq). eapply cell_in_concat; eauto.
      * apply negb_true_iff, Z.eqb_neq. exact Hv.
    + cbn [pixels]. apply In_where_pixels. exists x, y, v.
      destruct (Hsmall x y v Hc) as [-> ->]. repeat split; [exact Hc | apply Z.eqb_refl].
  - intros island p Hin Hp. apply in_map_iff in Hin. destruct Hin as (v & <- & _).
    cbn [pixels] in Hp. apply In_where_pixels in Hp.
    destruct Hp as (x & y & c & Hc & Ec & ->). apply Z.eqb_eq in Ec. subst c.
    exists x, y, v. destruct (Hsmall x y v Hc) as [-> ->]. repeat split. exact Hc.
Qed.

Lemma id_map_islands_partition_foreground_witness :
  exists island,
    In island [mkIsland (IdInt 3) [(1, 0)] None None; mkIsland (IdInt 7) [(0, 0); (1, 1)] None None] /\
    island_id island = IdInt 7 /\ In (1, 1) (pixels island).
Proof.
  exact (proj1 (proj2 (proj2
           (id_map_islands_partition_foreground [[7; 3]; [0; 7]] 0
              [mkIsland (IdInt 3) [(1, 0)] None None;
               mkIsland (IdInt 7) [(0, 0); (1, 1)] None None] 2 2
              eq_refl
              ltac:(intros row [<- | [<- | []]]; reflexivity)
              ltac:(lia) ltac:(lia)))) 1%nat 1%nat 7 eq_refl ltac:(lia)).
Defined.

(** ** The compositor *)

Lemma nth_error_update_nth {A : Type} (i j : nat) (f : A -> A) (l : list A) :
  nth_error (update_nth i f l) j =
  if (j =? i)%nat then option_map f (nth_error l j) else nth_error l j.
Proof.
  revert i j. induction l as [|a l IH]; intros i j.
  - replace (update_nth i f []) with (@nil A) by now destruct i.
    destruct (j =? i)%nat; now destruct j.
  - destruct i as [|i], j as [|j]; cbn [update_nth nth_error Nat.eqb]; try reflexivity.
    apply IH.
Qed.

Lemma cell_at_update (out : list (list rgba_t)) (r c x y : nat) (f : rgba_t -> rgba_t) :
  cell_at (update_nth r (update_nth c f) out) x y =
  if (y =? r)%nat && (x =? c)%nat then option_map f (cell_at out x y) else cell_at out x y.
Proof.
  unfold cell_at. rewrite nth_error_update_nth.
  destruct (y =? r)%nat; cbn [andb]; [|reflexivity].
  destruct (nth_error out y) as [row|]; cbn [option_map].
  - apply nth_error_update_nth.
  - now destruct (x =? c)%nat.
Qed.

Lemma has_shape_update (out : list (list rgba_t)) (r c rows cols : nat)
    (f : rgba_t -> rgba_t) :
  has_shape out rows cols -> has_shape (update_nth r (update_nth c f) out) rows cols.
Proof.
  intros [Hlen Hrows]. split; [now rewrite update_nth_length|].
  apply Forall_forall. intros row Hrow. apply In_nth_error in Hrow. destruct Hrow as [j Hj].
  rewrite nth_error_update_nth in Hj. rewrite Forall_forall in Hrows.
  destruct (j =? r)%nat.
  - destruct (nth_error out j) as [row0|] eqn:E; [|discriminate]. cbn in Hj.
    injection Hj as <-. rewrite update_nth_length. apply Hrows. eapply nth_error_In; eauto.
  - apply Hrows. eapply nth_error_In; eauto.
Qed.

Lemma write_cell_in_canvas (out : list (list rgba_t)) (width height : Z) (p : pixel)
    (f : rgba_t -> rgba_t) :
  in_canvas width height p ->
  write_cell out width height p f
  = Ok (update_nth (Z.to_nat (snd p)) (update_nth (Z.to_nat (fst p)) f) out).
Proof.
  destruct p as [x y]. intros [Hx Hy]. cbn [fst snd] in *. unfold write_cell, norm_index.
  replace ((0 <=? y) && (y <? height)) with true by (symmetry; apply andb_true_iff; lia).
  cbn [bind].
  replace ((0 <=? x) && (x <? width)) with true by (symmetry; apply andb_true_iff; lia).
  reflexivity.
Qed.

Lemma cell_matches (q : pixel) (x y : nat) :
  0 <= fst q -> 0 <= snd q ->
  ((y =? Z.to_nat (snd q))%nat && (x =? Z.to_nat (fst q))%nat)
  = ((fst q =? Z.of_nat x) && (snd q =? Z.of_nat y)).
Proof.
  intros Hx Hy.
  destruct (Nat.eqb_spec y (Z.to_nat (snd q))); destruct (Nat.eqb_spec x (Z.to_nat (fst q)));
    destruct (Z.eqb_spec (fst q) (Z.of_nat x)); destruct (Z.eqb_spec (snd q) (Z.of_nat y));
    cbn [andb]; try reflexivity; lia.
Qed.

Lemma scatter_rgb_cells (out : list (list rgba_t)) (width height : Z)
    (pixels : list pixel) (rgb : list rgb_t) :
  Forall (in_canvas width height) pixels ->
  exists out',
    scatter_rgb out width height pixels rgb = Ok out' /\
    (forall rows cols, has_shape out rows cols -> has_shape out' rows cols) /\
    forall x y,
      cell_at out' x y =
      option_map (fun c : rgba_t =>
                    match last_rgb x y pixels rgb with
                    | Some col => (col, snd c)
                    | None => c
                    end) (cell_at out x y).
Proof.
  intro Hcanvas. revert out rgb.
  induction Hcanvas as [|q pixels Hq _ IH]; intros out rgb.
  - exists out. split; [reflexivity|]. split; [auto|].
    intros x y. cbn. now destruct (cell_at out x y).
  - destruct rgb as [|[[r g] b] rgb].
    + exists out. split; [reflexivity|]. split; [auto|].
      intros x y. cbn. now destruct (cell_at out x y).
    + cbn [scatter_rgb]. rewrite (write_cell_in_canvas _ _ _ _ _ Hq). cbn [bind].
      destruct (IH (update_nth (Z.to_nat (snd q))
                      (update_nth (Z.to_nat (fst q)) (fun c : rgba_t => (r, g, b, snd c))) out)
                   rgb) as (out' & -> & Hshape & Hcell).
      exists out'. split; [reflexivity|]. split.
      * intros rows cols Hs. apply Hshape. now apply has_shape_update.
      * intros x y. rewrite Hcell, cell_at_update. cbn [last_rgb].
        destruct Hq as [Hqx Hqy].
        rewrite (cell_matches q x y) by lia.
        destruct (cell_at out x y) as [c|]; cbn [option_map];
          [|now destruct (_ && _)].
        destruct (last_rgb x y pixels rgb) as [col|];
          destruct ((fst q =? Z.of_nat x) && (snd q =? Z.of_nat y)); reflexivity.
Qed.

Lemma scatter_alpha_cells (out : list (list rgba_t)) (width height : Z)
    (pixels : list pixel) :
  Forall (in_canvas width height) pixels ->
  exists out',
    scatter_alpha out width height pixels = Ok out' /\
    (forall rows cols, has_shape out rows cols -> has_shape out' rows cols) /\
    forall x y,
      cell_at out' x y =
      option_map (fun c : rgba_t => if pixel_mem x y pixels then (fst c, 255) else c)
                 (cell_at out x y).
Proof.
  intro Hcanvas. revert out.
  induction Hcanvas as [|q pixels Hq _ IH]; intros out.
  - exists out. split; [reflexivity|]. split; [auto|].
    intros x y. cbn. now destruct (cell_at out x y).
  - cbn [scatter_alpha]. rewrite (write_cell_in_canvas _ _ _ _ _ Hq). cbn [bind].
    destruct (IH (update_nth (Z.to_nat (snd q))
                    (update_nth (Z.to_nat (fst q)) (fun c : rgba_t => (fst c, 255))) out))
      as (out' & -> & Hshape & Hcell).
    exists out'. split; [reflexivity|]. split.
    + intros rows cols Hs. apply Hshape. now apply has_shape_update.
    + intros x y. rewrite Hcell, cell_at_update. unfold pixel_mem. cbn [existsb].
      destruct Hq as [Hqx Hqy].
      rewrite (cell_matches q x y) by lia.
      destruct (cell_at out x y) as [c|]; cbn [option_map];
        [|now destruct (_ && _)].
      destruct ((fst q =? Z.of_nat x) && (snd q =? Z.of_nat y)); cbn [orb fst];
        destruct (existsb _ pixels); reflexivity.
Qed.

Lemma last_rgb_mem (x y : nat) (pixels : list pixel) (rgb : list rgb_t) :
  length rgb = length pixels ->
  (pixel_mem x y pixels = true -> exists col, last_rgb x y pixels rgb = Some col) /\
  (pixel_mem x y pixels = false -> last_rgb x y pixels rgb = None).
Proof.
  revert rgb. induction pixels as [|q pixels IH]; intros [|c rgb] Hlen; try discriminate.
  - split; [discriminate | reflexivity].
  - cbn [length] in Hlen. destruct (IH rgb ltac:(lia)) as [IH1 IH2].
    unfold pixel_mem in *. cbn [existsb last_rgb].
    destruct ((fst q =? Z.of_nat x) && (snd q =? Z.of_nat y)); cbn [orb].
    + split; [|discriminate]. intros _. destruct (last_rgb x y pixels rgb); eauto.
    + split.
      * intro H. destruct (IH1 H) as [col ->]. eauto.
      * intro H. now rewrite (IH2 H).
Qed.

Lemma pixel_mem_In (x y : nat) (pixels : list pixel) :
  pixel_mem x y pixels = true <-> In (Z.of_nat x, Z.of_nat y) pixels.
Proof.
  unfold pixel_mem. rewrite existsb_exists. split.
  - intros ([qx qy] & Hin & Hq). cbn [fst snd] in Hq.
    apply andb_true_iff in Hq. destruct Hq as [H1 H2].
    apply Z.eqb_eq in H1, H2. now subst.
  - intro H. exists (Z.of_nat x, Z.of_nat y). split; [exact H|].
    cbn [fst snd]. now rewrite !Z.eqb_refl.
Qed.

Lemma last_rgb_Some_mem (x y : nat) (pixels : list pixel) (rgb : list rgb_t) (col : rgb_t) :
  last_rgb x y pixels rgb = Some col -> pixel_mem x y pixels = true.
Proof.
  revert rgb col. induction pixels as [|q pixels IH]; intros [|c rgb] col; try discriminate.
  unfold pixel_mem in *. cbn [last_rgb existsb].
  destruct (last_rgb x y pixels rgb) as [c'|] eqn:E.
  - intros _. rewrite (IH rgb c' E). apply orb_true_r.
  - destruct ((fst q =? Z.of_nat x) && (snd q =? Z.of_nat y)); [reflexivity | discriminate].
Qed.

Lemma last_rgb_NoDup (x y : nat) (pixels : list pixel) (rgb : list rgb_t) (i : nat)
    (col : rgb_t) :
  NoDup pixels ->
  nth_error pixels i = Some (Z.of_nat x, Z.of_nat y) -> nth_error rgb i = Some col ->
  last_rgb x y pixels rgb = Some col.
Proof.
  revert rgb i. induction pixels as [|q pixels IH]; intros rgb i Hnd Hp Hc.
  - now destruct i.
  - destruct rgb as [|c rgb]; [now destruct i|].
    apply NoDup_cons_iff in Hnd. destruct Hnd as [Hnotin Hnd]. cbn [last_rgb].
    destruct i as [|i]; cbn [nth_error] in Hp, Hc.
    + injection Hp as ->. injection Hc as ->.
      assert (Hnone : last_rgb x y pixels rgb = None).
      { destruct (last_rgb x y pixels rgb) eqn:E; [|reflexivity]. exfalso.
        apply Hnotin. apply pixel_mem_In. eapply last_rgb_Some_mem; eauto. }
      rewrite Hnone. cbn [fst snd]. now rewrite !Z.eqb_refl.
    + now rewrite (IH rgb i Hnd Hp Hc).
Qed.

Lemma compute_local_t_ok (eigh : mat2 -> option (Q * Q * mat2)) (vec_norm : uv -> Q)
    (pixel_uvs axis_source_uvs : list uv) (eps : Q) :
  pixel_uvs <> [] ->
  exists ts, compute_local_t eigh vec_norm pixel_uvs axis_source_uvs eps = Ok ts /\
             length ts = length pixel_uvs.
Proof.
  intro Hne. unfold compute_local_t.
  assert (Hfb : exists ts,
             (t <- fallback_t_from_bbox pixel_uvs eps ;; Ok (clamp01_array t)) = Ok ts /\
             length ts = length pixel_uvs).
  { destruct (fallback_path_ok pixel_uvs eps Hne) as (ts & H1 & H2 & _). eauto. }
  destruct (compute_principal_axis eigh vec_norm axis_source_uvs eps) as [axis|];
    [|exact Hfb].
  set (t_raw := map _ pixel_uvs).
  assert (Hraw : t_raw <> []) by (apply map_nonempty; exact Hne).
  destruct (np_min_spec t_raw Hraw) as (t_min & -> & _).
  destruct (np_max_spec t_raw Hraw) as (t_max & -> & _). cbn [bind].
  destruct (Qltb (t_max - t_min) eps); [exact Hfb|].
  eexists. split; [reflexivity|]. subst t_raw.
  now rewrite clamp01_array_length, !length_map.
Qed.

Lemma island_pixel_uvs_length (width height : Z) (island : IslandData) :
  length (island_pixel_uvs width height island) = length (pixels island).
Proof.
  unfold island_pixel_uvs, infer_uvs_from_pixels.
  destruct (pixel_uvs island) as [uvs|]; [|apply length_map].
  destruct (Nat.eqb_spec (length uvs) (length (pixels island))); [assumption | apply length_map].
Qed.

Lemma island_rgb_ok (eigh : mat2 -> option (Q * Q * mat2)) (vec_norm : uv -> Q)
    (width height : Z) (island : IslandData) :
  pixels island <> [] ->
  exists rgb, island_rgb eigh vec_norm width height island = Ok rgb /\
              length rgb = length (pixels island).
Proof.
  intro Hne. unfold island_rgb.
  assert (Huv : island_pixel_uvs width height island <> []).
  { intro E. apply Hne. apply length_zero_iff_nil.
    rewrite <- island_pixel_uvs_length with (width := width) (height := height).
    now rewrite E. }
  destruct (compute_local_t_ok eigh vec_norm _
              (island_axis_source island (island_pixel_uvs width height island)) EPS Huv)
    as (ts & -> & Hlen).
  cbn [bind]. destruct (palette_for_island (island_id island)) as [l r].
  eexists. split; [reflexivity|].
  unfold hsv_to_rgb_np, lerp_hsv. now rewrite !length_map, Hlen, island_pixel_uvs_length.
Qed.

(** One island written into the raster: its pixels take their colours and
    become opaque, every other cell stays. *)
Lemma island_step_cells (eigh : mat2 -> option (Q * Q * mat2)) (vec_norm : uv -> Q)
    (out : list (list rgba_t)) (width height : Z) (island : IslandData) :
  pixels island <> [] -> Forall (in_canvas width height) (pixels island) ->
  exists rgb out2,
    island_rgb eigh vec_norm width height island = Ok rgb /\
    length rgb = length (pixels island) /\
    (out1 <- scatter_rgb out width height (pixels island) rgb ;;
     scatter_alpha out1 width height (pixels island)) = Ok out2 /\
    (forall rows cols, has_shape out rows cols -> has_shape out2 rows cols) /\
    forall x y,
      cell_at out2 x y =
      option_map (fun c : rgba_t =>
                    match last_rgb x y (pixels island) rgb with
                    | Some col => (col, 255)
                    | None => c
                    end) (cell_at out x y).
Proof.
  intros Hne Hcanvas.
  destruct (island_rgb_ok eigh vec_norm width height island Hne) as (rgb & Hrgb & Hlen).
  destruct (scatter_rgb_cells out width height (pixels island) rgb Hcanvas)
    as (out1 & E1 & Hs1 & Hc1).
  destruct (scatter_alpha_cells out1 width height (pixels island) Hcanvas)
    as (out2 & E2 & Hs2 & Hc2).
  exists rgb, out2. split; [exact Hrgb|]. split; [exact Hlen|].
  split; [rewrite E1; exact E2|]. split; [auto|].
  intros x y. rewrite Hc2, Hc1.
  destruct (cell_at out x y) as [c|]; cbn [option_map]; [|reflexivity].
  destruct (last_rgb_mem x y (pixels island) rgb Hlen) as [Hin Hout].
  destruct (pixel_mem x y (pixels island)).
  - destruct (Hin eq_refl) as [col ->]. reflexivity.
  - now rewrite (Hout eq_refl).
Qed.

Lemma render_loop_app (eigh : mat2 -> option (Q * Q * mat2)) (vec_norm : uv -> Q)
    (out : list (list rgba_t)) (width height : Z) (pre post : list IslandData) :
  render_loop eigh vec_norm out width height (pre ++ post) =
  (out' <- render_loop eigh vec_norm out width height pre ;;
   render_loop eigh vec_norm out' width height post).
Proof.
  revert out. induction pre as [|island pre IH]; intro out; [reflexivity|].
  cbn [app render_loop]. destruct (pixels island); [apply IH|].
  destruct (island_rgb eigh vec_norm width height island) as [rgb|]; cbn [bind];
    [|reflexivity].
  destruct (scatter_rgb out width height _ rgb) as [out1|]; cbn [bind]; [|reflexivity].
  destruct (scatter_alpha out1 width height _) as [out2|]; cbn [bind]; [apply IH | reflexivity].
Qed.

Lemma render_loop_step (eigh : mat2 -> option (Q * Q * mat2)) (vec_norm : uv -> Q)
    (out out2 : list (list rgba_t)) (width height : Z) (island : IslandData)
    (rest : list IslandData) (rgb : list rgb_t) :
  pixels island <> [] ->
  island_rgb eigh vec_norm width height island = Ok rgb ->
  (out1 <- scatter_rgb out width height (pixels island) rgb ;;
   scatter_alpha out1 width height (pixels island)) = Ok out2 ->
  render_loop eigh vec_norm out width height (island :: rest)
  = render_loop eigh vec_norm out2 width height rest.
Proof.
  intros Hne Hrgb Hsc. cbn [render_loop].
  destruct (pixels island) as [|p ps] eqn:E; [congruence|].
  rewrite Hrgb. cbn [bind].
  destruct (scatter_rgb out width height (p :: ps) rgb) as [out1|]; cbn [bind] in *;
    [|discriminate].
  now rewrite Hsc.
Qed.

Lemma covered_iff (x y : nat) (islands : list IslandData) :
  covered x y islands = true <->
  exists island, In island islands /\ In (Z.of_nat x, Z.of_nat y) (pixels island).
Proof.
  unfold covered. rewrite existsb_exists.
  split; intros (island & Hin & H); exists island; (split; [exact Hin|]);
    now apply pixel_mem_In.
Qed.

Lemma render_loop_cells (eigh : mat2 -> option (Q * Q * mat2)) (vec_norm : uv -> Q)
    (width height : Z) (islands : list IslandData) (out : list (list rgba_t)) :
  islands_in_canvas width height islands ->
  exists out',
    render_loop eigh vec_norm out width height islands = Ok out' /\
    (forall rows cols, has_shape out rows cols -> has_shape out' rows cols) /\
    forall x y c,
      cell_at out x y = Some c ->
      exists c', cell_at out' x y = Some c' /\
                 (covered x y islands = false -> c' = c) /\
                 (covered x y islands = true -> snd c' = 255).
Proof.
  intro Hcanvas. revert out.
  induction Hcanvas as [|island rest Hisl _ IH]; intro out.
  - exists out. split; [reflexivity|]. split; [auto|].
    intros x y c Hc. exists c. split; [exact Hc|]. split; [auto | discriminate].
  - destruct (pixels island) as [|p ps] eqn:Epx.
    + cbn [render_loop]. rewrite Epx.
      destruct (IH out) as (out' & -> & Hs & Hc). exists out'.
      split; [reflexivity|]. split; [exact Hs|].
      intros x y c Hcell. destruct (Hc x y c Hcell) as (c' & H1 & H2 & H3).
      exists c'. unfold covered in *. cbn [existsb]. rewrite Epx. cbn [pixel_mem existsb orb].
      auto.
    + assert (Hne : pixels island <> []) by (rewrite Epx; discriminate).
      rewrite <- Epx in Hisl.
      destruct (island_step_cells eigh vec_norm out width height island Hne Hisl)
        as (rgb & out2 & Hrgb & Hlen & Hsc & Hs2 & Hc2).
      rewrite (render_loop_step _ _ _ _ _ _ _ _ _ Hne Hrgb Hsc).
      destruct (IH out2) as (out' & -> & Hs & Hc). exists out'.
      split; [reflexivity|]. split; [auto|].
      intros x y c Hcell.
      specialize (Hc2 x y). rewrite Hcell in Hc2. cbn [option_map] in Hc2.
      destruct (Hc x y _ Hc2) as (c' & H1 & H2 & H3).
      exists c'. split; [exact H1|].
      unfold covered in *. cbn [existsb].
      destruct (last_rgb_mem x y (pixels island) rgb Hlen) as [Hin Hout].
      destruct (pixel_mem x y (pixels island)); cbn [orb].
      * split; [discriminate|]. intros _.
        destruct (Hin eq_refl) as [col Hcol]. rewrite Hcol in *.
        destruct (existsb _ rest); [now apply H3|]. now rewrite (H2 eq_refl).
      * rewrite (Hout eq_refl) in *. split; assumption.
Qed.

Lemma blank_raster_cell (width height : Z) (transparent_background : bool) (x y : nat) :
  Z.of_nat x < width -> Z.of_nat y < height ->
  cell_at (blank_raster width height transparent_background) x y
  = Some (0, 0, 0, if transparent_background then 0 else 255).
Proof.
  intros Hx Hy. unfold cell_at, blank_raster.
  rewrite nth_error_repeat by lia. apply nth_error_repeat. lia.
Qed.

Lemma render_island_gradients_eq (eigh : mat2 -> option (Q * Q * mat2)) (vec_norm : uv -> Q)
    (width height : Z) (islands : list IslandData) (transparent_background : bool) :
  0 <= width -> 0 <= height ->
  render_island_gradients eigh vec_norm width height islands transparent_background
  = render_loop eigh vec_norm (blank_raster width height transparent_background)
                width height islands.
Proof.
  intros Hw Hh. unfold render_island_gradients.
  replace ((width <? 0) || (height <? 0)) with false
    by (symmetry; apply orb_false_iff; lia).
  reflexivity.
Qed.

Section Compositor.

Variable eigh : mat2 -> option (Q * Q * mat2).
Variable vec_norm : uv -> Q.


(** X4. Compositing is last-writer-wins and exact: the cell of the i-th
    pixel of an island holds the i-th colour computed for that island, with
    alpha 255, unless a later island of the list also names the cell. *)
Theorem render_pixel_colour :
  forall (width height : Z) (pre post : list IslandData) (island : IslandData)
         (transparent_background : bool) (rgb : list rgb_t) (i x y : nat) (col : rgb_t),
    0 <= width -> 0 <= height ->
    islands_in_canvas width height (pre ++ island :: post) ->
    NoDup (pixels island) ->
    nth_error (pixels island) i = Some (Z.of_nat x, Z.of_nat y) ->
    island_rgb eigh vec_norm width height island = Ok rgb ->
    nth_error rgb i = Some col ->
    (forall later, In later post -> ~ In (Z.of_nat x, Z.of_nat y) (pixels later)) ->
    exists out,
      render_island_gradients eigh vec_norm width height (pre ++ island :: post)
                              transparent_background = Ok out /\
      cell_at out x y = Some (col, 255).
Proof.
  intros width height pre post island tb rgb i x y col Hw Hh Hcanvas Hnd Hp Hrgb Hcol Hlater.
  rewrite render_island_gradients_eq by assumption.
  unfold islands_in_canvas in Hcanvas. apply Forall_app in Hcanvas.
  destruct Hcanvas as [Hpre Hrest]. inversion Hrest as [|? ? Hisl Hpost]; subst.
  assert (Hin : in_canvas width height (Z.of_nat x, Z.of_nat y)).
  { rewrite Forall_forall in Hisl. apply Hisl. eapply nth_error_In; eauto. }
  destruct Hin as [Hx Hy]. cbn [fst snd] in Hx, Hy.
  rewrite render_loop_app.
  destruct (render_loop_cells eigh vec_norm width height pre
              (blank_raster width height tb) Hpre) as (out1 & -> & _ & Hc1).
  cbn [bind].
  destruct (Hc1 x y _ (blank_raster_cell width height tb x y ltac:(lia) ltac:(lia)))
    as (c1 & Hcell1 & _).
  assert (Hne : pixels island <> []) by (intro E; rewrite E in Hp; now destruct i).
  destruct (island_step_cells eigh vec_norm out1 width height island Hne Hisl)
    as (rgb' & out2 & Hrgb' & _ & Hsc & _ & Hc2).
  rewrite Hrgb in Hrgb'. injection Hrgb' as <-.
  rewrite (render_loop_step _ _ _ _ _ _ _ _ _ Hne Hrgb Hsc).
  destruct (render_loop_cells eigh vec_norm width height post out2 Hpost)
    as (out & -> & _ & Hc3).
  exists out. split; [reflexivity|].
  specialize (Hc2 x y). rewrite Hcell1 in Hc2. cbn [option_map] in Hc2.
  rewrite (last_rgb_NoDup x y _ _ i col Hnd Hp Hcol) in Hc2.
  destruct (Hc3 x y _ Hc2) as (c' & Hc' & Hsame & _).
  rewrite Hc'. f_equal. apply Hsame.
  destruct (covered x y post) eqn:E; [|reflexivity].
  apply covered_iff in E. destruct E as (later & Hl & Hpl). now destruct (Hlater later Hl).
Qed.

End Compositor.


Lemma render_pixel_colour_witness :
  exists out,
    render_island_gradients (fun _ => None) (fun _ => 1%Q) 2 2
      ([mkIsland (IdInt 9) [(0, 0); (1, 0)] None None]
         ++ mkIsland (IdInt 5) [(0, 0)] None None
         :: [mkIsland (IdInt 7) [(1, 1)] None None]) true = Ok out /\
    cell_at out 0 0 = Some (110, 99, 235, 255).
Proof.
  apply (render_pixel_colour (fun _ => None) (fun _ => 1%Q) 2 2
           [mkIsland (IdInt 9) [(0, 0); (1, 0)] None None]
           [mkIsland (IdInt 7) [(1, 1)] None None]
           (mkIsland (IdInt 5) [(0, 0)] None None) true [(110, 99, 235)] 0 0 0
           (110, 99, 235)).
  - lia.
  - lia.
  - repeat constructor; cbn; lia.
  - repeat constructor. intros [].
  - reflexivity.
  - vm_compute. reflexivity.
  - reflexivity.
  - intros later [<- | []] [H | []]. discriminate H.
Defined.

Lemma norm_index_cases (i n : Z) :
  (exists k, norm_index i n = Ok k) \/ norm_index i n = Err IndexError.
Proof.
  unfold norm_index. destruct (_ && _); [eauto|]. destruct (_ && _); eauto.
Qed.

Lemma norm_index_out_of_range (i n : Z) :
  0 <= n -> i < - n \/ n <= i -> norm_index i n = Err IndexError.
Proof.
  intros Hn Hi. unfold norm_index.
  replace ((0 <=? i) && (i <? n)) with false by (symmetry; apply andb_false_iff; lia).
  replace ((- n <=? i) && (i <? 0)) with false by (symmetry; apply andb_false_iff; lia).
  reflexivity.
Qed.

Lemma write_cell_cases (out : list (list rgba_t)) (width height : Z) (p : pixel)
    (f : rgba_t -> rgba_t) :
  (exists out', write_cell out width height p f = Ok out') \/
  write_cell out width height p f = Err IndexError.
Proof.
  destruct p as [x y]. unfold write_cell.
  destruct (norm_index_cases y height) as [[r ->] | ->]; cbn [bind]; [|now right].
  destruct (norm_index_cases x width) as [[c ->] | ->]; cbn [bind]; eauto.
Qed.

Lemma write_cell_out_of_range (out : list (list rgba_t)) (width height : Z) (p : pixel)
    (f : rgba_t -> rgba_t) :
  0 <= width -> 0 <= height ->
  fst p < - width \/ width <= fst p \/ snd p < - height \/ height <= snd p ->
  write_cell out width height p f = Err IndexError.
Proof.
  destruct p as [x y]. cbn [fst snd]. intros Hw Hh Hp. unfold write_cell.
  destruct (norm_index_cases y height) as [[r Hr] | ->]; cbn [bind]; [|reflexivity].
  rewrite Hr. cbn [bind].
  destruct (Z_lt_ge_dec y (- height)) as [Hy | Hy];
    [rewrite norm_index_out_of_range in Hr by lia; discriminate|].
  destruct (Z_lt_ge_dec y height) as [Hy' | Hy'];
    [|rewrite norm_index_out_of_range in Hr by lia; discriminate].
  rewrite norm_index_out_of_range by lia. reflexivity.
Qed.

Lemma scatter_rgb_index_error (out : list (list rgba_t)) (width height : Z)
    (pixels : list pixel) (rgb : list rgb_t) (q : pixel) :
  0 <= width -> 0 <= height ->
  length rgb = length pixels -> In q pixels ->
  fst q < - width \/ width <= fst q \/ snd q < - height \/ height <= snd q ->
  scatter_rgb out width height pixels rgb = Err IndexError.
Proof.
  intros Hw Hh. revert out rgb.
  induction pixels as [|p pixels IH]; intros out rgb Hlen Hin Hq; [contradiction|].
  destruct rgb as [|[[r g] b] rgb]; [discriminate|]. cbn [scatter_rgb].
  destruct (write_cell_cases out width height p (fun c : rgba_t => (r, g, b, snd c)))
    as [[out' E] | E].
  - rewrite E. cbn [bind]. destruct Hin as [-> | Hin].
    + rewrite write_cell_out_of_range in E by assumption. discriminate.
    + apply IH; [cbn [length] in Hlen; lia | assumption | assumption].
  - now rewrite E.
Qed.

Section CompositorErrors.

Variable eigh : mat2 -> option (Q * Q * mat2).
Variable vec_norm : uv -> Q.

(** X5. The compositor does no bounds check of its own: an island with a
    pixel outside [-width, width) x [-height, height), the range of NumPy
    indices, makes it fail with IndexError, whatever comes after it. *)
Theorem render_out_of_range_pixel_fails :
  forall (width height : Z) (pre post : list IslandData) (island : IslandData)
         (transparent_background : bool) (q : pixel),
    0 <= width -> 0 <= height ->
    islands_in_canvas width height pre ->
    In q (pixels island) ->
    fst q < - width \/ width <= fst q \/ snd q < - height \/ height <= snd q ->
    render_island_gradients eigh vec_norm width height (pre ++ island :: post)
                            transparent_background = Err IndexError.
Proof.
  intros width height pre post island tb q Hw Hh Hpre Hin Hq.
  rewrite render_island_gradients_eq by assumption. rewrite render_loop_app.
  destruct (render_loop_cells eigh vec_norm width height pre
              (blank_raster width height tb) Hpre) as (out1 & -> & _).
  cbn [bind render_loop].
  assert (Hne : pixels island <> []) by (intro E; now rewrite E in Hin).
  destruct (island_rgb_ok eigh vec_norm width height island Hne) as (rgb & Hrgb & Hlen).
  destruct (pixels island) as [|p ps] eqn:Epx; [congruence|].
  rewrite Hrgb. cbn [bind].
  now rewrite (scatter_rgb_index_error out1 width height (p :: ps) rgb q Hw Hh Hlen Hin Hq).
Qed.

End CompositorErrors.

Lemma render_out_of_range_pixel_fails_witness :
  render_island_gradients (fun _ => None) (fun _ => 1%Q) 2 2
    ([mkIsland (IdInt 1) [(0, 0)] None None]
       ++ mkIsland (IdInt 2) [(1, 1); (2, 0)] None None
       :: [mkIsland (IdInt 3) [(0, 1)] None None]) true
  = Err IndexError.
Proof.
  apply (render_out_of_range_pixel_fails (fun _ => None) (fun _ => 1%Q) 2 2
           [mkIsland (IdInt 1) [(0, 0)] None None]
           [mkIsland (IdInt 3) [(0, 1)] None None]
           (mkIsland (IdInt 2) [(1, 1); (2, 0)] None None) true (2, 0)).
  - lia.
  - lia.
  - repeat constructor; cbn; lia.
  - right. now left.
  - right. left. cbn. lia.
Defined.

(** ** From resolution to raster *)



Section PipelineTotal.

Variable eigh : mat2 -> option (Q * Q * mat2).
Variable vec_norm : uv -> Q.


End PipelineTotal.


(** ** Connected components *)

Lemma nth_set_visited (visited : list bool) (k i : nat) :
  (k < length visited)%nat ->
  nth i (set_visited visited k) false = if (i =? k)%nat then true else nth i visited false.
Proof.
  intro Hk. unfold set_visited.
  destruct (nth_error (update_nth k (fun _ => true) visited) i) as [b|] eqn:E.
  - rewrite (nth_error_nth _ _ _ E). rewrite nth_error_update_nth in E.
    destruct (i =? k)%nat.
    + destruct (nth_error visited i); cbn in E; congruence.
    + now rewrite (nth_error_nth _ _ _ E).
  - pose proof E as E'. apply nth_error_None in E'. rewrite update_nth_length in E'.
    rewrite !nth_overflow by (try rewrite update_nth_length; lia).
    destruct (Nat.eqb_spec i k); [lia | reflexivity].
Qed.

Lemma visit_neighbours_spec (nbrs stack : list nat) (visited : list bool) :
  (forall k, In k nbrs -> (k < length visited)%nat) ->
  exists new,
    fst (visit_neighbours nbrs stack visited) = new ++ stack /\
    NoDup new /\
    (forall i, In i new -> In i nbrs /\ ~ is_visited visited i) /\
    (forall i, is_visited (snd (visit_neighbours nbrs stack visited)) i
               <-> is_visited visited i \/ In i new) /\
    (forall k, In k nbrs -> is_visited (snd (visit_neighbours nbrs stack visited)) k) /\
    length (snd (visit_neighbours nbrs stack visited)) = length visited.
Proof.
  unfold visit_neighbours, is_visited. revert stack visited.
  induction nbrs as [|k nbrs IH]; intros stack visited Hrange; cbn [fold_left].
  - exists []. cbn [fst snd app In].
    split; [reflexivity|]. split; [constructor|]. split; [intros i []|].
    split; [intro i; tauto|]. split; [intros k []|reflexivity].
  - assert (Hk : (k < length visited)%nat) by (apply Hrange; now left).
    cbn [fst snd]. destruct (nth k visited false) eqn:E.
    + destruct (IH stack visited) as (new & H1 & H2 & H3 & H4 & H5 & H6);
        [intros; apply Hrange; now right|].
      exists new. split; [exact H1|]. split; [exact H2|]. split; [|split; [exact H4|split]].
      * intros i Hi. destruct (H3 i Hi). split; [now right | assumption].
      * intros j [<- | Hj]; [apply H4; now left | now apply H5].
      * exact H6.
    + destruct (IH (k :: stack) (set_visited visited k)) as (new & H1 & H2 & H3 & H4 & H5 & H6).
      { intros j Hj. unfold set_visited. rewrite update_nth_length. apply Hrange. now right. }
      assert (Hnew : forall i, In i new -> i <> k).
      { intros i Hi ->. destruct (H3 k Hi) as [_ Hn]. apply Hn.
        rewrite nth_set_visited by exact Hk. now rewrite Nat.eqb_refl. }
      exists (new ++ [k]). split; [rewrite H1, <- app_assoc; reflexivity|].
      split; [|split; [|split; [|split]]].
      * apply NoDup_app; [exact H2 | repeat constructor; intros [] |].
        intros i Hi [<- | []]. now apply (Hnew k Hi).
      * intros i Hi. apply in_app_or in Hi. destruct Hi as [Hi | [<- | []]].
        -- destruct (H3 i Hi) as [Hin Hn]. split; [now right|].
           rewrite nth_set_visited in Hn by exact Hk.
           destruct (Nat.eqb_spec i k) as [Eik | Nik];
             [exfalso; now apply (Hnew i Hi) | exact Hn].
        -- split; [now left | congruence].
      * intro i. rewrite H4, nth_set_visited by exact Hk. rewrite in_app_iff. cbn [In].
        destruct (Nat.eqb_spec i k); intuition congruence.
      * intros j [<- | Hj]; [|now apply H5].
        apply H4. left. rewrite nth_set_visited by exact Hk. now rewrite Nat.eqb_refl.
      * rewrite H6. unfold set_visited. apply update_nth_length.
Qed.

Section Traversal.

Variable adj : nat -> list nat.
Variable n : nat.
Hypothesis adj_range : forall a b, In b (adj a) -> (b < n)%nat.

Lemma dfs_inv_step (start : nat) (visited0 : list bool) (t : nat) (stack : list nat)
    (visited : list bool) (comp : list nat) :
  length visited0 = n ->
  dfs_inv adj start visited0 (t :: stack) visited comp ->
  dfs_inv adj start visited0
          (fst (visit_neighbours (adj t) stack visited))
          (snd (visit_neighbours (adj t) stack visited))
          (comp ++ [t]).
Proof.
  intros Hn (Hlen & Hnd & Hvis & Hfresh & Hclosed & Hreach).
  destruct (visit_neighbours_spec (adj t) stack visited) as (new & E1 & Hnew & Hin & Hv & Hall & Hl).
  { intros k Hk. rewrite Hlen, Hn. eauto. }
  rewrite E1.
  assert (Hnew_fresh : forall i, In i new -> ~ In i (t :: stack) /\ ~ In i comp /\
                                            ~ is_visited visited0 i).
  { intros i Hi. destruct (Hin i Hi) as [_ Hnv].
    repeat split; intro H; apply Hnv; apply Hvis; cbn [In] in *; tauto. }
  split; [congruence|]. split; [|split; [|split; [|split]]].
  - (* distinct *)
    cbn [app] in Hnd. apply NoDup_cons_iff in Hnd. destruct Hnd as [Ht Hnd].
    rewrite <- app_assoc. apply NoDup_app; [exact Hnew| |].
    + rewrite app_assoc. apply NoDup_app; [exact Hnd | repeat constructor; intros [] |].
      intros i Hi [<- | []]. contradiction.
    + intros i Hi Hi'. destruct (Hnew_fresh i Hi) as (H1 & H2 & _).
      rewrite !in_app_iff in Hi'. cbn [In] in *. intuition.
  - intro i. rewrite Hv, Hvis, !in_app_iff. cbn [In]. intuition.
  - intros i Hi. rewrite !in_app_iff in Hi. cbn [In] in Hi.
    destruct Hi as [[Hi | Hi] | [Hi | [<- | []]]].
    + now apply Hnew_fresh.
    + apply Hfresh. apply in_app_iff. left. now right.
    + apply Hfresh. apply in_app_iff. now right.
    + apply Hfresh. now left.
  - intros a b Ha Hb. apply in_app_or in Ha. destruct Ha as [Ha | [<- | []]].
    + apply Hv. left. eapply Hclosed; eauto.
    + now apply Hall.
  - intros i Hi. rewrite !in_app_iff in Hi. cbn [In] in Hi.
    assert (Ht : reach adj start t) by (apply Hreach; now left).
    destruct Hi as [[Hi | Hi] | [Hi | [<- | []]]].
    + destruct (Hin i Hi) as [Hadj _]. eapply reach_step; eauto.
    + apply Hreach. apply in_app_iff. left. now right.
    + apply Hreach. apply in_app_iff. now right.
    + exact Ht.
Qed.

Lemma dfs_component_inv (start : nat) (visited0 : list bool) (fuel : nat)
    (stack : list nat) (visited : list bool) (comp : list nat) :
  length visited0 = n ->
  dfs_inv adj start visited0 stack visited comp ->
  (unvisited visited + length stack <= fuel)%nat ->
  dfs_inv adj start visited0 []
          (snd (dfs_component fuel adj stack visited comp))
          (fst (dfs_component fuel adj stack visited comp)) /\
  exists more, fst (dfs_component fuel adj stack visited comp) = comp ++ more.
Proof.
  intro Hn. revert stack visited comp.
  induction fuel as [|fuel IH]; intros stack visited comp Hinv Hm.
  - destruct stack; cbn [length] in Hm; [|lia]. cbn. split; [exact Hinv|].
    exists []. now rewrite app_nil_r.
  - destruct stack as [|t stack].
    + cbn. split; [exact Hinv|]. exists []. now rewrite app_nil_r.
    + cbn [dfs_component].
      pose proof (dfs_inv_step start visited0 t stack visited comp Hn Hinv) as Hstep.
      assert (Hrange : forall k, In k (adj t) -> (k < length visited)%nat).
      { destruct Hinv as (Hlen & _). intros k Hk. rewrite Hlen, Hn. eauto. }
      destruct (visit_neighbours (adj t) stack visited) as [stack' visited'] eqn:E.
      destruct (visit_neighbours_measure _ _ _ _ _ Hrange E) as [_ Hm'].
      cbn [fst snd] in Hstep. cbn [length] in Hm.
      destruct (IH stack' visited' (comp ++ [t]) Hstep ltac:(lia)) as [Hfin [more Hmore]].
      split; [exact Hfin|]. exists (t :: more). rewrite Hmore, <- app_assoc. reflexivity.
Qed.

Hypothesis adj_sym : forall a b, In b (adj a) -> In a (adj b).

Lemma is_visited_lt (visited : list bool) (i : nat) :
  is_visited visited i -> (i < length visited)%nat.
Proof.
  unfold is_visited. intro H. destruct (Nat.lt_ge_cases i (length visited)); [assumption|].
  rewrite nth_overflow in H by assumption. discriminate.
Qed.

(** One traversal, started at an unflagged triangle. *)
Lemma dfs_from_start (start : nat) (visited : list bool) :
  length visited = n -> (start < n)%nat -> ~ is_visited visited start ->
  closed_flags adj visited ->
  let r := dfs_component n adj [start] (set_visited visited start) [] in
  exists more,
    fst r = start :: more /\
    NoDup (fst r) /\
    length (snd r) = n /\
    (forall i, is_visited (snd r) i <-> is_visited visited i \/ In i (fst r)) /\
    (forall i, In i (fst r) -> ~ is_visited visited i) /\
    closed_flags adj (snd r) /\
    component_ok adj (fst r).
Proof.
  intros Hlen Hs Hfresh Hclosed r.
  assert (Hinv0 : dfs_inv adj start visited [start] (set_visited visited start) []).
  { unfold dfs_inv, is_visited.
    split; [unfold set_visited; apply update_nth_length|].
    split; [repeat constructor; intros []|].
    split; [|split; [|split]].
    - intro i. rewrite nth_set_visited by lia. cbn [In].
      destruct (Nat.eqb_spec i start); intuition congruence.
    - intros i [<- | []]. exact Hfresh.
    - intros a b [].
    - intros i [<- | []]. constructor. }
  subst r.
  assert (Efuel : dfs_component n adj [start] (set_visited visited start) []
                  = dfs_component (S (Nat.pred n)) adj [start] (set_visited visited start) [])
    by (f_equal; lia).
  rewrite Efuel. clear Efuel. set (fuel := Nat.pred n).
  assert (Hfuel_n : S fuel = n) by (subst fuel; lia).
  cbn [dfs_component].
  pose proof (dfs_inv_step start visited start [] (set_visited visited start) []
                Hlen Hinv0) as Hstep.
  assert (Hrange : forall k, In k (adj start) -> (k < length (set_visited visited start))%nat).
  { intros k Hk. unfold set_visited. rewrite update_nth_length, Hlen. eauto. }
  destruct (visit_neighbours (adj start) [] (set_visited visited start))
    as [stack' visited'] eqn:E.
  destruct (visit_neighbours_measure _ _ _ _ _ Hrange E) as [_ Hm].
  cbn [fst snd app] in Hstep. cbn [app].
  assert (Hfuel : (unvisited visited' + length stack' <= fuel)%nat).
  { assert (Hnv : nth start visited false = false).
    { unfold is_visited in Hfresh. destruct (nth start visited false); congruence. }
    pose proof (set_visited_unvisited visited start ltac:(lia) Hnv).
    pose proof (unvisited_le_length visited). cbn [length] in Hm. lia. }
  destruct (dfs_component_inv start visited fuel stack' visited' [start] Hlen Hstep Hfuel)
    as [Hfin [more Hmore]].
  destruct (dfs_component fuel adj stack' visited' [start]) as [comp visited''].
  cbn [fst snd] in *. cbn [app] in Hmore. subst comp.
  destruct Hfin as (Hl & Hnd & Hvis & Hfr & Hcl & Hreach). cbn [app] in *.
  exists more. split; [reflexivity|]. split; [exact Hnd|]. split; [congruence|].
  assert (Hvis' : forall i, is_visited visited'' i
                            <-> is_visited visited i \/ In i (start :: more)).
  { intro i. rewrite Hvis. cbn [In]. tauto. }
  split; [exact Hvis'|]. split; [exact Hfr|]. split.
  - intros a b Ha Hb. apply Hvis' in Ha. destruct Ha as [Ha | Ha].
    + apply Hvis'. left. eapply Hclosed; eauto.
    + eapply Hcl; eauto.
  - split; [discriminate|]. split; [|exact Hreach].
    intros a b Ha Hb. pose proof (Hcl a b Ha Hb) as Hvb. apply Hvis' in Hvb.
    destruct Hvb as [Hvb | Hvb]; [|exact Hvb]. exfalso.
    apply (Hfr a Ha). eapply Hclosed; eauto.
Qed.

Lemma components_loop_spec (m k : nat) (visited : list bool) :
  (k + m = n)%nat -> length visited = n ->
  closed_flags adj visited ->
  (forall i, (i < k)%nat -> is_visited visited i) ->
  let comps := components_loop n adj (seq k m) visited in
  NoDup (concat comps) /\
  (forall i, In i (concat comps) -> (i < n)%nat /\ ~ is_visited visited i) /\
  (forall i, (i < n)%nat -> is_visited visited i \/ In i (concat comps)) /\
  Forall (fun c => component_ok adj c /\ forall i, In i c -> (hd 0%nat c <= i)%nat) comps /\
  StronglySorted (fun c c' : list nat => forall i, In i c' -> (hd 0%nat c < i)%nat) comps.
Proof.
  revert k visited. induction m as [|m IH]; intros k visited Hkm Hlen Hclosed Hlow.
  - cbn. split; [constructor|]. split; [intros i []|]. split; [|split; constructor].
    intros i Hi. left. apply Hlow. lia.
  - cbn [seq components_loop].
    destruct (nth k visited false) eqn:Ek.
    + apply IH; try assumption; [lia|].
      intros i Hi. destruct (Nat.eq_dec i k) as [-> | Hne]; [exact Ek | apply Hlow; lia].
    + assert (Hfresh : ~ is_visited visited k) by (unfold is_visited; congruence).
      destruct (dfs_from_start k visited Hlen ltac:(lia) Hfresh Hclosed)
        as (more & Ecomp & Hnd & Hl & Hvis & Hfr & Hcl & Hok).
      destruct (dfs_component n adj [k] (set_visited visited k) []) as [comp visited'].
      cbn [fst snd] in *. subst comp.
      assert (Hlow' : forall i, (i < S k)%nat -> is_visited visited' i).
      { intros i Hi. apply Hvis. destruct (Nat.eq_dec i k) as [-> | Hne];
          [right; now left | left; apply Hlow; lia]. }
      destruct (IH (S k) visited' ltac:(lia) Hl Hcl Hlow') as (R1 & R2 & R3 & R4 & R5).
      set (rest := components_loop n adj (seq (S k) m) visited') in *.
      cbn [concat].
      assert (Hge : forall i, In i (k :: more) -> (k <= i)%nat).
      { intros i Hi. destruct (Nat.lt_ge_cases i k) as [Hlt | Hge]; [|exact Hge].
        exfalso. apply (Hfr i Hi). now apply Hlow. }
      split; [|split; [|split; [|split]]].
      * apply NoDup_app; [exact Hnd | exact R1 |].
        intros i Hi Hi'. destruct (R2 i Hi') as [_ Hn]. apply Hn, Hvis. now right.
      * intros i Hi. apply in_app_or in Hi. destruct Hi as [Hi | Hi].
        -- split; [|now apply Hfr]. rewrite <- Hl. apply is_visited_lt, Hvis. now right.
        -- destruct (R2 i Hi) as [Hlt Hn]. split; [exact Hlt|]. intro Hv. apply Hn, Hvis.
           now left.
      * intros i Hi. destruct (R3 i Hi) as [Hv | Hin].
        -- apply Hvis in Hv. destruct Hv as [Hv | Hv]; [now left|].
           right. apply in_or_app. now left.
        -- right. apply in_or_app. now right.
      * constructor; [|exact R4]. split; [exact Hok | exact Hge].
      * constructor; [exact R5|]. apply Forall_forall. intros c Hc i Hi. cbn [hd].
        assert (Hin : In i (concat rest)) by (apply in_concat; eauto).
        destruct (R2 i Hin) as [_ Hn].
        destruct (Nat.lt_ge_cases k i) as [Hlt | Hge']; [exact Hlt|].
        exfalso. apply Hn, Hlow'. lia.
Qed.

Lemma connected_components_spec :
  let comps := connected_components n adj in
  NoDup (concat comps) /\
  (forall i, In i (concat comps) <-> (i < n)%nat) /\
  Forall (fun c => component_ok adj c /\ forall i, In i c -> (hd 0%nat c <= i)%nat) comps /\
  StronglySorted (fun c c' : list nat => forall i, In i c' -> (hd 0%nat c < i)%nat) comps.
Proof.
  assert (Hnone : forall i, ~ is_visited (repeat false n) i).
  { intros i. unfold is_visited.
    destruct (Nat.lt_ge_cases i n) as [Hlt | Hge].
    - rewrite (nth_error_nth _ _ _ (nth_error_repeat false Hlt)). discriminate.
    - rewrite nth_overflow by (rewrite repeat_length; lia). discriminate. }
  destruct (components_loop_spec n 0 (repeat false n) ltac:(lia) (repeat_length _ _))
    as (H1 & H2 & H3 & H4 & H5).
  - intros a b Ha. now destruct (Hnone a).
  - intros i Hi. lia.
  - unfold connected_components. split; [exact H1|]. split; [|split; assumption].
    intro i. split; [apply H2|]. intro Hi. destruct (H3 i Hi) as [Hv | Hin]; [|exact Hin].
    now destruct (Hnone i).
Qed.

End Traversal.

Lemma nth_error_combine {A B : Type} (l : list A) (l' : list B) (j : nat) (x : A) (y : B) :
  nth_error l j = Some x -> nth_error l' j = Some y ->
  nth_error (combine l l') j = Some (x, y).
Proof.
  revert l' j. induction l as [|a l IH]; intros [|b l'] [|j] Hx Hy; cbn in *;
    try discriminate; try congruence.
  now apply IH.
Qed.

Lemma In_adjacency {K : Type} (eqb : K -> K -> bool) (corners : list (list K)) (a b : nat) :
  In b (adjacency eqb corners a) <->
  (b < length corners)%nat /\
  exists ka kb, In ka (nth a corners []) /\ In kb (nth b corners []) /\ eqb kb ka = true.
Proof.
  unfold adjacency, triangles_by_key. rewrite in_flat_map. split.
  - intros (ka & Hka & H). apply in_flat_map in H. destruct H as ([i c] & Hic & H).
    cbn [fst snd] in H. apply in_flat_map in H. destruct H as (kb & Hkb & H).
    destruct (eqb kb ka) eqn:E; [|contradiction]. destruct H as [<- | []].
    apply In_nth_error in Hic. destruct Hic as [j Hj].
    assert (Hjlen : (j < length corners)%nat).
    { pose proof (nth_error_Some (combine (seq 0 (length corners)) corners) j) as Hs.
      rewrite Hj in Hs. rewrite length_combine, length_seq, Nat.min_id in Hs.
      apply Hs. discriminate. }
    pose proof (nth_error_nth' corners [] Hjlen) as Hc.
    assert (Hseq : nth_error (seq 0 (length corners)) j = Some j).
    { rewrite nth_error_nth' with (d := 0%nat) by (rewrite length_seq; lia).
      now rewrite seq_nth. }
    assert (Hcomb : nth_error (combine (seq 0 (length corners)) corners) j
                    = Some (j, nth j corners [])).
    { now apply nth_error_combine. }
    rewrite Hcomb in Hj. injection Hj as <- <-.
    split; [exact Hjlen|]. exists ka, kb. repeat split; assumption.
  - intros (Hb & ka & kb & Hka & Hkb & E). exists ka. split; [exact Hka|].
    apply in_flat_map. exists (b, nth b corners []). split.
    + assert (Hseq : nth_error (seq 0 (length corners)) b = Some b).
      { rewrite nth_error_nth' with (d := 0%nat) by (rewrite length_seq; lia).
        now rewrite seq_nth. }
      pose proof (nth_error_nth' corners [] Hb) as Hc.
      apply (nth_error_In _ b). now apply nth_error_combine.
    + cbn [fst snd]. apply in_flat_map. exists kb. split; [exact Hkb|].
      rewrite E. now left.
Qed.

Section Components.

Variable adj : nat -> list nat.
Variable n : nat.
Hypothesis adj_range : forall a b, In b (adj a) -> (b < n)%nat.
Hypothesis adj_sym : forall a b, In b (adj a) -> In a (adj b).

Lemma reach_trans (a b c : nat) : reach adj a b -> reach adj b c -> reach adj a c.
Proof.
  intros Hab Hbc. induction Hbc as [|c d _ IH Hd]; [exact Hab|].
  eapply reach_step; eauto.
Qed.

Lemma reach_sym (a b : nat) : reach adj a b -> reach adj b a.
Proof.
  induction 1 as [|b c _ IH Hc]; [constructor|].
  eapply reach_trans; [|exact IH]. eapply reach_step; [constructor|]. now apply adj_sym.
Qed.

(** Two positions are in one component exactly when the adjacency lists
    connect them. *)
Lemma same_component_iff_reach (a b : nat) :
  (a < n)%nat ->
  same_component (connected_components n adj) a b <-> reach adj a b.
Proof.
  intro Ha.
  destruct (connected_components_spec adj n adj_range adj_sym) as (Hnd & Hcover & Hok & _).
  rewrite Forall_forall in Hok. split.
  - intros (c & Hc & Hac & Hbc). destruct (Hok c Hc) as [(_ & _ & Hreach) _].
    eapply reach_trans; [apply reach_sym; now apply Hreach | now apply Hreach].
  - intro Hreach. apply Hcover in Ha. apply in_concat in Ha. destruct Ha as (c & Hc & Hac).
    exists c. split; [exact Hc|]. split; [exact Hac|].
    destruct (Hok c Hc) as [(_ & Hclosed & _) _].
    induction Hreach as [|b d _ IH Hd]; [exact Hac|]. eapply Hclosed; eauto.
Qed.

End Components.

Lemma reach_chain (adj : nat -> list nat) (R : nat -> nat -> Prop) (a b : nat) :
  (forall x y, In y (adj x) <-> R x y) ->
  reach adj a b <-> chain R a b.
Proof.
  intro H. split; induction 1 as [|c d _ IH Hd]; try constructor;
    (econstructor; [exact IH|]); now apply H.
Qed.

Lemma faces_adjacency (faces : list (Z * Z * Z)) (a b : nat) :
  In b (adjacency Z.eqb
          (map (fun f : Z * Z * Z => let '(x, y, z) := f in [x; y; z]) faces) a)
  <-> share_vertex faces a b.
Proof.
  rewrite In_adjacency, length_map. unfold share_vertex, face_vertices.
  set (corners := map _ faces). split.
  - intros (Hb & ka & kb & Hka & Hkb & E). apply Z.eqb_eq in E. subst kb.
    split; [|split; [exact Hb | eauto]].
    destruct (Nat.lt_ge_cases a (length faces)) as [Hlt | Hge]; [exact Hlt|].
    rewrite nth_overflow in Hka by (unfold corners; rewrite length_map; lia). contradiction.
  - intros (_ & Hb & v & Hva & Hvb). split; [exact Hb|].
    exists v, v. repeat split; try assumption. apply Z.eqb_refl.
Qed.

Lemma key_eqb_eq (a b : Z * Z) : key_eqb a b = true <-> a = b.
Proof.
  destruct a as [a1 a2], b as [b1 b2]. unfold key_eqb. cbn [fst snd].
  rewrite andb_true_iff, !Z.eqb_eq. split; [intros [-> ->]; reflexivity|].
  intro H. injection H as -> ->. split; reflexivity.
Qed.

Lemma raw_adjacency (triangles_uv : list triangle) (a b : nat) :
  In b (adjacency key_eqb
          (map (fun t : triangle =>
                  let '(p0, p1, p2) := t in
                  [quantized_uv_key (fst p0) (snd p0);
                   quantized_uv_key (fst p1) (snd p1);
                   quantized_uv_key (fst p2) (snd p2)]) triangles_uv) a)
  <-> share_corner triangles_uv a b.
Proof.
  rewrite In_adjacency, length_map. unfold share_corner, triangle_keys.
  set (corners := map _ triangles_uv). split.
  - intros (Hb & ka & kb & Hka & Hkb & E). apply key_eqb_eq in E. subst kb.
    split; [|split; [exact Hb | eauto]].
    destruct (Nat.lt_ge_cases a (length triangles_uv)) as [Hlt | Hge]; [exact Hlt|].
    rewrite nth_overflow in Hka by (unfold corners; rewrite length_map; lia). contradiction.
  - intros (_ & Hb & k & Hka & Hkb). split; [exact Hb|].
    exists k, k. repeat split; try assumption. now apply key_eqb_eq.
Qed.

Lemma share_vertex_sym (faces : list (Z * Z * Z)) (a b : nat) :
  share_vertex faces a b -> share_vertex faces b a.
Proof. intros (Ha & Hb & v & H1 & H2). repeat split; eauto. Qed.

Lemma share_corner_sym (triangles_uv : list triangle) (a b : nat) :
  share_corner triangles_uv a b -> share_corner triangles_uv b a.
Proof. intros (Ha & Hb & v & H1 & H2). repeat split; eauto. Qed.

(** X7. The components found for an indexed face list partition the face
    positions: every position below the number of faces occurs in exactly
    one component, none is empty, each starts with its smallest position and
    the components are listed by ascending first position.  The traversal
    has emptied its stack within a fuel of the number of faces: more fuel
    gives the same components. *)
Theorem face_components_partition :
  forall faces : list (Z * Z * Z),
    let comps := connected_components_from_faces faces in
    NoDup (concat comps) /\
    (forall i, In i (concat comps) <-> (i < length faces)%nat) /\
    Forall (fun c => c <> [] /\ forall i, In i c -> (hd 0%nat c <= i)%nat) comps /\
    StronglySorted (fun c c' : list nat => forall i, In i c' -> (hd 0%nat c < i)%nat) comps /\
    forall extra : nat,
      components_loop (length faces + extra)
        (adjacency Z.eqb (map (fun f : Z * Z * Z => let '(a, b, c) := f in [a; b; c]) faces))
        (seq 0 (length faces)) (repeat false (length faces))
      = comps.
Proof.
  intros faces comps.
  destruct (connected_components_spec
              (adjacency Z.eqb (map (fun f : Z * Z * Z => let '(a, b, c) := f in [a; b; c]) faces))
              (length faces)) as (H1 & H2 & H3 & H4).
  - intros a b H. apply faces_adjacency in H. now destruct H as (_ & Hb & _).
  - intros a b H. apply faces_adjacency. apply share_vertex_sym. now apply faces_adjacency.
  - split; [exact H1|]. split; [exact H2|]. split; [|split; [exact H4|]].
    + eapply Forall_impl; [|exact H3]. intros c [(Hne & _) Hmin]. split; assumption.
    + intro extra. apply (connected_components_from_faces_fuel faces extra).
Qed.

(** X8. Two faces are put in the same component exactly when a chain of
    faces, each sharing a vertex index with the next, leads from one to the
    other. *)
Theorem face_components_are_connectivity_classes :
  forall (faces : list (Z * Z * Z)) (a b : nat),
    (a < length faces)%nat ->
    same_component (connected_components_from_faces faces) a b
    <-> chain (share_vertex faces) a b.
Proof.
  intros faces a b Ha. unfold connected_components_from_faces.
  rewrite same_component_iff_reach.
  - apply reach_chain. intros x y. apply faces_adjacency.
  - intros x y H. apply faces_adjacency in H. now destruct H as (_ & Hb & _).
  - intros x y H. apply faces_adjacency. apply share_vertex_sym. now apply faces_adjacency.
  - exact Ha.
Qed.

(** X9. For raw triangles the components partition the triangle positions
    in the same way, and two triangles are in one component exactly when a
    chain of triangles, each sharing a corner of equal quantized key with
    the next, connects them; the traversal needs no more fuel than the
    number of triangles. *)
Theorem raw_triangle_components_are_connectivity_classes :
  forall triangles_uv : list triangle,
    let comps := connected_components_from_raw_triangles triangles_uv in
    NoDup (concat comps) /\
    (forall i, In i (concat comps) <-> (i < length triangles_uv)%nat) /\
    Forall (fun c => c <> [] /\ forall i, In i c -> (hd 0%nat c <= i)%nat) comps /\
    StronglySorted (fun c c' : list nat => forall i, In i c' -> (hd 0%nat c < i)%nat) comps /\
    (forall a b, (a < length triangles_uv)%nat ->
                 same_component comps a b <-> chain (share_corner triangles_uv) a b) /\
    forall extra : nat,
      components_loop (length triangles_uv + extra)
        (adjacency key_eqb
           (map (fun t : triangle =>
                   let '(p0, p1, p2) := t in
                   [quantized_uv_key (fst p0) (snd p0);
                    quantized_uv_key (fst p1) (snd p1);
                    quantized_uv_key (fst p2) (snd p2)]) triangles_uv))
        (seq 0 (length triangles_uv)) (repeat false (length triangles_uv))
      = comps.
Proof.
  intros triangles_uv comps.
  set (adj := adjacency key_eqb
                (map (fun t : triangle =>
                        let '(p0, p1, p2) := t in
                        [quantized_uv_key (fst p0) (snd p0);
                         quantized_uv_key (fst p1) (snd p1);
                         quantized_uv_key (fst p2) (snd p2)]) triangles_uv)).
  assert (Hrange : forall a b, In b (adj a) -> (b < length triangles_uv)%nat).
  { intros a b H. apply raw_adjacency in H. now destruct H as (_ & Hb & _). }
  assert (Hsym : forall a b, In b (adj a) -> In a (adj b)).
  { intros a b H. apply raw_adjacency. apply share_corner_sym. now apply raw_adjacency. }
  destruct (connected_components_spec adj (length triangles_uv) Hrange Hsym)
    as (H1 & H2 & H3 & H4).
  split; [exact H1|]. split; [exact H2|]. split; [|split; [exact H4|split]].
  - eapply Forall_impl; [|exact H3]. intros c [(Hne & _) Hmin]. split; assumption.
  - intros a b Ha. subst comps. unfold connected_components_from_raw_triangles. fold adj.
    rewrite (same_component_iff_reach adj _ Hrange Hsym a b Ha).
    apply reach_chain. intros x y. apply raw_adjacency.
  - intro extra. apply (connected_components_from_raw_triangles_fuel triangles_uv extra).
Qed.

Lemma face_components_are_connectivity_classes_witness :
  same_component
    (connected_components_from_faces [(0, 1, 2); (7, 8, 9); (2, 3, 4); (4, 5, 6)]) 0 3.
Proof.
  apply (proj2 (face_components_are_connectivity_classes
                  [(0, 1, 2); (7, 8, 9); (2, 3, 4); (4, 5, 6)] 0 3 ltac:(cbn; lia))).
  apply chain_step with (b := 2%nat); [apply chain_step with (b := 0%nat); [constructor|]|].
  - split; [cbn; lia|]. split; [cbn; lia|]. exists 2. split; cbn; tauto.
  - split; [cbn; lia|]. split; [cbn; lia|]. exists 4. split; cbn; tauto.
Defined.

(** ** Colour conversion *)









Lemma Qbetween_true (lo x hi : Q) : Qbetween lo x hi = true <-> (lo <= x)%Q /\ (x < hi)%Q.
Proof.
  unfold Qbetween. rewrite andb_true_iff, Qle_bool_iff, Qltb_true. reflexivity.
Qed.











(** ** The gradient parameter *)






(** ** The principal axis *)

Lemma stride_from_upper {A : Type} (step skip : nat) (l : list A) :
  (skip < step)%nat ->
  (length (stride_from step skip l) * step + skip + 1 <= length l + step)%nat.
Proof.
  revert skip. induction l as [|x l IH]; intros skip Hs; cbn [stride_from length].
  - lia.
  - destruct skip as [|s]; cbn [length].
    + specialize (IH (step - 1)%nat ltac:(lia)). lia.
    + specialize (IH s ltac:(lia)). lia.
Qed.

Lemma stride_from_lower {A : Type} (step skip : nat) (l : list A) :
  (1 <= step)%nat ->
  (length l <= length (stride_from step skip l) * step + skip)%nat.
Proof.
  intro H1. revert skip. induction l as [|x l IH]; intro skip; cbn [stride_from length].
  - lia.
  - destruct skip as [|s]; cbn [length].
    + specialize (IH (step - 1)%nat). lia.
    + specialize (IH s). lia.
Qed.

Lemma stride_from_incl {A : Type} (step skip : nat) (l : list A) (x : A) :
  In x (stride_from step skip l) -> In x l.
Proof.
  revert skip. induction l as [|y l IH]; intro skip; cbn [stride_from]; [tauto|].
  destruct skip as [|s].
  - intros [-> | H]; [now left | right; eauto].
  - intro H. right. eauto.
Qed.

Lemma sample_step_bounds (n : Z) :
  20000 < n ->
  let step := Qceiling (inject_Z n / 20000.0) in
  2 <= step /\ n <= 20000 * step /\ 20000 * (step - 1) < n.
Proof.
  intros Hn step.
  pose proof (Qle_ceiling (inject_Z n / 20000.0)) as Hc.
  pose proof (Qceiling_lt (inject_Z n / 20000.0)) as Hl.
  fold step in Hc, Hl.
  assert (E : (inject_Z n / 20000.0 * 20000 == inject_Z n)%Q) by field.
  assert (H1 : (inject_Z n <= inject_Z (20000 * step))%Q).
  { rewrite inject_Z_mult. change (inject_Z 20000) with 20000%Q. lra. }
  assert (H2 : (inject_Z (20000 * (step - 1)) < inject_Z n)%Q).
  { rewrite inject_Z_mult. change (inject_Z 20000) with 20000%Q. lra. }
  rewrite <- Zle_Qle in H1. rewrite <- Zlt_Qlt in H2. lia.
Qed.

(** X13. A point set of more than 20000 UVs is subsampled before the
    covariance is taken: every step-th point from the first, with
    step = ceil(n / 20000).  The sample consists of points of the set, has
    more than 10000 and at most 20000 of them, and the axis of the set is the
    axis of its sample. *)
Theorem principal_axis_uses_bounded_sample :
  forall (eigh : mat2 -> option (Q * Q * mat2)) (vec_norm : uv -> Q)
         (points_uv : list uv) (eps : Q),
    20000 < Z.of_nat (length points_uv) ->
    let step := Z.to_nat (Qceiling (inject_Z (Z.of_nat (length points_uv)) / 20000.0)) in
    let sample := stride_from step 0 points_uv in
    10000 < Z.of_nat (length sample) <= 20000 /\
    (forall p, In p sample -> In p points_uv) /\
    compute_principal_axis eigh vec_norm points_uv eps
    = compute_principal_axis eigh vec_norm sample eps.
Proof.
  intros eigh vec_norm points_uv eps Hn step sample.
  destruct (sample_step_bounds _ Hn) as (S2 & Sup & Slo).
  set (zstep := Qceiling (inject_Z (Z.of_nat (length points_uv)) / 20000.0)) in *.
  assert (Hstep : Z.of_nat step = zstep) by (unfold step; lia).
  pose proof (stride_from_upper step 0 points_uv ltac:(lia)) as Hup.
  pose proof (stride_from_lower step 0 points_uv ltac:(lia)) as Hlow.
  fold sample in Hup, Hlow.
  assert (Hlen : 10000 < Z.of_nat (length sample) <= 20000) by nia.
  split; [exact Hlen|]. split; [intros p; apply stride_from_incl|].
  unfold compute_principal_axis at 1 2.
  assert (E1 : (length points_uv <? 2)%nat = false) by (apply Nat.ltb_ge; lia).
  assert (E2 : (20000 <? Z.of_nat (length points_uv)) = true) by (apply Z.ltb_lt; lia).
  assert (E3 : (length sample <? 2)%nat = false) by (apply Nat.ltb_ge; lia).
  assert (E4 : (20000 <? Z.of_nat (length sample)) = false) by (apply Z.ltb_ge; lia).
  rewrite E1, E2, E3, E4. reflexivity.
Qed.

Lemma principal_axis_uses_bounded_sample_witness :
  let points_uv := repeat (0, 0)%Q (Z.to_nat 20001) in
  10000 < Z.of_nat (length (stride_from 2 0 points_uv)) <= 20000.
Proof.
  intro points_uv.
  exact (proj1 (principal_axis_uses_bounded_sample (fun _ => None) (fun _ => 1%Q)
                  points_uv EPS ltac:(vm_compute; reflexivity))).
Defined.

Lemma Qabs_flip (x : Q) : (Qabs (x * -1.0) == Qabs x)%Q.
Proof.
  assert (E : (x * -1.0 == - x)%Q) by ring. rewrite E. apply Qabs_opp.
Qed.

(** X14. The principal axis is sign-normalised, so that the gradient has a
    definite direction: no axis is returned for fewer than two points, and
    of an axis (a, b) that is returned the component of larger magnitude
    is not negative (a when |b| <= |a|, b otherwise), whatever eigenvectors
    the solver delivers. *)
Theorem principal_axis_is_oriented :
  forall (eigh : mat2 -> option (Q * Q * mat2)) (vec_norm : uv -> Q)
         (points_uv : list uv) (eps : Q) (a b : Q),
    compute_principal_axis eigh vec_norm points_uv eps = Some (a, b) ->
    (2 <= length points_uv)%nat /\
    ((Qabs b <= Qabs a)%Q /\ (0 <= a)%Q \/ (Qabs a < Qabs b)%Q /\ (0 <= b)%Q).
Proof.
  intros eigh vec_norm points_uv eps a b. unfold compute_principal_axis.
  destruct (length points_uv <? 2)%nat eqn:E; [discriminate|].
  apply Nat.ltb_ge in E.
  destruct (eigh _) as [[[w0 w1] [[e00 e01] [e10 e11]]]|]; [|discriminate].
  set (axis0 := if Qltb w0 w1 then (e01, e11) else (e00, e10)).
  destruct (Qltb (vec_norm axis0) eps); [discriminate|].
  cbn [fst snd].
  set (ax := (fst axis0 / vec_norm axis0)%Q). set (ay := (snd axis0 / vec_norm axis0)%Q).
  destruct (Qle_bool (Qabs ay) (Qabs ax)) eqn:Edom; qbool.
  - destruct (Qltb ax 0) eqn:Eneg; qbool; intro H; injection H as <- <-;
      (split; [exact E|]); left.
    + rewrite !Qabs_flip. split; [exact Edom | lra].
    + split; assumption.
  - destruct (Qltb ay 0) eqn:Eneg; qbool; intro H; injection H as <- <-;
      (split; [exact E|]); right.
    + rewrite !Qabs_flip. split; [exact Edom | lra].
    + split; assumption.
Qed.

Lemma principal_axis_is_oriented_witness :
  (2 <= length [(0, 0); (1, 0)]%Q)%nat /\
  ((Qabs 0 <= Qabs 1)%Q /\ (0 <= 1)%Q \/ (Qabs 1 < Qabs 0)%Q /\ (0 <= 0)%Q).
Proof.
  apply (principal_axis_is_oriented
           (fun _ => Some ((1, 0), ((1, 0), (0, 1)))%Q) (fun _ => 1%Q)
           [(0, 0); (1, 0)]%Q EPS 1%Q 0%Q).
  vm_compute. reflexivity.
Defined.

(** ** Reading an ID map *)

Lemma cell_at_map_map {A B : Type} (f : A -> B) (rows : list (list A)) (x y : nat) :
  cell_at (map (map f) rows) x y = option_map f (cell_at rows x y).
Proof.
  unfold cell_at. rewrite nth_error_map.
  destruct (nth_error rows y) as [row|]; cbn [option_map]; [|reflexivity].
  now rewrite nth_error_map.
Qed.

(** X15. In a colour ID map the id of a pixel is its colour read as a 24-bit
    number, 65536 r + 256 g + b, provided the pixel is not fully transparent
    when the image has an alpha channel; ids lie in [0, 2^24), and two
    pixels have the same id only if they have the same colour. *)
Theorem colour_id_map_ids_are_colours :
  forall (channels : nat) (rows : list (list (list Z))) (ids : list (list Z))
         (x y : nat) (r g b : Z) (rest : list Z),
    (3 <= channels)%nat ->
    load_id_map (Multi channels rows) = Ok ids ->
    cell_at rows x y = Some (r :: g :: b :: rest) ->
    0 <= r < 256 -> 0 <= g < 256 -> 0 <= b < 256 ->
    ((4 <= channels)%nat -> channel (r :: g :: b :: rest) 3 <> 0) ->
    cell_at ids x y = Some (r * 65536 + g * 256 + b) /\
    0 <= r * 65536 + g * 256 + b < 2 ^ 24 /\
    forall (x' y' : nat) (r' g' b' : Z) (rest' : list Z),
      cell_at rows x' y' = Some (r' :: g' :: b' :: rest') ->
      0 <= r' < 256 -> 0 <= g' < 256 -> 0 <= b' < 256 ->
      ((4 <= channels)%nat -> channel (r' :: g' :: b' :: rest') 3 <> 0) ->
      cell_at ids x' y' = cell_at ids x y ->
      r' = r /\ g' = g /\ b' = b.
Proof.
  intros channels rows ids x y r g b rest Hch Hload Hcell Hr Hg Hb Halpha.
  assert (Hid : forall x0 y0 r0 g0 b0 rest0,
             cell_at rows x0 y0 = Some (r0 :: g0 :: b0 :: rest0) ->
             0 <= r0 < 256 -> 0 <= g0 < 256 -> 0 <= b0 < 256 ->
             ((4 <= channels)%nat -> channel (r0 :: g0 :: b0 :: rest0) 3 <> 0) ->
             cell_at ids x0 y0 = Some (r0 * 65536 + g0 * 256 + b0)).
  { intros x0 y0 r0 g0 b0 rest0 Hc H1 H2 H3 Ha.
    destruct (pack_rgb_24_bit r0 g0 b0 rest0 H1 H2 H3) as [Epack _].
    cbn [load_id_map] in Hload.
    replace (3 <=? channels)%nat with true in Hload by (symmetry; apply Nat.leb_le; lia).
    destruct (4 <=? channels)%nat eqn:E4; injection Hload as <-;
      rewrite cell_at_map_map, Hc; cbn [option_map].
    - apply Nat.leb_le in E4. specialize (Ha E4).
      destruct (Z.eqb_spec (channel (r0 :: g0 :: b0 :: rest0) 3) 0); [contradiction|].
      now rewrite Epack.
    - now rewrite Epack. }
  split; [now apply (Hid x y r g b rest)|]. split; [lia|].
  intros x' y' r' g' b' rest' Hc' Hr' Hg' Hb' Ha' Heq.
  rewrite (Hid x y r g b rest), (Hid x' y' r' g' b' rest') in Heq by assumption.
  injection Heq as Heq. lia.
Qed.

Lemma colour_id_map_ids_are_colours_witness :
  cell_at [[16711680; 255]] 1 0 = Some (0 * 65536 + 0 * 256 + 255).
Proof.
  apply (proj1 (colour_id_map_ids_are_colours 4
                  [[[255; 0; 0; 255]; [0; 0; 255; 128]]] [[16711680; 255]]
                  1 0 0 0 255 [128]
                  ltac:(lia) ltac:(reflexivity) ltac:(reflexivity)
                  ltac:(lia) ltac:(lia) ltac:(lia) ltac:(cbn; lia))).
Defined.

(** ** UVs inferred from pixel positions *)

(** X16. The UVs inferred for pixels of the canvas are the pixel centres:
    one per pixel, strictly inside the unit square, u growing with x and v
    falling as y grows (row 0 is the top of the image). *)
Theorem inferred_uvs_are_pixel_centres :
  forall (pixels : list pixel) (width height : Z),
    Forall (in_canvas width height) pixels ->
    let uvs := infer_uvs_from_pixels pixels width height in
    length uvs = length pixels /\
    Forall (fun p : uv => (0 < fst p)%Q /\ (fst p < 1)%Q /\ (0 < snd p)%Q /\ (snd p < 1)%Q) uvs /\
    forall (i j : nat) (p q : pixel) (a b : uv),
      nth_error pixels i = Some p -> nth_error pixels j = Some q ->
      nth_error uvs i = Some a -> nth_error uvs j = Some b ->
      (fst p < fst q <-> (fst a < fst b)%Q) /\
      (snd p < snd q <-> (snd b < snd a)%Q).
Proof.
  intros pixels width height Hcanvas uvs. subst uvs. unfold infer_uvs_from_pixels.
  rewrite Forall_forall in Hcanvas.
  assert (Hdiv : forall (n d m : Z), 0 < d ->
             ((inject_Z n + 0.5) / inject_Z d < (inject_Z m + 0.5) / inject_Z d)%Q <-> n < m).
  { intros n d m Hd.
    assert (Hd' : (0 < inject_Z d)%Q) by (change 0%Q with (inject_Z 0); now rewrite <- Zlt_Qlt).
    rewrite Zlt_Qlt. split; intro H.
    - apply Qmult_lt_r with (z := inject_Z d) in H; [|exact Hd'].
      assert (E1 : ((inject_Z n + 0.5) / inject_Z d * inject_Z d == inject_Z n + 0.5)%Q)
        by (field; lra).
      assert (E2 : ((inject_Z m + 0.5) / inject_Z d * inject_Z d == inject_Z m + 0.5)%Q)
        by (field; lra).
      lra.
    - apply Qmult_lt_r with (z := inject_Z d); [exact Hd'|].
      assert (E1 : ((inject_Z n + 0.5) / inject_Z d * inject_Z d == inject_Z n + 0.5)%Q)
        by (field; lra).
      assert (E2 : ((inject_Z m + 0.5) / inject_Z d * inject_Z d == inject_Z m + 0.5)%Q)
        by (field; lra).
      lra. }
  assert (Hunit : forall (n d : Z), 0 <= n < d ->
             (0 < (inject_Z n + 0.5) / inject_Z d)%Q /\ ((inject_Z n + 0.5) / inject_Z d < 1)%Q).
  { intros n d Hn.
    assert (Hd' : (0 < inject_Z d)%Q)
      by (change 0%Q with (inject_Z 0); rewrite <- Zlt_Qlt; lia).
    assert (Hn0 : (0 <= inject_Z n)%Q)
      by (change 0%Q with (inject_Z 0); rewrite <- Zle_Qle; lia).
    assert (Hn1 : (inject_Z n + 1 <= inject_Z d)%Q).
    { change 1%Q with (inject_Z 1). rewrite <- inject_Z_plus, <- Zle_Qle. lia. }
    split.
    - apply Qlt_shift_div_l; [exact Hd' | lra].
    - apply Qlt_shift_div_r; [exact Hd' | lra]. }
  split; [apply length_map|]. split.
  - apply Forall_map, Forall_forall. intros [x y] Hp.
    destruct (Hcanvas _ Hp) as [Hx Hy]. cbn [fst snd] in *.
    rewrite !Z.max_r by lia.
    destruct (Hunit x width Hx) as [U0 U1]. destruct (Hunit y height Hy) as [V0 V1].
    repeat split; lra.
  - intros i j [x y] [x' y'] a b Hp Hq Ha Hb.
    rewrite nth_error_map in Ha, Hb. rewrite Hp in Ha. rewrite Hq in Hb.
    cbn [option_map] in Ha, Hb. injection Ha as <-. injection Hb as <-.
    destruct (Hcanvas _ (nth_error_In _ _ Hp)) as [Hx Hy]. cbn [fst snd] in *.
    rewrite !Z.max_r by lia.
    split.
    + symmetry. apply Hdiv. lia.
    + rewrite <- (Hdiv y height y') by lia. split; intro H; lra.
Qed.

Lemma inferred_uvs_are_pixel_centres_witness :
  infer_uvs_from_pixels [(0, 0); (1, 1)] 2 2 = [(0.5 / 2, 1.0 - 0.5 / 2); (1.5 / 2, 1.0 - 1.5 / 2)]%Q /\
  length (infer_uvs_from_pixels [(0, 0); (1, 1)] 2 2) = 2%nat.
Proof.
  split; [vm_compute; reflexivity|].
  apply (inferred_uvs_are_pixel_centres [(0, 0); (1, 1)] 2 2).
  repeat constructor; cbn; lia.
Defined.

(** ** Welding of raw triangles *)



(** ** Explicit mode: order, ids and validation *)

Lemma explicit_entry_inv (idx : nat) (entry : entry_fields) (width height : Z)
    (r : option IslandData) :
  explicit_entry idx (Entry entry) width height = Ok r ->
  exists px,
    entry_source entry = Ok px /\
    match r with
    | None => normalize_pixels px width height = []
    | Some island =>
        island_id island = descriptor_id idx entry /\
        pixels island = normalize_pixels px width height /\
        pixels island <> []
    end.
Proof.
  unfold explicit_entry, entry_source, descriptor_id.
  destruct (match e_pixels entry, e_mask entry with
            | Some px, _ => parse_int_points px "islands[].pixels"
            | None, Some mask => Ok (mask_pixels_from_image mask)
            | None, None => Err (ValueError "islands[idx] needs either 'pixels' or 'mask'.")
            end) as [px|e]; cbn [bind]; [|discriminate].
  intro H. exists px. split; [reflexivity|].
  destruct (normalize_pixels px width height) as [|p ps] eqn:Enorm.
  - injection H as <-. reflexivity.
  - destruct (match e_uvs entry with Some _ => _ | None => _ end) as [uvs|e];
      cbn [bind] in H; [|discriminate].
    destruct (match e_uv_points entry with Some _ => _ | None => _ end) as [pts|e];
      cbn [bind] in H; [|discriminate].
    injection H as <-. cbn [island_id pixels]. repeat split. discriminate.
Qed.

Lemma explicit_loop_order (idx : nat) (islands_raw : list entry_raw) (width height : Z)
    (islands : list IslandData) :
  explicit_loop idx islands_raw width height = Ok islands ->
  exists ks : list nat,
    StronglySorted Nat.lt ks /\
    Forall (fun k => (idx <= k)%nat) ks /\
    Forall2 (fun k island =>
               exists entry,
                 nth_error islands_raw (k - idx) = Some (Entry entry) /\
                 island_id island = descriptor_id k entry /\
                 pixels island = normalize_pixels (entry_source_pixels (Entry entry))
                                                  width height /\
                 pixels island <> []) ks islands /\
    forall k entry,
      nth_error islands_raw k = Some (Entry entry) ->
      normalize_pixels (entry_source_pixels (Entry entry)) width height <> [] ->
      In (idx + k)%nat ks.
Proof.
  revert idx islands. induction islands_raw as [|raw rest IH]; intros idx islands;
    cbn [explicit_loop].
  - intro H. injection H as <-. exists []. split; [constructor|]. split; [constructor|].
    split; [constructor|]. intros k entry Hk. destruct k; discriminate.
  - destruct (explicit_entry idx raw width height) as [r|e] eqn:Er; cbn [bind]; [|discriminate].
    destruct (explicit_loop (S idx) rest width height) as [tl|e] eqn:El; cbn [bind];
      [|discriminate].
    intro H. injection H as <-.
    destruct (IH (S idx) tl El) as (ks & Hs & Hge & Hf & Hall).
    assert (Hshift : Forall2 (fun k island =>
               exists entry,
                 nth_error (raw :: rest) (k - idx) = Some (Entry entry) /\
                 island_id island = descriptor_id k entry /\
                 pixels island = normalize_pixels (entry_source_pixels (Entry entry))
                                                  width height /\
                 pixels island <> []) ks tl).
    { clear -Hf Hge. induction Hf as [|k island ks tl Hk _ IHf]; constructor.
      - inversion Hge as [|? ? Hk0 _]; subst.
        destruct Hk as (entry & Hn & Hrest). exists entry. split; [|exact Hrest].
        replace (k - idx)%nat with (S (k - S idx)) by lia. exact Hn.
      - apply IHf. now inversion Hge. }
    assert (Hge' : Forall (fun k => (idx <= k)%nat) ks).
    { eapply Forall_impl; [|exact Hge]. cbn. intros; lia. }
    assert (Hrest : forall k entry,
               nth_error rest k = Some (Entry entry) ->
               normalize_pixels (entry_source_pixels (Entry entry)) width height <> [] ->
               In (idx + S k)%nat ks).
    { intros k entry Hk Hne. replace (idx + S k)%nat with (S idx + k)%nat by lia. eauto. }
    destruct raw as [|entry].
    + cbn in Er. injection Er as <-. exists ks.
      split; [exact Hs|]. split; [exact Hge'|]. split; [exact Hshift|].
      intros [|k] entry Hk Hne; [discriminate | cbn in Hk; eauto].
    + destruct (explicit_entry_inv idx entry width height r Er) as (px & Esrc & Hr).
      assert (Epx : entry_source_pixels (Entry entry) = px)
        by (cbn [entry_source_pixels]; now rewrite Esrc).
      destruct r as [island|].
      * destruct Hr as (Hid & Hpx & Hne). exists (idx :: ks).
        split; [constructor; [exact Hs|]; eapply Forall_impl; [|exact Hge]; cbn; intros; lia|].
        split; [constructor; [lia | exact Hge']|]. split.
        -- constructor; [|exact Hshift]. exists entry. rewrite Nat.sub_diag, Epx.
           repeat split; assumption.
        -- intros [|k] entry' Hk Hne'.
           ++ left. lia.
           ++ right. cbn in Hk. eauto.
      * exists ks. split; [exact Hs|]. split; [exact Hge'|]. split; [exact Hshift|].
        intros [|k] entry' Hk Hne'.
        -- cbn in Hk. injection Hk as <-. rewrite Epx in Hne'. contradiction.
        -- cbn in Hk. eauto.
Qed.

(** X18. Explicit mode keeps the order of the payload: the islands returned
    are those of the descriptors whose pixel set, clipped to the canvas, is
    not empty, in ascending position; each has the clipped, deduplicated
    pixels of its descriptor and the descriptor's [id], or, without one, the
    1-based position of the descriptor in the payload, descriptors that were
    skipped included. *)
Theorem explicit_islands_follow_payload_order :
  forall (payload : Payload) (islands : list IslandData) (width height : Z),
    islands_from_explicit_payload payload = Ok (islands, width, height) ->
    exists (islands_raw : list entry_raw) (ks : list nat),
      p_islands payload = Some islands_raw /\
      StronglySorted Nat.lt ks /\
      Forall2 (island_of_descriptor islands_raw width height) ks islands /\
      forall k entry,
        nth_error islands_raw k = Some (Entry entry) ->
        normalize_pixels (entry_source_pixels (Entry entry)) width height <> [] ->
        In k ks.
Proof.
  intros payload islands width height H.
  apply islands_from_explicit_payload_inv in H.
  destruct H as (islands_raw & Hraw & _ & _ & _ & Hloop).
  destruct (explicit_loop_order 0 islands_raw width height islands Hloop)
    as (ks & Hs & _ & Hf & Hall).
  exists islands_raw, ks. split; [exact Hraw|]. split; [exact Hs|]. split.
  - eapply Forall2_impl; [|exact Hf]. intros k island (entry & Hn & Hrest).
    exists entry. rewrite Nat.sub_0_r in Hn. split; assumption.
  - intros k entry Hk Hne. exact (Hall k entry Hk Hne).
Qed.

Lemma explicit_islands_follow_payload_order_witness :
  let payload :=
    mkPayload None None (Some 2) (Some 2)
      (Some [ NotADict;
              Entry (mkEntry None (Some [[0; 0]]) None None None);
              Entry (mkEntry None (Some [[5; 5]]) None None None);
              Entry (mkEntry None (Some [[1; 1]]) None None None) ])
      None None None in
  let islands :=
    [mkIsland (IdInt 2) [(0, 0)] None None; mkIsland (IdInt 4) [(1, 1)] None None] in
  islands_from_explicit_payload payload = Ok (islands, 2, 2) /\
  exists (islands_raw : list entry_raw) (ks : list nat),
    p_islands payload = Some islands_raw /\
    StronglySorted Nat.lt ks /\
    Forall2 (island_of_descriptor islands_raw 2 2) ks islands.
Proof.
  intros payload islands.
  assert (E : islands_from_explicit_payload payload = Ok (islands, 2, 2))
    by (vm_compute; reflexivity).
  split; [exact E|].
  destruct (explicit_islands_follow_payload_order payload islands 2 2 E)
    as (islands_raw & ks & H1 & H2 & H3 & _).
  exists islands_raw, ks. repeat split; assumption.
Defined.

Lemma explicit_loop_sources (idx : nat) (islands_raw : list entry_raw) (width height : Z)
    (islands : list IslandData) (entry : entry_fields) :
  explicit_loop idx islands_raw width height = Ok islands ->
  In (Entry entry) islands_raw ->
  exists px, entry_source entry = Ok px.
Proof.
  revert idx islands. induction islands_raw as [|raw rest IH]; intros idx islands;
    cbn [explicit_loop]; [intros _ []|].
  destruct (explicit_entry idx raw width height) as [r|e] eqn:Er; cbn [bind]; [|discriminate].
  destruct (explicit_loop (S idx) rest width height) as [tl|e] eqn:El; cbn [bind];
    [|discriminate].
  intros _ [-> | Hin]; [|eauto].
  destruct (explicit_entry_inv idx entry width height r Er) as (px & Esrc & _). eauto.
Qed.

(** X19. Explicit mode validates every descriptor before it returns, those
    it then skips included: on success the canvas is positive, taken from the
    payload's width and height when both are given and from the first mask
    otherwise, and no descriptor has an empty [pixels] list or lacks both
    [pixels] and [mask]. *)
Theorem explicit_mode_validates_every_descriptor :
  forall (payload : Payload) (islands : list IslandData) (width height : Z),
    islands_from_explicit_payload payload = Ok (islands, width, height) ->
    exists islands_raw : list entry_raw,
      p_islands payload = Some islands_raw /\
      0 < width /\ 0 < height /\
      (p_width payload = Some width /\ p_height payload = Some height \/
       (p_width payload = None \/ p_height payload = None) /\
       exists mask, first_mask islands_raw = Some mask /\ shape mask = (height, width)) /\
      forall entry,
        In (Entry entry) islands_raw ->
        e_pixels entry <> Some [] /\ (e_pixels entry = None -> e_mask entry <> None).
Proof.
  intros payload islands width height H.
  destruct (islands_from_explicit_payload_inv _ _ _ _ H)
    as (islands_raw & Hraw & Hw & Hh & _ & Hloop).
  exists islands_raw. split; [exact Hraw|]. split; [exact Hw|]. split; [exact Hh|]. split.
  - unfold islands_from_explicit_payload in H. rewrite Hraw in H.
    destruct islands_raw as [|raw0 rest0]; [discriminate|].
    destruct (p_width payload) as [w|], (p_height payload) as [h|];
      try (destruct (first_mask (raw0 :: rest0)) as [mask|]; [|discriminate];
           destruct (shape mask) as [mh mw] eqn:Eshape);
      (destruct ((_ <=? 0) || (_ <=? 0)); [discriminate|]);
      (destruct (explicit_loop 0 _ _ _) as [[|i0 is0]|e]; cbn [bind] in H; try discriminate);
      injection H as _ <- <-.
    + now left.
    + right. split; [now right|]. exists mask. split; [reflexivity | exact Eshape].
    + right. split; [now left|]. exists mask. split; [reflexivity | exact Eshape].
    + right. split; [now left|]. exists mask. split; [reflexivity | exact Eshape].
  - intros entry Hin.
    destruct (explicit_loop_sources 0 islands_raw width height islands entry Hloop Hin)
      as (px & Hsrc).
    unfold entry_source in Hsrc. split.
    + intro E. rewrite E in Hsrc. discriminate Hsrc.
    + intros E1 E2. rewrite E1, E2 in Hsrc. discriminate Hsrc.
Qed.

Lemma explicit_mode_validates_every_descriptor_witness :
  exists islands_raw : list entry_raw,
    p_islands overlapping_descriptors = Some islands_raw /\
    forall entry, In (Entry entry) islands_raw -> e_pixels entry <> Some [].
Proof.
  destruct (explicit_mode_validates_every_descriptor overlapping_descriptors
              [mkIsland (IdStr "a") [(0, 0)] None None;
               mkIsland (IdStr "b") [(0, 0)] None None]
              1 1 ltac:(vm_compute; reflexivity))
    as (islands_raw & H1 & _ & _ & _ & H2).
  exists islands_raw. split; [exact H1|]. intros entry Hin. now destruct (H2 entry Hin).
Defined.

(** ** Mesh mode: what the resolver can return *)

Lemma components_spec_in_range (adj : nat -> list nat) (n : nat) :
  (forall a b, In b (adj a) -> (b < n)%nat) ->
  (forall a b, In b (adj a) -> In a (adj b)) ->
  components_in_range n (connected_components n adj).
Proof.
  intros Hrange Hsym.
  destruct (connected_components_spec adj n Hrange Hsym) as (_ & Hcover & Hok & _).
  apply Forall_forall. intros c Hc. rewrite Forall_forall in Hok.
  destruct (Hok c Hc) as [(Hne & _) _]. split; [exact Hne|].
  apply Forall_forall. intros i Hi. apply Hcover. apply in_concat. eauto.
Qed.

Lemma face_components_in_range (faces : list (Z * Z * Z)) :
  components_in_range (length faces) (connected_components_from_faces faces).
Proof.
  apply components_spec_in_range.
  - intros a b H. apply faces_adjacency in H. now destruct H as (_ & Hb & _).
  - intros a b H. apply faces_adjacency. apply share_vertex_sym. now apply faces_adjacency.
Qed.

Lemma raw_components_in_range (triangles_uv : list triangle) :
  components_in_range (length triangles_uv)
                      (connected_components_from_raw_triangles triangles_uv).
Proof.
  apply components_spec_in_range.
  - intros a b H. apply raw_adjacency in H. now destruct H as (_ & Hb & _).
  - intros a b H. apply raw_adjacency. apply share_corner_sym. now apply raw_adjacency.
Qed.

(** Every way through [islands_from_mesh_payload]: a rejection, or the
    component loop on a positive canvas over components that index into the
    triangle array. *)
Lemma islands_from_mesh_payload_cases (payload : Payload)
    (P : result (list IslandData * Z * Z) -> Prop) :
  (forall msg, P (Err (ValueError msg))) ->
  P (Err OverflowError) ->
  (forall triangles_uv components,
      0 < opt_default (p_width payload) 0 -> 0 < opt_default (p_height payload) 0 ->
      components_in_range (length triangles_uv) components ->
      P (islands_from_components (opt_default (p_width payload) 0)
           (opt_default (p_height payload) 0)
           (opt_default (p_background_id payload) 0) triangles_uv components)) ->
  P (islands_from_mesh_payload payload).
Proof.
  intros Hval Hovf Hrun. unfold islands_from_mesh_payload.
  destruct ((opt_default (p_width payload) 0 <=? 0) || (opt_default (p_height payload) 0 <=? 0))
    eqn:Hpos; [apply Hval|].
  apply orb_false_iff in Hpos. destruct Hpos as [Hw Hh]. apply Z.leb_gt in Hw, Hh.
  assert (Htri : forall triangles,
             P (match triangles, parse_triangles triangles with
                | _ :: _, Some triangles_uv =>
                    islands_from_components (opt_default (p_width payload) 0)
                      (opt_default (p_height payload) 0)
                      (opt_default (p_background_id payload) 0) triangles_uv
                      (connected_components_from_raw_triangles triangles_uv)
                | _, _ => Err (ValueError "triangles must be an (M,3,2) array.")
                end)).
  { intros [|t ts]; [apply Hval|].
    destruct (parse_triangles (t :: ts)) as [tris|]; [|apply Hval].
    apply Hrun; try assumption. apply raw_components_in_range. }
  assert (Hfaces : forall uv_vertices faces,
             P (uv_vertices_arr <- parse_float_points uv_vertices "uv_vertices" ;;
                if negb (forallb (forallb int64_ok) faces) then Err OverflowError
                else
                  match faces, rows_to_triples faces with
                  | _ :: _, Some faces_arr =>
                      let n := Z.of_nat (length uv_vertices_arr) in
                      let in_range (i : Z) := (0 <=? i) && (i <? n) in
                      if forallb (fun f : Z * Z * Z =>
                                    let '(a, b, c) := f in
                                    in_range a && in_range b && in_range c) faces_arr
                      then
                        let vertex (i : Z) := nth (Z.to_nat i) uv_vertices_arr (0, 0)%Q in
                        let triangles_uv :=
                          map (fun f : Z * Z * Z =>
                                 let '(a, b, c) := f in (vertex a, vertex b, vertex c))
                              faces_arr in
                        let components := connected_components_from_faces faces_arr in
                        islands_from_components (opt_default (p_width payload) 0)
                          (opt_default (p_height payload) 0)
                          (opt_default (p_background_id payload) 0) triangles_uv components
                      else Err (ValueError "faces contain out-of-range UV vertex indices.")
                  | _, _ => Err (ValueError "faces must be an (M,3) array.")
                  end)).
  { intros uv_vertices faces. unfold parse_float_points.
    destruct uv_vertices as [|r rs]; [apply Hval|].
    destruct (rows_to_pairs (r :: rs)) as [arr|]; cbn [bind]; [|apply Hval].
    destruct (negb (forallb (forallb int64_ok) faces)); [apply Hovf|].
    destruct faces as [|f fs]; [apply Hval|].
    destruct (rows_to_triples (f :: fs)) as [faces_arr|]; [|apply Hval].
    cbv zeta. destruct (forallb _ faces_arr); [|apply Hval].
    apply Hrun; try assumption. rewrite length_map. apply face_components_in_range. }
  destruct (p_uv_vertices payload) as [uv_vertices|];
    destruct (p_faces payload) as [faces|];
    destruct (p_triangles payload) as [triangles|];
    try apply Hval; try apply Hfaces; apply Htri.
Qed.

Lemma take_triangles_ok (triangles_uv : list triangle) (comp : list nat) :
  Forall (fun i => (i < length triangles_uv)%nat) comp ->
  exists ts, take_triangles triangles_uv comp = Ok ts /\ length ts = length comp.
Proof.
  induction 1 as [|i comp Hi _ IH]; cbn [take_triangles]; [now exists []|].
  destruct (nth_error triangles_uv i) as [t|] eqn:E.
  - destruct IH as (ts & -> & Hlen). cbn [bind]. exists (t :: ts).
    split; [reflexivity | cbn; now rewrite Hlen].
  - apply nth_error_None in E. lia.
Qed.

Lemma mesh_loop_ok (width height background_id : Z) (triangles_uv : list triangle)
    (components : list (list nat)) (st : mesh_state) :
  components_in_range (length triangles_uv) components ->
  exists st', mesh_loop width height background_id triangles_uv st components = Ok st'.
Proof.
  intro H. revert st. induction H as [|comp rest [_ Hc] _ IH]; intro st; cbn [mesh_loop].
  - now exists st.
  - unfold mesh_component.
    destruct (take_triangles_ok triangles_uv comp Hc) as (ts & -> & _). cbn [bind].
    destruct (where_pixels _ _); cbn [bind]; apply IH.
Qed.

(** X20. Mesh mode never fails on an index: the components found by the
    traversal name triangles of the array, so the resolver either rejects
    the payload with a ValueError (or an OverflowError for an integer NumPy
    cannot hold) or runs the whole component loop. *)
Theorem mesh_mode_never_raises_index_error :
  forall payload : Payload, islands_from_mesh_payload payload <> Err IndexError.
Proof.
  intro payload. apply islands_from_mesh_payload_cases; try discriminate.
  intros triangles_uv components _ _ Hrange. unfold islands_from_components.
  destruct (int64_ok _); [|discriminate].
  destruct (mesh_loop_ok (opt_default (p_width payload) 0) (opt_default (p_height payload) 0)
              (opt_default (p_background_id payload) 0) triangles_uv components
              (mkMeshState
                 (repeat (repeat (opt_default (p_background_id payload) 0)
                                 (Z.to_nat (opt_default (p_width payload) 0)))
                         (Z.to_nat (opt_default (p_height payload) 0))) 1 []) Hrange)
    as (st' & ->).
  cbn [bind]. destruct (m_islands st'); discriminate.
Qed.

Lemma StronglySorted_snoc {A : Type} (R : A -> A -> Prop) (l : list A) (a : A) :
  StronglySorted R l -> Forall (fun x => R x a) l -> StronglySorted R (l ++ [a]).
Proof.
  induction 1 as [|x l Hs IH Hx]; intro Ha; cbn [app].
  - constructor; constructor.
  - inversion Ha as [|? ? Hxa Hla]; subst. constructor; [now apply IH|].
    apply Forall_app. split; [exact Hx | now constructor].
Qed.

Lemma mesh_loop_ids (width height background_id : Z) (triangles_uv : list triangle)
    (components : list (list nat)) (st st' : mesh_state) (ids : list Z) :
  mesh_loop width height background_id triangles_uv st components = Ok st' ->
  1 <= m_next_island_id st ->
  map island_id (m_islands st) = map IdInt ids ->
  StronglySorted Z.lt ids ->
  Forall (fun id => 1 <= id < m_next_island_id st /\ id <> background_id) ids ->
  Forall (fun island => pixels island <> [] /\ pixel_uvs island = None /\
                        uv_points island <> None) (m_islands st) ->
  exists ids',
    map island_id (m_islands st') = map IdInt ids' /\
    StronglySorted Z.lt ids' /\
    Forall (fun id => 1 <= id /\ id <> background_id) ids' /\
    Forall (fun island => pixels island <> [] /\ pixel_uvs island = None /\
                          uv_points island <> None) (m_islands st').
Proof.
  revert st ids. induction components as [|comp rest IH]; intros st ids; cbn [mesh_loop].
  - intro H. injection H as <-. intros _ Hmap Hs Hall Hisl. exists ids.
    split; [exact Hmap|]. split; [exact Hs|]. split; [|exact Hisl].
    eapply Forall_impl; [|exact Hall]. cbn. intros id [H1 H2]. split; [lia | exact H2].
  - destruct (mesh_component width height background_id triangles_uv st comp) as [st1|e] eqn:Ec;
      cbn [bind]; [|discriminate].
    intros Hloop Hnext Hmap Hs Hall Hisl.
    apply mesh_component_inv in Ec. cbv zeta in Ec. destruct Ec as (tris & _ & _ & Hn & Hcase).
    pose proof (component_island_id_spec (m_next_island_id st) background_id) as Hspec.
    cbv zeta in Hspec. destruct Hspec as [Hbg Hid].
    set (id := component_island_id (m_next_island_id st) background_id) in *.
    assert (Hall1 : Forall (fun i => 1 <= i < m_next_island_id st1 /\ i <> background_id) ids).
    { eapply Forall_impl; [|exact Hall]. cbv beta. intros i [H1 H2]. split; [lia | exact H2]. }
    destruct Hcase as [[_ Eisl] | [Hne Eisl]].
    + apply (IH st1 ids Hloop); [lia | now rewrite Eisl | exact Hs | exact Hall1
                                | now rewrite Eisl].
    + apply (IH st1 (ids ++ [id]) Hloop).
      * lia.
      * rewrite Eisl, !map_app, Hmap. reflexivity.
      * apply StronglySorted_snoc; [exact Hs|].
        eapply Forall_impl; [|exact Hall]. cbv beta. intros i [H1 _]. lia.
      * apply Forall_app. split; [exact Hall1|]. constructor; [|constructor].
        split; [lia | exact Hbg].
      * rewrite Eisl. apply Forall_app. split; [exact Hisl|]. constructor; [|constructor].
        cbn [pixels pixel_uvs uv_points]. split; [exact Hne|]. split; [reflexivity | discriminate].
Qed.

(** X21. The islands of a mesh are returned in the order their components
    were discovered, with strictly ascending integer ids, each at least 1
    and none equal to the background id; every island has pixels, no
    per-pixel UVs, and the triangle corners of its component as the points
    the axis is fitted to. *)
Theorem mesh_islands_have_ascending_ids :
  forall (payload : Payload) (islands : list IslandData) (width height : Z),
    islands_from_mesh_payload payload = Ok (islands, width, height) ->
    exists ids : list Z,
      map island_id islands = map IdInt ids /\
      StronglySorted Z.lt ids /\
      Forall (fun id => 1 <= id /\ id <> opt_default (p_background_id payload) 0) ids /\
      Forall (fun island => pixels island <> [] /\ pixel_uvs island = None /\
                            uv_points island <> None) islands.
Proof.
  intros payload islands width height.
  apply islands_from_mesh_payload_cases; try discriminate.
  intros triangles_uv components _ _ _. unfold islands_from_components.
  destruct (int64_ok _); [|discriminate].
  destruct (mesh_loop _ _ _ _ _ _) as [st'|e] eqn:Eloop; cbn [bind]; [|discriminate].
  destruct (mesh_loop_ids _ _ _ _ _ _ _ [] Eloop) as (ids & Hmap & Hs & Hall & Hisl);
    cbn [m_next_island_id m_islands map]; try constructor; try lia.
  destruct (m_islands st') as [|i0 is0] eqn:Eisl; [discriminate|].
  intro H. injection H as <- _ _. exists ids. repeat split; assumption.
Qed.

Lemma mesh_islands_have_ascending_ids_witness :
  exists ids : list Z,
    map island_id overlapping_mesh_islands = map IdInt ids /\ StronglySorted Z.lt ids.
Proof.
  destruct (mesh_islands_have_ascending_ids overlapping_mesh overlapping_mesh_islands 3 3
              ltac:(vm_compute; reflexivity)) as (ids & H1 & H2 & _).
  exists ids. split; assumption.
Defined.

(** ** Mesh mode: what a triangle paints *)

















(** ** Interpolation at the ends *)



(** ** Explicit mode: masks *)

(** X25. The island of a descriptor that gives a mask and no pixel list
    consists of the cells of the mask with a positive value that fall on the
    canvas, whatever the size of the mask. *)
Theorem mask_island_is_positive_cells :
  forall (idx : nat) (entry : entry_fields) (width height : Z)
         (mask : list (list Z)) (island : IslandData),
    e_pixels entry = None -> e_mask entry = Some mask ->
    rectangular mask ->
    fst (shape mask) <= 2 ^ 31 -> snd (shape mask) <= 2 ^ 31 ->
    width <= 2 ^ 31 -> height <= 2 ^ 31 ->
    explicit_entry idx (Entry entry) width height = Ok (Some island) ->
    forall p : pixel,
      In p (pixels island) <->
      exists (x y : nat) (v : Z),
        p = (Z.of_nat x, Z.of_nat y) /\ cell_at mask x y = Some v /\ 0 < v /\
        in_canvas width height p.
Proof.
  intros idx entry width height mask island Hpx Hmask Hrect Hrows Hcols Hw Hh Hentry p.
  destruct (explicit_entry_inv idx entry width height (Some island) Hentry)
    as (px & Hsrc & _ & Hpix & _).
  unfold entry_source in Hsrc. rewrite Hpx, Hmask in Hsrc. injection Hsrc as <-.
  rewrite Hpix, (normalize_pixels_In _ _ _ _ Hw Hh).
  unfold mask_pixels_from_image. rewrite In_where_pixels. split.
  - intros [(x & y & v & Hc & Hv & ->) Hcanvas]. apply Z.ltb_lt in Hv.
    destruct (rectangular_cell mask x y v Hrect Hc) as [Hx Hy].
    rewrite !to_int32_small in * by lia.
    exists x, y, v. repeat split; try assumption; apply Hcanvas.
  - intros (x & y & v & -> & Hc & Hv & Hcanvas). split; [|exact Hcanvas].
    destruct (rectangular_cell mask x y v Hrect Hc) as [Hx Hy].
    exists x, y, v. split; [exact Hc|]. split; [now apply Z.ltb_lt|].
    now rewrite !to_int32_small by lia.
Qed.

Lemma mask_island_is_positive_cells_witness :
  In (1, 0) (pixels (mkIsland (IdInt 1) [(1, 0)] None None)) <->
  exists (x y : nat) (v : Z),
    (1, 0) = (Z.of_nat x, Z.of_nat y) /\ cell_at [[0; 255; 9]; [0; 0; 0]] x y = Some v /\
    0 < v /\ in_canvas 2 2 (1, 0).
Proof.
  apply (mask_island_is_positive_cells 0
           (mkEntry None None (Some [[0; 255; 9]; [0; 0; 0]]) None None) 2 2
           [[0; 255; 9]; [0; 0; 0]] (mkIsland (IdInt 1) [(1, 0)] None None)).
  - reflexivity.
  - reflexivity.
  - intros row [<- | [<- | []]]; reflexivity.
  - cbn. lia.
  - cbn. lia.
  - lia.
  - lia.
  - vm_compute. reflexivity.
Defined.

(** ** ID-map mode: the pipeline is total *)


Section IdMapPipeline.

Variable eigh : mat2 -> option (Q * Q * mat2).
Variable vec_norm : uv -> Q.


End IdMapPipeline.


(** ** Explicit mode: per-pixel UVs of the right length *)



